(** * Backbone 0.1.0: events, models and collections

    A shallow embedding of [src/backbone.js] ([Backbone.Events],
    [Backbone.Model], [Backbone.Collection], the methods that go
    through [Backbone.sync], and [_initialize] of [Backbone.View])
    together with the properties of its specification that were
    checked against it, and with further properties of the code.

    Conventions of the embedding.
    - JavaScript objects live in a store and are named by references
      (natural numbers); a method [o.f(x)] becomes a function taking
      the reference of [o] and the store.
    - A JavaScript object used as a dictionary has its own properties
      and, behind them, those of [Object.prototype]: a read finds a
      value, something inherited ([constructor], [toString], ...) or
      nothing, and the program goes on with what it finds as the
      JavaScript does. The attributes of a model remember the order
      in which their keys were written and whether an assignment to
      [__proto__] has taken their prototype away.
    - Attribute values are the JavaScript primitives; the numbers are
      the integers that a double holds exactly, and [NaN]. A string
      compared with a number by [==] or [!=] is read as JavaScript
      reads it.
    - A call that can throw returns an [outcome] that carries the store
      as it is at the moment of the throw.
    - The functions of an application are taken as follows: a
      subscriber is called and leaves the store as it is, a [validate]
      hook is a function of what [set] hands it, and a comparator is a
      function from the attributes of a model to the integers.
    - The store keeps a log of the calls of [trigger] and of the calls
      of subscribers; the log is there for the properties and has no
      effect on the run. *)

From Stdlib Require Import ZArith Lia Ascii String.
From stdpp Require Import gmap strings list fin_maps pretty sorting.

Set Default Proof Using "Type".

(** ** Values *)

(** The numbers of the embedding are the integers that JavaScript
    represents exactly and prints in plain decimal notation (the safe
    integers), and [NaN]. *)
Definition safe (n : Z) : bool := ((- 2 ^ 53 <? n) && (n <? 2 ^ 53))%Z.

Record number := Number {
  integer :> Z;
  integer_safe : Is_true (safe integer)
}.

#[global] Instance number_eq_dec : EqDecision number.
Proof.
  intros [a p] [b q]. destruct (decide (a = b)) as [->|Hne].
  - left. f_equal. apply proof_irrel.
  - right. intros Heq. apply Hne. by injection Heq.
Defined.

Inductive value :=
  | VUndefined
  | VNull
  | VBool (b : bool)
  | VNum (n : number)
  | VNaN
  | VStr (s : string).

(** The number written [n]. *)
Abbreviation VInt n := (VNum (Number n I)).

#[global] Instance value_eq_dec : EqDecision value.
Proof. solve_decision. Defined.

(** [if (v)] *)
Definition truthy (v : value) : bool :=
  match v with
  | VUndefined | VNull | VNaN => false
  | VBool b => b
  | VNum n => negb (n =? 0)%Z
  | VStr s => negb (String.eqb s "")
  end.

(** [v != null] *)
Definition not_nullish (v : value) : bool :=
  match v with
  | VUndefined | VNull => false
  | _ => true
  end.

(** [_.isEqual(a, b)] on primitives: same type and same value. The
    releases of Underscore differ on [_.isEqual(NaN, NaN)]; it is
    [true] here, and the theorems on what [set] and
    [changedAttributes] do with equal values are stated for values
    other than [NaN]. *)
Definition isEqual (a b : value) : bool := bool_decide (a = b).

(** The string a value turns into when it is used as a property key
    or added to a string. *)
Definition to_key (v : value) : string :=
  match v with
  | VUndefined => "undefined"
  | VNull => "null"
  | VBool true => "true"
  | VBool false => "false"
  | VNum n => pretty (integer n)
  | VNaN => "NaN"
  | VStr s => s
  end.

(** *** Strings as numbers

    [a == b] turns a string into a number when the other side is a
    number or a boolean. The strings are read as UTF-8. What a string
    denotes is kept exactly, as a decimal fraction, and compared with
    an integer the way the nearest double is. *)

Inductive literal :=
  | Finite (negative : bool) (digits : Z) (exponent : Z)
  | Infinite
  | NotANumber.

(** The value of a digit in the given base. *)
Definition digit_of (base : Z) (c : ascii) : option Z :=
  let n := Z.of_nat (nat_of_ascii c) in
  let d := if ((48 <=? n) && (n <=? 57))%Z then Some (n - 48)%Z
           else if ((97 <=? n) && (n <=? 102))%Z then Some (n - 87)%Z
           else if ((65 <=? n) && (n <=? 70))%Z then Some (n - 55)%Z
           else None in
  match d with
  | Some d => if (d <? base)%Z then Some d else None
  | None => None
  end.

(** The digits a string begins with: how many there are with the
    [count] before them, the number they write after [acc], and the
    rest of the string. *)
Fixpoint read_digits (base : Z) (s : string) (count : nat) (acc : Z)
  : nat * Z * string :=
  match s with
  | String c s' =>
      match digit_of base c with
      | Some d => read_digits base s' (S count) (base * acc + d)%Z
      | None => (count, acc, s)
      end
  | EmptyString => (count, acc, s)
  end.

(** White space and line terminators: TAB, LF, VT, FF, CR, SP, and in
    UTF-8 U+00A0, U+1680, U+2000 to U+200A, U+2028, U+2029, U+202F,
    U+205F, U+3000 and U+FEFF. *)
Fixpoint skip_space (fuel : nat) (s : string) : string :=
  match fuel with
  | O => s
  | S fuel' =>
      match s with
      | String c s1 =>
          let n := nat_of_ascii c in
          if bool_decide (n ∈ [9; 10; 11; 12; 13; 32]) then skip_space fuel' s1
          else
            match s1 with
            | String c1 s2 =>
                let n1 := nat_of_ascii c1 in
                if bool_decide (n = 194 ∧ n1 = 160) then skip_space fuel' s2
                else
                  match s2 with
                  | String c2 s3 =>
                      let n2 := nat_of_ascii c2 in
                      if bool_decide
                           ((n = 225 ∧ n1 = 154 ∧ n2 = 128) ∨
                            (n = 226 ∧ n1 = 128 ∧
                             (128 ≤ n2 ≤ 138 ∨ n2 ∈ [168; 169; 175])) ∨
                            (n = 226 ∧ n1 = 129 ∧ n2 = 159) ∨
                            (n = 227 ∧ n1 = 128 ∧ n2 = 128) ∨
                            (n = 239 ∧ n1 = 187 ∧ n2 = 191))
                      then skip_space fuel' s3
                      else s
                  | EmptyString => s
                  end
            | EmptyString => s
            end
      | EmptyString => s
      end
  end.

Definition trim_start (s : string) : string := skip_space (String.length s) s.

(** [s] without the prefix [p], when it begins with it. *)
Fixpoint after_prefix (p s : string) : option string :=
  match p, s with
  | EmptyString, _ => Some s
  | String a p', String b s' =>
      if Ascii.eqb a b then after_prefix p' s' else None
  | String _ _, EmptyString => None
  end.

(** An exponent part at the start of [s]: [e] or [E], a sign or none,
    and at least one digit. Without one the exponent is 0 and the
    string is as it was. *)
Definition read_exponent (s : string) : Z * string :=
  match s with
  | String c s1 =>
      if bool_decide (c = "e"%char ∨ c = "E"%char) then
        let '(negative, s2) :=
          match s1 with
          | String "-" s2 => (true, s2)
          | String "+" s2 => (false, s2)
          | _ => (false, s1)
          end in
        match read_digits 10 s2 0 0 with
        | (O, _, _) => (0%Z, s)
        | (_, e, rest) => (if negative then (- e)%Z else e, rest)
        end
      else (0%Z, s)
  | EmptyString => (0%Z, s)
  end.

(** A decimal literal without sign at the start of [s], and the rest. *)
Definition read_decimal (negative : bool) (s : string)
  : option (literal * string) :=
  match after_prefix "Infinity" s with
  | Some rest => Some (Infinite, rest)
  | None =>
      let '(n1, whole, r1) := read_digits 10 s 0 0 in
      let '(n2, mantissa, r2) :=
        match r1 with
        | String "." r => let '(n, m, r') := read_digits 10 r 0 whole in
                          (n, m, if bool_decide (n1 + n = 0) then r1 else r')
        | _ => (0, whole, r1)
        end in
      if bool_decide (n1 + n2 = 0) then None
      else
        let '(e, r3) := read_exponent r2 in
        Some (Finite negative mantissa (e - Z.of_nat n2), r3)
  end.

(** A literal in base 16, 2 or 8 at the start of [s]: [0x], [0b] or
    [0o], in either case, and at least one digit. *)
Definition read_prefixed (s : string) : option (literal * string) :=
  match s with
  | String "0" (String c s') =>
      let base := if bool_decide (c = "x"%char ∨ c = "X"%char) then 16%Z
                  else if bool_decide (c = "b"%char ∨ c = "B"%char) then 2%Z
                  else if bool_decide (c = "o"%char ∨ c = "O"%char) then 8%Z
                  else 0%Z in
      match read_digits base s' 0 0 with
      | (O, _, _) => None
      | (_, n, rest) => Some (Finite false n 0, rest)
      end
  | _ => None
  end.

(** ToNumber of a string: white space around a literal, or nothing
    but white space, which is 0. *)
Definition to_literal (s : string) : literal :=
  let s1 := trim_start s in
  match s1 with
  | EmptyString => Finite false 0 0
  | _ =>
      let read :=
        match read_prefixed s1 with
        | Some r => Some r
        | None =>
            match s1 with
            | String "-" s2 => read_decimal true s2
            | String "+" s2 => read_decimal false s2
            | _ => read_decimal false s1
            end
        end in
      match read with
      | Some (l, rest) =>
          match trim_start rest with
          | EmptyString => l
          | _ => NotANumber
          end
      | None => NotANumber
      end
  end.

(** Is the double nearest to [digits * 10 ^ exponent] the safe integer
    [a >= 1]? The doubles next to [a] are [2 ^ (b - 53)] away, [b]
    being the number of bits of [a], and half as far below a power of
    two; a decimal half way between two doubles goes to the one with
    the even significand. Everything is scaled by [2 ^ (55 - b)] and
    by the power of ten. *)
Definition rounds_to (digits exponent a : Z) : bool :=
  if (0 <=? exponent)%Z then
    (exponent <? 16)%Z && (digits * 10 ^ exponent =? a)%Z
  else if (Z.log2 digits + 400 <? - exponent)%Z then false
  else
    let b := (Z.log2 a + 1)%Z in
    let scale := (2 ^ (55 - b))%Z in
    let ten := (10 ^ (- exponent))%Z in
    let below := if (a =? 2 ^ (b - 1))%Z then 1%Z else 2%Z in
    let low := ((a * scale - below) * ten)%Z in
    let high := ((a * scale + 2) * ten)%Z in
    let x := (digits * scale)%Z in
    if (b <? 53)%Z || Z.even a
    then (low <=? x)%Z && (x <=? high)%Z
    else (low <? x)%Z && (x <? high)%Z.

(** Is it 0: the decimals up to [2 ^ -1075], half of the smallest
    double, are. *)
Definition rounds_to_zero (digits exponent : Z) : bool :=
  if (digits =? 0)%Z then true
  else if (0 <=? exponent)%Z then false
  else if (Z.log2 digits + 400 <? - exponent)%Z then true
  else (digits * 2 ^ 1075 <=? 10 ^ (- exponent))%Z.

(** Does the literal denote the safe integer [n]? *)
Definition literal_is (l : literal) (n : Z) : bool :=
  match l with
  | Finite negative digits exponent =>
      if (n =? 0)%Z then rounds_to_zero digits exponent
      else negb (digits =? 0)%Z && Bool.eqb negative (n <? 0)%Z
           && rounds_to digits exponent (Z.abs n)
  | Infinite | NotANumber => false
  end.

(** ToNumber of a number or a boolean. *)
Definition as_integer (v : value) : option Z :=
  match v with
  | VBool b => Some (if b then 1 else 0)%Z
  | VNum n => Some (integer n)
  | _ => None
  end.

(** [a == b] on primitives. *)
Definition loose_eq (a b : value) : bool :=
  match a, b with
  | (VUndefined | VNull), (VUndefined | VNull) => true
  | VStr s, VStr t => String.eqb s t
  | VStr s, (VBool _ | VNum _) =>
      literal_is (to_literal s) (default 0%Z (as_integer b))
  | (VBool _ | VNum _), VStr s =>
      literal_is (to_literal s) (default 0%Z (as_integer a))
  | (VBool _ | VNum _), (VBool _ | VNum _) =>
      bool_decide (as_integer a = as_integer b)
  | _, _ => false
  end.

(** ** Objects used as dictionaries

    [this._attributes], [this._byId], [this._byCid] and
    [this._callbacks] are plain objects: a read [o[k]] that finds no
    own property [k] goes on to [Object.prototype]. *)

(** What [Object.prototype] holds: eleven functions, and under
    [__proto__] an accessor that reads as [Object.prototype] itself. *)
Inductive native :=
  | Object_function
  | defineGetter
  | defineSetter
  | hasOwnProperty
  | lookupGetter
  | lookupSetter
  | isPrototypeOf
  | propertyIsEnumerable
  | toString
  | valueOf
  | the_prototype
  | toLocaleString.

#[global] Instance native_eq_dec : EqDecision native.
Proof. solve_decision. Defined.

Definition native_name (n : native) : string :=
  match n with
  | Object_function => "constructor"
  | defineGetter => "__defineGetter__"
  | defineSetter => "__defineSetter__"
  | hasOwnProperty => "hasOwnProperty"
  | lookupGetter => "__lookupGetter__"
  | lookupSetter => "__lookupSetter__"
  | isPrototypeOf => "isPrototypeOf"
  | propertyIsEnumerable => "propertyIsEnumerable"
  | toString => "toString"
  | valueOf => "valueOf"
  | the_prototype => "__proto__"
  | toLocaleString => "toLocaleString"
  end.

Definition Object_prototype : list (string * native) :=
  Eval cbv in
    (λ n, (native_name n, n)) <$>
      [Object_function; defineGetter; defineSetter; hasOwnProperty;
       lookupGetter; lookupSetter; isPrototypeOf; propertyIsEnumerable;
       toString; valueOf; the_prototype; toLocaleString].

Fixpoint assoc {A} (k : string) (l : list (string * A)) : option A :=
  match l with
  | [] => None
  | (k', x) :: rest => if String.eqb k' k then Some x else assoc k rest
  end.

(** What an object inherits under the name [k], if anything. *)
Definition inherited (k : string) : option native :=
  assoc k Object_prototype.

(** The property [length] of what is inherited: the number of
    parameters of a function; [Object.prototype] has none. *)
Definition native_length (n : native) : option nat :=
  match n with
  | Object_function | hasOwnProperty | lookupGetter | lookupSetter
  | isPrototypeOf | propertyIsEnumerable => Some 1
  | defineGetter | defineSetter => Some 2
  | toString | valueOf | toLocaleString => Some 0
  | the_prototype => None
  end.

(** The string it turns into; a function in the way V8 writes a
    native function. *)
Definition native_text (n : native) : string :=
  match n with
  | the_prototype => "[object Object]"
  | Object_function => "function Object() { [native code] }"
  | _ => "function " +:+ native_name n +:+ "() { [native code] }"
  end.

(** What a read of a property gives: a primitive, or what is inherited
    from [Object.prototype]. *)
Inductive found :=
  | Val (v : value)
  | Native (n : native).

#[global] Instance found_eq_dec : EqDecision found.
Proof. solve_decision. Defined.

(** [if (x)], [_.isEqual(x, v)], the key [x] turns into, and [x == y],
    where an object is equal to itself and to the string it turns
    into. *)
Definition found_truthy (x : found) : bool :=
  match x with
  | Val v => truthy v
  | Native _ => true
  end.

Definition same (x : found) (v : value) : bool :=
  match x with
  | Val a => isEqual a v
  | Native _ => false
  end.

Definition key_of (x : found) : string :=
  match x with
  | Val v => to_key v
  | Native n => native_text n
  end.

Definition loosely_equal (x y : found) : bool :=
  match x, y with
  | Val a, Val b => loose_eq a b
  | Native n, Native n' => bool_decide (n = n')
  | Native n, Val (VStr s) | Val (VStr s), Native n =>
      String.eqb (native_text n) s
  | _, _ => false
  end.

(** An object [{k1: v1, ...}] as its own properties in the order in
    which [for ... in] goes through them. *)
Abbreviation hash := (list (string * value)).

(** [attrs.id] *)
Fixpoint hash_lookup (k : string) (attrs : hash) : option value :=
  match attrs with
  | [] => None
  | (k', v) :: rest => if decide (k' = k) then Some v else hash_lookup k rest
  end.

(** An array index: the decimal notation, without leading zeros, of a
    number below [2 ^ 32 - 1]. *)
Definition array_index (k : string) : option Z :=
  match read_digits 10 k 0 0 with
  | (S _, n, EmptyString) =>
      if String.eqb (pretty n) k && (n <? 2 ^ 32 - 1)%Z then Some n else None
  | _ => None
  end.

(** The order of [for ... in]: the array indices in ascending order,
    then the other keys in the order in which they were added. *)
Definition index_le (k k' : string) : Prop :=
  (default 0 (array_index k) <= default 0 (array_index k'))%Z.

#[global] Instance index_le_dec : RelDecision index_le.
Proof. intros k k'. unfold index_le. apply _. Defined.

Definition for_in (keys : list string) : list string :=
  merge_sort index_le (filter (λ k, is_Some (array_index k)) keys)
  ++ filter (λ k, ¬ is_Some (array_index k)) keys.

(** An object with primitive values: its own properties, the order in
    which their keys were added, and whether it is [bare], that is,
    has lost its prototype to [o["__proto__"] = null]. *)
Record dict := Dict {
  own : gmap string value;
  order : list string;
  bare : bool
}.

#[global] Instance dict_empty : Empty dict := Dict ∅ [] false.

(** [o[k]] *)
Definition dict_get (o : dict) (k : string) : found :=
  match own o !! k with
  | Some v => Val v
  | None =>
      if bare o then Val VUndefined
      else match inherited k with
           | Some n => Native n
           | None => Val VUndefined
           end
  end.

(** [o[k] = v]: an assignment to [__proto__] that finds no own
    property goes to the accessor of [Object.prototype], which takes
    the prototype away when [v] is [null] and does nothing for another
    primitive. *)
Definition dict_put (k : string) (v : value) (o : dict) : dict :=
  if bool_decide (k = "__proto__") && negb (bare o)
     && bool_decide (own o !! k = None)
  then (if bool_decide (v = VNull) then Dict (own o) (order o) true else o)
  else Dict (<[k := v]> (own o))
            (if bool_decide (is_Some (own o !! k)) then order o
             else order o ++ [k])
            (bare o).

(** [delete o[k]] *)
Definition dict_delete (k : string) (o : dict) : dict :=
  Dict (delete k (own o)) (filter (λ k', k' ≠ k) (order o)) (bare o).

(** The keys [for (k in o)] goes through. The keys are those of the
    own properties, in the order of [order]; own properties that
    [order] does not list come last. *)
Definition dict_keys (o : dict) : list string :=
  let listed := filter (λ k, is_Some (own o !! k)) (remove_dups (order o)) in
  for_in (listed ++ filter (λ k, k ∉ listed) (map_to_list (own o)).*1).

Definition dict_entries (o : dict) : hash :=
  omap (λ k, pair k <$> own o !! k) (dict_keys o).

(** [_.clone(o)], which is [_.extend({}, o)]:
    [for (var prop in source) obj[prop] = source[prop];] *)
Definition dict_clone (o : dict) : dict :=
  foldl (λ copy kv, dict_put kv.1 kv.2 copy) ∅ (dict_entries o).

(** What a read [o[k]] gives when the values are objects, named by
    their references: an own property, something inherited from
    [Object.prototype], or nothing. [Astray] is for an object whose
    prototype has been replaced: what is read through the new
    prototype is not followed. *)
Inductive slot :=
  | Absent
  | Holds (x : nat)
  | Proto (n : native)
  | Astray.

#[global] Instance slot_eq_dec : EqDecision slot.
Proof. solve_decision. Defined.

(** [o[k]] *)
Definition lookup_in (o : gmap string nat) (k : string) : slot :=
  match o !! k with
  | Some x => Holds x
  | None =>
      match inherited k with
      | Some n => Proto n
      | None => Absent
      end
  end.

(** Arguments handed to callbacks: primitive values and references to
    models and collections; [AStr ev] is the name of an event. *)
Inductive arg :=
  | AVal (v : value)
  | AModel (m : nat)
  | ACollection (c : nat).

Abbreviation AStr s := (AVal (VStr s)).

#[global] Instance arg_eq_dec : EqDecision arg.
Proof. solve_decision. Defined.

(** ** Outcomes *)

(** [Unfollowed] is no exception of the program: the call assigns an
    object to the key [__proto__] of a dictionary of callbacks, or
    reads an index whose prototype is a model, and the embedding does
    not follow the program from there. *)
Inductive exn :=
  | TypeError
  | Error (msg : string) (data : value)
  | Unfollowed.

Inductive outcome (St A : Type) :=
  | Ret (a : A) (s : St)
  | Throw (e : exn) (s : St).
Arguments Ret {St A} a s.
Arguments Throw {St A} e s.

Definition obind {St A B} (x : outcome St A) (k : A → St → outcome St B)
  : outcome St B :=
  match x with
  | Ret a s => k a s
  | Throw e s => Throw e s
  end.

Definition final {St A} (x : outcome St A) : St :=
  match x with Ret _ s | Throw _ s => s end.

Definition returned {St A} (x : outcome St A) : option A :=
  match x with Ret a _ => Some a | Throw _ _ => None end.

(** ** Backbone.Events *)

(** [splice(i, 1)] on the first [i] with [callback === list[i]]. *)
Fixpoint remove_first {A} `{EqDecision A} (x : A) (l : list A) : list A :=
  match l with
  | [] => []
  | y :: l' => if decide (x = y) then l' else y :: remove_first x l'
  end.

Section Events.
Context {A : Type} `{EqDecision A}.

(** The event state of one object. [_callbacks] is the object's
    property (absent until the first [bind]); the dictionaries it has
    pointed to and the arrays of callbacks are kept in two stores, so
    that a [trigger] in progress keeps hold of the very dictionary and
    array it started with while callbacks change them. A dictionary
    maps the own keys to the references of their arrays. *)
Record hub := Hub {
  _callbacks : option nat;
  tables : gmap nat (gmap string nat);
  arrays : gmap nat (list A)
}.

(** An object that has never bound a callback. *)
Definition no_events : hub := Hub None ∅ ∅.

(** The dictionary and the array behind a reference; an array that was
    never made is empty. *)
Definition table_at (h : hub) (o : nat) : gmap string nat :=
  default ∅ (tables h !! o).
Definition array_at (h : hub) (a : nat) : list A :=
  default [] (arrays h !! a).

(** The callbacks currently bound to [ev]: those of the array under
    the own key [ev] of the dictionary. *)
Definition listeners (h : hub) (ev : string) : list A :=
  match _callbacks h with
  | None => []
  | Some o =>
      match table_at h o !! ev with
      | Some a => array_at h a
      | None => []
      end
  end.

(** [bind(ev, callback)]. For an event named like a property of
    [Object.prototype] and not yet an own key, [list] is what is
    inherited, which has no [push]. *)
Definition bind (ev : string) (callback : A) (h : hub) : outcome hub unit :=
  (* var calls = this._callbacks || (this._callbacks = {}); *)
  let h1 :=
    match _callbacks h with
    | Some _ => h
    | None =>
        let o := fresh (dom (tables h)) in
        Hub (Some o) (<[o := ∅]> (tables h)) (arrays h)
    end in
  match _callbacks h1 with
  | None => Ret tt h1
  | Some o =>
      (* var list = this._callbacks[ev] || (this._callbacks[ev] = []);
         list.push(callback); *)
      match lookup_in (table_at h1 o) ev with
      | Holds a =>
          Ret tt (Hub (Some o) (tables h1)
                      (<[a := array_at h1 a ++ [callback]]> (arrays h1)))
      | Absent =>
          let a := fresh (dom (arrays h1)) in
          Ret tt (Hub (Some o)
                      (<[o := <[ev := a]> (table_at h1 o)]> (tables h1))
                      (<[a := [callback]]> (arrays h1)))
      | Proto _ => Throw TypeError h1
      | Astray => (* not reached *) Throw Unfollowed h1
      end
  end.

(** [unbind(ev, callback)]; a missing argument is [None], and [!ev]
    holds for a missing and for an empty event name. With a callback,
    [list] may be something inherited: it has no callback in it, and
    nothing is taken out. Without one, [calls[ev] = []] makes an own
    property, except for [__proto__], where the array becomes the
    prototype of the dictionary. *)
Definition unbind (ev : option string) (callback : option A) (h : hub)
  : outcome hub unit :=
  match ev, _callbacks h with
  | (None | Some ""), _ =>
      (* this._callbacks = {}; *)
      let o := fresh (dom (tables h)) in
      Ret tt (Hub (Some o) (<[o := ∅]> (tables h)) (arrays h))
  | Some _, None => Ret tt h
  | Some e, Some o =>
      match callback with
      | None =>
          (* calls[ev] = []; *)
          if bool_decide (e = "__proto__")
             && bool_decide (table_at h o !! e = None)
          then Throw Unfollowed h
          else
            let a := fresh (dom (arrays h)) in
            Ret tt (Hub (Some o) (<[o := <[e := a]> (table_at h o)]> (tables h))
                        (<[a := []]> (arrays h)))
      | Some f =>
          match table_at h o !! e with
          | None => Ret tt h
          | Some a =>
              Ret tt (Hub (Some o) (tables h)
                          (<[a := remove_first f (array_at h a)]> (arrays h)))
          end
      end
  end.

Section Trigger.
Context {St : Type}.
(** Where the event state of [this] sits in the store, and what
    calling a callback does. *)
Variable get_hub : St → hub.
Variable invoke : A → list arg → St → outcome St unit.

(** [for (i = 0, l = list.length; i < l; i++) list[i].apply(...)]:
    [n] iterations are left, [i] is the index, [a] is the array
    [list] refers to; [list[i]] is read from the store at every
    turn, and calling the [undefined] found past the end of the
    array throws. *)
Fixpoint fire (a : nat) (args : list arg) (n i : nat) (s : St)
  : outcome St unit :=
  match n with
  | O => Ret tt s
  | S n' =>
      match array_at (get_hub s) a !! i with
      | None => Throw TypeError s
      | Some f => obind (invoke f args s) (λ _, fire a args n' (S i))
      end
  end.

(** [if (list = calls[key]) { for ... }]: [calls] is the dictionary
    [trigger] has read from [this._callbacks] at its start. When
    [list] is an inherited function, [l] is the number of its
    parameters and [list[0]] is [undefined]. *)
Definition fire_list (calls : nat) (key : string) (args : list arg)
    (s : St) : outcome St unit :=
  match lookup_in (table_at (get_hub s) calls) key with
  | Holds a => fire a args (length (array_at (get_hub s) a)) 0 s
  | Absent => Ret tt s
  | Proto n =>
      match native_length n with
      | Some (S _) => Throw TypeError s
      | _ => Ret tt s
      end
  | Astray => (* not reached *) Throw Unfollowed s
  end.

(** [trigger(ev, args...)]: the callbacks of [ev] get [args], those
    of ["all"] get the event name and [args]. *)
Definition trigger (ev : string) (args : list arg) (s : St)
  : outcome St unit :=
  match _callbacks (get_hub s) with
  | None => Ret tt s
  | Some calls =>
      obind (fire_list calls ev args s)
            (λ _, fire_list calls "all" (AStr ev :: args))
  end.
End Trigger.
End Events.
Arguments hub A : clear implicits.

(** ** Subscribers that change the subscriptions

    An object with nothing but events. A subscriber is named by a
    number; when it is called it is recorded in [calls_log] and then
    runs its script of [bind] and [unbind] calls on the object; a call
    of the script that throws ends the subscriber. *)

Module Scripted.

Inductive action :=
  | DoBind (ev : string) (callback : nat)
  | DoUnbind (ev : option string) (callback : option nat).

Record state := State {
  events : hub nat;
  calls_log : list (nat * list arg)
}.

Definition run_action (a : action) (h : hub nat) : outcome (hub nat) unit :=
  match a with
  | DoBind ev f => bind ev f h
  | DoUnbind ev f => unbind ev f h
  end.

Fixpoint run (acts : list action) (h : hub nat) : outcome (hub nat) unit :=
  match acts with
  | [] => Ret tt h
  | a :: rest => obind (run_action a h) (λ _, run rest)
  end.

Definition invoke (script : nat → list action) (f : nat)
    (args : list arg) (s : state) : outcome state unit :=
  let log := calls_log s ++ [(f, args)] in
  match run (script f) (events s) with
  | Ret _ h => Ret tt (State h log)
  | Throw e h => Throw e (State h log)
  end.

Definition trigger (script : nat → list action) (ev : string)
    (args : list arg) (s : state) : outcome state unit :=
  trigger events (invoke script) ev args s.

Definition start (h : hub nat) : state := State h [].

End Scripted.

(** ** The store of models and collections *)

(** Callbacks bound to a model: the [_boundOnModelEvent] of a
    collection, or a subscriber of the application. Callbacks bound to
    a collection: subscribers of the application. A subscriber is named
    by a number and observes; it does not call back into the library. *)
Inductive mcallback :=
  | MBound (c : nat)
  | MUser (n : nat).

Inductive ccallback :=
  | CUser (n : nat).

#[global] Instance mcallback_eq_dec : EqDecision mcallback.
Proof. solve_decision. Defined.
#[global] Instance ccallback_eq_dec : EqDecision ccallback.
Proof. solve_decision. Defined.

(** What [set] works on, and hands to [validate], past
    [attrs = attrs._attributes || attrs]: an object, or the primitive
    that an object had for a truthy property [_attributes]. *)
Inductive patch :=
  | Properties (attrs : hash)
  | Primitive (v : value).

#[global] Instance patch_eq_dec : EqDecision patch.
Proof. solve_decision. Defined.

(** [m_id] is the property [this.id]; [validate] is the hook of the
    model's class, when it has one. *)
Record Model := Build_Model {
  cid : string;
  m_id : value;
  _attributes : dict;
  _previousAttributes : dict;
  _changed : bool;
  collection : option nat;
  validate : option (patch → value);
  m_events : hub mcallback
}.

(** [c_length] is the property [this.length]; [model] is the class of
    the models the collection creates, given by its [validate] hook.
    [_byId] and [_byCid] map their own keys to models; a model under
    the key ["__proto__"] is the model that [o["__proto__"] = model]
    has made the prototype of the object. *)
Record Collection := Build_Collection {
  c_length : Z;
  models : list nat;
  _byId : gmap string nat;
  _byCid : gmap string nat;
  comparator : option (gmap string value → Z);
  model : option (patch → value);
  c_events : hub ccallback
}.

Inductive objref :=
  | OModel (m : nat)
  | OCollection (c : nat).

(** What happened, in order: [Published] for every call of [trigger],
    [Invoked] for every call of a subscriber, with the models and
    collections as they are when it is called. *)
Inductive entry :=
  | Published (this : objref) (ev : string) (args : list arg)
  | Invoked (n : nat) (this : objref) (args : list arg)
      (seen_models : gmap nat Model) (seen_collections : gmap nat Collection).

Record Store := Build_Store {
  model_heap : gmap nat Model;
  collection_heap : gmap nat Collection;
  idCounter : nat;
  log : list entry
}.

Definition empty_store : Store := Build_Store ∅ ∅ 0 [].

(** What a reference that is not in the store stands for. *)
Definition blank_Model : Model :=
  Build_Model "" VUndefined ∅ ∅ false None None no_events.
Definition blank_Collection : Collection :=
  Build_Collection 0 [] ∅ ∅ None None no_events.

(** Reading and updating the object behind a reference. *)
Definition the_model (w : Store) (m : nat) : Model :=
  default blank_Model (model_heap w !! m).
Definition the_collection (w : Store) (c : nat) : Collection :=
  default blank_Collection (collection_heap w !! c).

Definition with_model (m : nat) (f : Model → Model) (w : Store) : Store :=
  Build_Store (<[m := f (the_model w m)]> (model_heap w))
              (collection_heap w) (idCounter w) (log w).
Definition with_collection (c : nat) (f : Collection → Collection)
    (w : Store) : Store :=
  Build_Store (model_heap w)
              (<[c := f (the_collection w c)]> (collection_heap w))
              (idCounter w) (log w).
Definition with_log (e : entry) (w : Store) : Store :=
  Build_Store (model_heap w) (collection_heap w) (idCounter w) (log w ++ [e]).

(** Assignments to one property of a model or of a collection. *)
Definition set_m_id (v : value) (M : Model) : Model :=
  Build_Model (cid M) v (_attributes M) (_previousAttributes M) (_changed M)
              (collection M) (validate M) (m_events M).
Definition set_attributes (a : dict) (M : Model) : Model :=
  Build_Model (cid M) (m_id M) a (_previousAttributes M) (_changed M)
              (collection M) (validate M) (m_events M).
Definition set_previousAttributes (a : dict) (M : Model) : Model :=
  Build_Model (cid M) (m_id M) (_attributes M) a (_changed M)
              (collection M) (validate M) (m_events M).
Definition set_changed (b : bool) (M : Model) : Model :=
  Build_Model (cid M) (m_id M) (_attributes M) (_previousAttributes M) b
              (collection M) (validate M) (m_events M).
Definition set_collection (c : option nat) (M : Model) : Model :=
  Build_Model (cid M) (m_id M) (_attributes M) (_previousAttributes M)
              (_changed M) c (validate M) (m_events M).
Definition set_m_events (h : hub mcallback) (M : Model) : Model :=
  Build_Model (cid M) (m_id M) (_attributes M) (_previousAttributes M)
              (_changed M) (collection M) (validate M) h.

Definition set_c_length (n : Z) (C : Collection) : Collection :=
  Build_Collection n (models C) (_byId C) (_byCid C) (comparator C)
                   (model C) (c_events C).
Definition set_models (l : list nat) (C : Collection) : Collection :=
  Build_Collection (c_length C) l (_byId C) (_byCid C) (comparator C)
                   (model C) (c_events C).
Definition set_byId (i : gmap string nat) (C : Collection) : Collection :=
  Build_Collection (c_length C) (models C) i (_byCid C) (comparator C)
                   (model C) (c_events C).
Definition set_byCid (i : gmap string nat) (C : Collection) : Collection :=
  Build_Collection (c_length C) (models C) (_byId C) i (comparator C)
                   (model C) (c_events C).
Definition set_c_events (h : hub ccallback) (C : Collection) : Collection :=
  Build_Collection (c_length C) (models C) (_byId C) (_byCid C)
                   (comparator C) (model C) h.

(** ** Triggering on models and collections *)

(** A call of subscriber [n]: it goes into the log with what the
    subscriber can see. *)
Definition call_user (n : nat) (this : objref) (args : list arg) (w : Store)
  : Store :=
  with_log (Invoked n this args (model_heap w) (collection_heap w)) w.

(** [arguments[i]], [undefined] past the end. *)
Definition nth_arg (i : nat) (args : list arg) : arg :=
  default (AVal VUndefined) (args !! i).

Definition c_invoke (c : nat) (f : ccallback) (args : list arg) (w : Store)
  : outcome Store unit :=
  match f with
  | CUser n => Ret tt (call_user n (OCollection c) args w)
  end.

(** [trigger] on collection [c]. *)
Definition c_trigger (c : nat) (ev : string) (args : list arg) (w : Store)
  : outcome Store unit :=
  trigger (λ w, c_events (the_collection w c)) (c_invoke c) ev args
          (with_log (Published (OCollection c) ev args) w).

(** ** [bind] and [unbind] on models and collections *)

(** A call on the event state of an object of the store. *)
Definition on_hub {A} (x : outcome (hub A) unit) (put : hub A → Store)
  : outcome Store unit :=
  match x with
  | Ret _ h => Ret tt (put h)
  | Throw e h => Throw e (put h)
  end.

Definition m_bind (m : nat) (ev : string) (callback : mcallback) (w : Store)
  : outcome Store unit :=
  on_hub (bind ev callback (m_events (the_model w m)))
         (λ h, with_model m (set_m_events h) w).

Definition m_unbind (m : nat) (ev : option string)
    (callback : option mcallback) (w : Store) : outcome Store unit :=
  on_hub (unbind ev callback (m_events (the_model w m)))
         (λ h, with_model m (set_m_events h) w).

Definition c_bind (c : nat) (ev : string) (callback : ccallback) (w : Store)
  : outcome Store unit :=
  on_hub (bind ev callback (c_events (the_collection w c)))
         (λ h, with_collection c (set_c_events h) w).

Definition c_unbind (c : nat) (ev : option string)
    (callback : option ccallback) (w : Store) : outcome Store unit :=
  on_hub (unbind ev callback (c_events (the_collection w c)))
         (λ h, with_collection c (set_c_events h) w).

(** ** Backbone.Model: the readers *)

(** [attributes()] (also [toJSON()]): the own properties of the copy
    [_.clone(this._attributes)]. *)
Definition attributes (m : nat) (w : Store) : gmap string value :=
  own (dict_clone (_attributes (the_model w m))).

(** [get(attr)]: [this._attributes[attr]] *)
Definition get (m : nat) (attr : string) (w : Store) : found :=
  dict_get (_attributes (the_model w m)) attr.

(** [hasChanged(attr)]: with an attribute,
    [_previousAttributes[attr] != _attributes[attr]]; else [_changed]. *)
Definition hasChanged (m : nat) (attr : option string) (w : Store) : bool :=
  match attr with
  | Some a =>
      if String.eqb a "" then _changed (the_model w m)
      else negb (loosely_equal
                   (dict_get (_previousAttributes (the_model w m)) a)
                   (dict_get (_attributes (the_model w m)) a))
  | None => _changed (the_model w m)
  end.

(** [previous(attr)]: [null] for an empty name. *)
Definition previous (m : nat) (attr : string) (w : Store) : found :=
  if String.eqb attr "" then Val VNull
  else dict_get (_previousAttributes (the_model w m)) attr.

(** [previousAttributes()]: the own properties of the copy. *)
Definition previousAttributes (m : nat) (w : Store) : gmap string value :=
  own (dict_clone (_previousAttributes (the_model w m))).

Definition isNew (m : nat) (w : Store) : bool :=
  negb (truthy (m_id (the_model w m))).

(** ** Backbone.Collection: [_onModelEvent] *)

(** [delete o[k]] on [_byId] or [_byCid], where ["__proto__"] is no
    own property. *)
Definition index_delete (k : string) (o : gmap string nat) : gmap string nat :=
  if bool_decide (k = "__proto__") then o else delete k o.

(** [_onModelEvent(ev, model, error)] of collection [c], called with
    the arguments [args]. On ["change"] it calls [model.hasChanged],
    which throws when [model] is no model. *)
Definition _onModelEvent (c : nat) (args : list arg) (w : Store)
  : outcome Store unit :=
  match nth_arg 0 args with
  | AStr ev =>
      if decide (ev = "change") then
        match nth_arg 1 args with
        | AModel m =>
            let w1 :=
              if hasChanged m (Some "id") w then
                with_collection c (λ C,
                  set_byId (<[to_key (m_id (the_model w m)) := m]>
                              (index_delete (key_of (previous m "id" w))
                                            (_byId C)))
                           C) w
              else w in
            c_trigger c "change" [AModel m] w1
        | _ => Throw TypeError w
        end
      else if decide (ev = "error") then
        c_trigger c "error" [nth_arg 1 args; nth_arg 2 args] w
      else Ret tt w
  | _ => Ret tt w
  end.

Definition m_invoke (m : nat) (f : mcallback) (args : list arg) (w : Store)
  : outcome Store unit :=
  match f with
  | MUser n => Ret tt (call_user n (OModel m) args w)
  | MBound c => _onModelEvent c args w
  end.

(** [trigger] on model [m]. *)
Definition m_trigger (m : nat) (ev : string) (args : list arg) (w : Store)
  : outcome Store unit :=
  trigger (λ w, m_events (the_model w m)) (m_invoke m) ev args
          (with_log (Published (OModel m) ev args) w).

(** ** Backbone.Model: the writers *)

(** The first argument of [set]: nothing, an object, or a model. *)
Inductive hash_arg :=
  | NoHash
  | Hash (attrs : hash)
  | OfModel (m : nat).

(** [change()]: the event first, then the snapshot and the flag. *)
Definition change (m : nat) (w : Store) : outcome Store unit :=
  obind (m_trigger m "change" [AModel m] w) (λ _ w1,
    Ret tt (with_model m (λ M,
      set_changed false
        (set_previousAttributes (dict_clone (_attributes M)) M)) w1)).

(** [if (val === '') val = null;] *)
Definition normalize (val : value) : value :=
  match val with
  | VStr "" => VNull
  | _ => val
  end.

(** The loop [for (var attr in attrs)] of [set]. *)
Fixpoint set_each (m : nat) (silent : bool) (attrs : hash) (w : Store)
  : outcome Store unit :=
  match attrs with
  | [] => Ret tt w
  | (attr, val0) :: rest =>
      let val := normalize val0 in
      if same (get m attr w) val then set_each m silent rest w
      else
        let w1 := with_model m (λ M,
                    set_attributes (dict_put attr val (_attributes M)) M) w in
        if silent then set_each m silent rest w1
        else
          obind (m_trigger m ("change:" +:+ attr) [AModel m; AVal val]
                           (with_model m (set_changed true) w1))
                (λ _, set_each m silent rest)
  end.

(** [attrs._attributes || attrs] for an object [attrs]. *)
Definition divert (attrs : hash) : patch :=
  match hash_lookup "_attributes" attrs with
  | Some v => if truthy v then Primitive v else Properties attrs
  | None => Properties attrs
  end.

(** [attrs = attrs._attributes || attrs], past [if (!attrs) return
    this]: the [_attributes] of a model are its attributes. *)
Definition resolve (attrs : hash_arg) (w : Store) : option patch :=
  match attrs with
  | NoHash => None
  | Hash attrs => Some (divert attrs)
  | OfModel m' => Some (Properties (dict_entries (_attributes (the_model w m'))))
  end.

(** [if (this.validate) { var error = this.validate(attrs);
    if (error) ... }]: the error that stops the [set], if any. *)
Definition validation (m : nat) (attrs : patch) (w : Store) : option value :=
  match validate (the_model w m) with
  | Some hook => if truthy (hook attrs) then Some (hook attrs) else None
  | None => None
  end.

(** [set] past the validation; ['id' in attrs] throws when [attrs] is
    a primitive. *)
Definition set_valid (m : nat) (attrs : patch) (silent : bool) (w : Store)
  : outcome Store bool :=
  match attrs with
  | Primitive _ => Throw TypeError w
  | Properties attrs =>
      (* Check for changes of id. *)
      let w1 := match hash_lookup "id" attrs with
                | Some v => with_model m (set_m_id v) w
                | None => w
                end in
      obind (set_each m silent attrs w1) (λ _ w2,
        if negb silent && _changed (the_model w2 m)
        then obind (change m w2) (λ _ w3, Ret true w3)
        else Ret true w2)
  end.

(** [set] returns [this] ([true] here) or [false]. *)
Definition set (m : nat) (attrs : hash_arg) (silent : bool) (w : Store)
  : outcome Store bool :=
  match resolve attrs w with
  | None => Ret true w
  | Some attrs =>
      match validation m attrs w with
      | Some error =>
          obind (m_trigger m "error" [AModel m; AVal error] w)
                (λ _ w1, Ret false w1)
      | None => set_valid m attrs silent w
      end
  end.

(** [unset] returns what [this._attributes[attr]] was. *)
Definition unset (m : nat) (attr : string) (silent : bool) (w : Store)
  : outcome Store found :=
  let value := get m attr w in
  let w1 := with_model m (λ M,
              set_attributes (dict_delete attr (_attributes M)) M) w in
  if silent then Ret value w1
  else
    obind (m_trigger m ("change:" +:+ attr) [AModel m]
                     (with_model m (set_changed true) w1)) (λ _ w2,
    obind (change m w2) (λ _ w3, Ret value w3)).

(** [new Backbone.Model(attributes)] for a class with the given
    [validate] hook; [_.uniqueId('c')] numbers the models. An
    exception in [set] ends the constructor. *)
Definition new_Model (hook : option (patch → value)) (attributes : hash_arg)
    (w : Store) : outcome Store nat :=
  let m := fresh (dom (model_heap w)) in
  let M := Build_Model ("c" +:+ pretty (idCounter w)) VUndefined ∅ ∅ false
                       None hook no_events in
  let w1 := Build_Store (<[m := M]> (model_heap w)) (collection_heap w)
                        (S (idCounter w)) (log w) in
  obind (set m (match attributes with NoHash => Hash [] | a => a end) true w1)
        (λ _ w2,
          Ret m (with_model m (λ M,
                   set_previousAttributes (dict_clone (_attributes M)) M) w2)).

(** ** Underscore and array helpers used by the collection

    [Backbone.Collection] calls [sortedIndex], [sortBy] and [indexOf]
    of Underscore on [this.models]; they are written out here as that
    library defines them. *)

(** [array.splice(start, ...)]: the position [start] stands for. *)
Definition splice_start (start : Z) (len : nat) : nat :=
  if (start <? 0)%Z then Z.to_nat (Z.max (Z.of_nat len + start) 0)
  else Z.to_nat (Z.min start (Z.of_nat len)).

(** [array.splice(start, 0, x)] *)
Definition splice_insert {A} (start : Z) (x : A) (l : list A) : list A :=
  let i := splice_start start (length l) in take i l ++ x :: drop i l.

(** [array.splice(start, 1)] *)
Definition splice_delete {A} (start : Z) (l : list A) : list A :=
  let i := splice_start start (length l) in take i l ++ drop (S i) l.

(** [_.indexOf(array, item)]: the first index, or [-1]. *)
Fixpoint indexOf_from (i : Z) (array : list nat) (item : nat) : Z :=
  match array with
  | [] => (-1)%Z
  | x :: rest =>
      if decide (x = item) then i else indexOf_from (i + 1)%Z rest item
  end.
Definition indexOf (array : list nat) (item : nat) : Z :=
  indexOf_from 0 array item.

(** [_.sortedIndex(array, obj, iterator)]:
    [while (low < high) { mid = (low + high) >> 1;
       iterator(array[mid]) < iterator(obj) ? low = mid + 1 : high = mid; }]
    The loop runs at most [length array] times, which is the fuel. *)
Fixpoint sortedIndex_loop (fuel : nat) (iterator : nat → Z)
    (array : list nat) (obj : nat) (low high : nat) : nat :=
  match fuel with
  | O => low
  | S fuel' =>
      if bool_decide (low < high) then
        let mid := (low + high) `div` 2 in
        match array !! mid with
        | Some x =>
            if (iterator x <? iterator obj)%Z
            then sortedIndex_loop fuel' iterator array obj (mid + 1) high
            else sortedIndex_loop fuel' iterator array obj low mid
        | None => (* not reached: mid < high <= length *)
            sortedIndex_loop fuel' iterator array obj low mid
        end
      else low
  end.

Definition sortedIndex (array : list nat) (obj : nat) (iterator : nat → Z)
  : nat :=
  sortedIndex_loop (length array) iterator array obj 0 (length array).

(** [_.sortBy(array, iterator)]: [Array.prototype.sort] on the
    criteria, taken to be stable: the array sorted by ascending
    criterion, members with the same criterion in the order they had. *)
Fixpoint sortBy_insert (iterator : nat → Z) (x : nat) (l : list nat)
  : list nat :=
  match l with
  | [] => [x]
  | y :: l' =>
      if (iterator x <=? iterator y)%Z then x :: l
      else y :: sortBy_insert iterator x l'
  end.

Definition sortBy (array : list nat) (iterator : nat → Z) : list nat :=
  foldr (sortBy_insert iterator) [] array.

(** ** Backbone.Collection *)

(** What [get], [_remove] and the like are handed: a model or an id. *)
Inductive ref :=
  | RModel (m : nat)
  | RVal (v : value).

(** [toString] of a model. *)
Definition Model_toString (m : nat) (w : Store) : string :=
  "Model " +:+ to_key (m_id (the_model w m)).

(** [o[k]] on [_byId] or [_byCid]: once a model is the prototype of
    the object, a key that is no own property is read through the
    model, which is not followed. *)
Definition index_at (o : gmap string nat) (k : string) : slot :=
  match o !! k with
  | Some x => Holds x
  | None => if bool_decide (is_Some (o !! "__proto__")) then Astray
            else lookup_in o k
  end.

(** [get]: [id && this._byId[id.id != null ? id.id : id]]; [Absent]
    is a falsy result. *)
Definition Collection_get (c : nat) (id : ref) (w : Store) : slot :=
  match id with
  | RVal v =>
      if truthy v then index_at (_byId (the_collection w c)) (to_key v)
      else Absent
  | RModel m =>
      let i := m_id (the_model w m) in
      index_at (_byId (the_collection w c))
               (if not_nullish i then to_key i else Model_toString m w)
  end.

(** [getByCid]: [cid && this._byCid[cid.cid || cid]] *)
Definition getByCid (c : nat) (cid_or_model : nat + string) (w : Store)
  : slot :=
  match cid_or_model with
  | inl m =>
      index_at (_byCid (the_collection w c))
               (if String.eqb (cid (the_model w m)) "" then Model_toString m w
                else cid (the_model w m))
  | inr s => if String.eqb s "" then Absent
             else index_at (_byCid (the_collection w c)) s
  end.

(** [at(index)] *)
Definition at_ (c : nat) (index : nat) (w : Store) : option nat :=
  models (the_collection w c) !! index.

(** [comparator(model)]: a comparator reads the attributes of the
    model. *)
Definition criterion (cmp : gmap string value → Z) (w : Store) (m : nat) : Z :=
  cmp (own (_attributes (the_model w m))).

(** [_initialize()] *)
Definition _initialize (C : Collection) : Collection :=
  set_byCid ∅ (set_byId ∅ (set_models [] (set_c_length 0 C))).

(** [_add(model, options)]: whatever [get] finds makes it throw, and
    what is inherited has no [id]. *)
Definition _add (c m : nat) (silent : bool) (w : Store)
  : outcome Store nat :=
  match Collection_get c (RModel m) w with
  | Holds already =>
      Throw (Error "Can't add the same model to a set twice"
                   (m_id (the_model w already))) w
  | Proto _ =>
      Throw (Error "Can't add the same model to a set twice" VUndefined) w
  | Astray => Throw Unfollowed w
  | Absent =>
      let w1 := with_collection c (λ C,
                  set_byId (<[to_key (m_id (the_model w m)) := m]> (_byId C)) C)
                  w in
      let w2 := with_collection c (λ C,
                  set_byCid (<[cid (the_model w m) := m]> (_byCid C)) C) w1 in
      let w3 := with_model m (set_collection (Some c)) w2 in
      let index :=
        match comparator (the_collection w3 c) with
        | Some cmp =>
            Z.of_nat (sortedIndex (models (the_collection w3 c)) m
                                  (criterion cmp w3))
        | None => c_length (the_collection w3 c)
        end in
      let w4 := with_collection c (λ C,
                  set_models (splice_insert index m (models C)) C) w3 in
      obind (m_bind m "all" (MBound c) w4) (λ _ w5,
        let w6 := with_collection c (λ C,
                    set_c_length (c_length C + 1) C) w5 in
        if silent then Ret m w6
        else obind (c_trigger c "add" [AModel m] w6) (λ _ w7, Ret m w7))
  end.

(** [_remove] returns the model, or [null] ([None] here). When [get]
    finds something inherited, [model.id] and [model.cid] are
    [undefined], [indexOf] is [-1], and [model.unbind] is no
    function. *)
Definition _remove (c : nat) (model : ref) (silent : bool) (w : Store)
  : outcome Store (option nat) :=
  match Collection_get c model w with
  | Absent => Ret None w
  | Astray => Throw Unfollowed w
  | Proto _ =>
      let w1 := with_collection c (λ C,
                  set_byId (index_delete "undefined" (_byId C)) C) w in
      let w2 := with_collection c (λ C,
                  set_byCid (index_delete "undefined" (_byCid C)) C) w1 in
      let w4 := with_collection c (λ C,
                  set_models (splice_delete (-1) (models C)) C) w2 in
      Throw TypeError w4
  | Holds m =>
      let w1 := with_collection c (λ C,
                  set_byId (index_delete (to_key (m_id (the_model w m)))
                                         (_byId C)) C) w in
      let w2 := with_collection c (λ C,
                  set_byCid (index_delete (cid (the_model w m)) (_byCid C)) C)
                  w1 in
      let w3 := with_model m (set_collection None) w2 in
      let w4 := with_collection c (λ C,
                  set_models (splice_delete (indexOf (models C) m) (models C))
                             C) w3 in
      obind (m_unbind m (Some "all") (Some (MBound c)) w4) (λ _ w5,
        let w6 := with_collection c (λ C,
                    set_c_length (c_length C - 1) C) w5 in
        if silent then Ret (Some m) w6
        else obind (c_trigger c "remove" [AModel m] w6)
                   (λ _ w7, Ret (Some m) w7))
  end.

(** [add] and [remove] of an array: one element after the other. *)
Fixpoint add (c : nat) (ms : list nat) (silent : bool) (w : Store)
  : outcome Store unit :=
  match ms with
  | [] => Ret tt w
  | m :: rest => obind (_add c m silent w) (λ _, add c rest silent)
  end.


(** [sort(options)] *)
Definition sort (c : nat) (silent : bool) (w : Store) : outcome Store unit :=
  match comparator (the_collection w c) with
  | None => Throw (Error "Cannot sort a set without a comparator" VUndefined) w
  | Some cmp =>
      let w1 := with_collection c (λ C,
                  set_models (sortBy (models C) (criterion cmp w)) C) w in
      if silent then Ret tt w1
      else c_trigger c "refresh" [ACollection c] w1
  end.

(** The first argument of [refresh]: nothing, an array of models, or an
    array of object literals, which are made into models of the
    collection's class. *)
Inductive model_list :=
  | NoModels
  | Models (ms : list nat)
  | Raw (hs : list hash).

Fixpoint new_Models (hook : option (patch → value)) (hs : list hash)
    (w : Store) : outcome Store (list nat) :=
  match hs with
  | [] => Ret [] w
  | h :: rest =>
      obind (new_Model hook (Hash h) w) (λ m w1,
      obind (new_Models hook rest w1) (λ ms w2, Ret (m :: ms) w2))
  end.

(** [refresh(models, options)] *)
Definition refresh (c : nat) (models : model_list) (silent : bool)
    (w : Store) : outcome Store unit :=
  obind (match models with
         | NoModels => Ret [] w
         | Models ms => Ret ms w
         | Raw hs => new_Models (model (the_collection w c)) hs w
         end) (λ ms w1,
  let w2 := with_collection c _initialize w1 in
  obind (add c ms true w2) (λ _ w3,
  if silent then Ret tt w3
  else c_trigger c "refresh" [ACollection c] w3)).

(** [new Backbone.Collection(models, {comparator: ...})] for a class
    whose models have the given [validate] hook. The constructor calls
    [this.refresh(models, true)], and [true.silent] is [undefined]. *)
Definition new_Collection (hook : option (patch → value))
    (cmp : option (gmap string value → Z)) (models : model_list)
    (w : Store) : outcome Store nat :=
  let c := fresh (dom (collection_heap w)) in
  let C := Build_Collection 0 [] ∅ ∅ cmp hook no_events in
  let w1 := Build_Store (model_heap w) (<[c := C]> (collection_heap w))
                        (idCounter w) (log w) in
  match models with
  | NoModels => Ret c w1
  | _ => obind (refresh c models false w1) (λ _ w2, Ret c w2)
  end.

(** ** Backbone.Model: [changedAttributes], [clone] and [url] *)

(** The loop of [changedAttributes]; [changed] starts as [false],
    which is [None]. *)
Fixpoint changed_each (old : dict) (now : hash) (changed : option dict)
  : option dict :=
  match now with
  | [] => changed
  | (attr, val) :: rest =>
      if same (dict_get old attr) val
      then changed_each old rest changed
      else changed_each old rest (Some (dict_put attr val (default ∅ changed)))
  end.

(** [changedAttributes(now)]: without argument, [now] is
    [this.attributes()]; the result is given by its own properties. *)
Definition changedAttributes (m : nat) (now : option hash) (w : Store)
  : option (gmap string value) :=
  own <$>
    changed_each (_previousAttributes (the_model w m))
      (match now with
       | Some now => now
       | None => dict_entries (dict_clone (_attributes (the_model w m)))
       end) None.

(** [clone()]: [new (this.constructor)(this.attributes())]; the class
    of the model is given by its hook. *)
Definition clone (m : nat) (w : Store) : outcome Store nat :=
  new_Model (validate (the_model w m))
            (Hash (dict_entries (dict_clone (_attributes (the_model w m))))) w.

(** [url()] of a model, with [getUrl(this.collection)]: [url_of c] is
    what the property [url] of collection [c] is, or returns when it
    is a function; reading it off a model that has no collection
    throws. *)
Definition Model_url (url_of : nat → value) (m : nat) (w : Store)
  : outcome Store value :=
  match collection (the_model w m) with
  | None => Throw TypeError w
  | Some c =>
      if isNew m w then Ret (url_of c) w
      else Ret (VStr (to_key (url_of c) +:+ "/"
                      +:+ to_key (m_id (the_model w m)))) w
  end.

(** ** Backbone.Collection: [toString] and [pluck] *)

Definition Collection_toString (c : nat) (w : Store) : string :=
  "Collection (" +:+ pretty (c_length (the_collection w c)) +:+ " models)".

Definition pluck (c : nat) (attr : string) (w : Store) : list found :=
  (λ m, get m attr w) <$> models (the_collection w c).

(** ** Saving and fetching through [Backbone.sync]

    [Backbone.sync] is the function an application overrides to reach
    its server; the methods that call it are given it as [sync]. A
    response [resp] is read through [resp.model] and [resp.models]. The
    callbacks [options.success] and [options.error] are functions of
    the application on the store; what they are called with is a
    model, a collection or a response. *)

Record response := Response {
  resp_model : hash_arg;
  resp_models : model_list
}.

Inductive js_arg :=
  | JModel (m : nat)
  | JCollection (c : nat)
  | JResponse (resp : response).

Abbreviation on_response := (js_arg → js_arg → Store → outcome Store unit).
Abbreviation continuation := (response → Store → outcome Store value).

(** [if (options.success) options.success(a, b);] and the [undefined]
    the function around it then returns. *)
Definition call_success (success : option on_response) (a b : js_arg)
    (w : Store) : outcome Store value :=
  match success with
  | Some f => obind (f a b w) (λ _ w1, Ret VUndefined w1)
  | None => Ret VUndefined w
  end.

(** The [success] of [save]. *)
Definition save_success (m : nat) (success : option on_response)
  : continuation :=
  λ resp w,
    obind (set m (resp_model resp) false w) (λ ok w1,
      if ok then call_success success (JModel m) (JResponse resp) w1
      else Ret (VBool false) w1).

(** The [success] of [destroy]. *)
Definition destroy_success (m : nat) (success : option on_response)
  : continuation :=
  λ resp w,
    obind (match collection (the_model w m) with
           | Some c => obind (_remove c (RModel m) false w) (λ _ w1, Ret tt w1)
           | None => Ret tt w
           end) (λ _ w1,
      call_success success (JModel m) (JResponse resp) w1).

(** The [success] of [fetch]. *)
Definition fetch_success (c : nat) (success : option on_response)
  : continuation :=
  λ resp w,
    obind (refresh c (resp_models resp) false w) (λ _ w1,
      call_success success (JCollection c) (JResponse resp) w1).

(** The [success] of [create], a [function(resp)]. [create] hands it
    to [save] as [options.success], and [save] calls it with
    [(model, resp)]: its [resp] is the model [m'], whose property
    [model] is [undefined], so that [model.set(resp.model)] returns
    the model at once. [model.collection.add] throws when the model
    has no collection. *)
Definition create_success (m : nat) (success : option on_response)
    (m' : nat) (w : Store) : outcome Store value :=
  obind (set m NoHash false w) (λ ok w1,
    if ok then
      match collection (the_model w1 m) with
      | Some c =>
          obind (_add c m false w1) (λ _ w2,
            call_success success (JModel m) (JModel m') w2)
      | None => Throw TypeError w1
      end
    else Ret (VBool false) w1).

(** [create]'s [success] as [save] calls it. *)
Definition create_callback (m : nat) (success : option on_response)
  : on_response :=
  λ a _ w,
    match a with
    | JModel m' => obind (create_success m success m' w) (λ _ w1, Ret tt w1)
    | _ => (* not reached: [save] calls it with the model *) Ret tt w
    end.

Section Sync.
Variable sync : string → objref → continuation → option on_response →
                Store → outcome Store unit.

(** [save(attrs, options)]; it returns [this] ([true] here) or
    [false]. *)
Definition save (m : nat) (attrs : hash_arg) (silent : bool)
    (success error : option on_response) (w : Store) : outcome Store bool :=
  obind (set m (match attrs with NoHash => Hash [] | a => a end) silent w)
    (λ ok w1,
      if ok then
        let method := if isNew m w1 then "create" else "update" in
        obind (sync method (OModel m) (save_success m success) error w1)
              (λ _ w2, Ret true w2)
      else Ret false w1).

(** [destroy(options)] *)
Definition destroy (m : nat) (success error : option on_response)
    (w : Store) : outcome Store unit :=
  sync "delete" (OModel m) (destroy_success m success) error w.

(** [fetch(options)] *)
Definition fetch (c : nat) (success error : option on_response) (w : Store)
  : outcome Store unit :=
  sync "read" (OCollection c) (fetch_success c success) error w.

(** [create(model, options)]: the model is given, or made from an
    object literal; it is saved with the options
    [{success: success, error: options.error}], where [success] is
    the function [create] defines. *)
Definition create (c : nat) (model_or_attrs : nat + hash)
    (success error : option on_response) (w : Store) : outcome Store bool :=
  obind (match model_or_attrs with
         | inl m => Ret m w
         | inr attrs => new_Model (model (the_collection w c)) (Hash attrs) w
         end) (λ m w1,
    let w2 := with_model m (set_collection (Some c)) w1 in
    save m NoHash false (Some (create_callback m success)) error w2).
End Sync.

(** ** Backbone.View: [_initialize]

    The properties of a view that [_initialize] reads and writes; a
    property that is not there is [undefined], and the values are
    primitives, models or collections. *)





(** ** Reading the log *)

#[global] Instance objref_eq_dec : EqDecision objref.
Proof. solve_decision. Defined.

(** The events [this] has published, in order. *)
Definition published_by (this : objref) (l : list entry)
  : list (string * list arg) :=
  omap (λ e, match e with
             | Published o ev args =>
                 if decide (o = this) then Some (ev, args) else None
             | Invoked _ _ _ _ _ => None
             end) l.

(** The state of model [m] that subscriber [n] has seen at each of its
    calls: is it changed, and the own properties of its attributes and
    of its previous attributes. *)
Definition seen_by (n m : nat) (l : list entry)
  : list (bool * gmap string value * gmap string value) :=
  omap (λ e, match e with
             | Invoked n' _ _ ms _ =>
                 if decide (n' = n) then
                   let M := default blank_Model (ms !! m) in
                   Some (_changed M, own (_attributes M),
                         own (_previousAttributes M))
                 else None
             | Published _ _ _ => None
             end) l.

(** * The vocabulary of the properties *)

(** What [bind] and [unbind] do to the event state when they return:
    [bind] for an event that is not named like a property of
    [Object.prototype], [unbind] in every case but [unbind("__proto__")]. *)
Definition bound {A} (ev : string) (callback : A) (h : hub A) : hub A :=
  let h1 :=
    match _callbacks h with
    | Some _ => h
    | None =>
        let o := fresh (dom (tables h)) in
        Hub (Some o) (<[o := ∅]> (tables h)) (arrays h)
    end in
  match _callbacks h1 with
  | None => h1
  | Some o =>
      match table_at h1 o !! ev with
      | Some a =>
          Hub (Some o) (tables h1)
              (<[a := array_at h1 a ++ [callback]]> (arrays h1))
      | None =>
          let a := fresh (dom (arrays h1)) in
          Hub (Some o) (<[o := <[ev := a]> (table_at h1 o)]> (tables h1))
              (<[a := [callback]]> (arrays h1))
      end
  end.

Definition unbound {A} `{EqDecision A} (ev : option string)
    (callback : option A) (h : hub A) : hub A :=
  match ev, _callbacks h with
  | (None | Some ""), _ =>
      let o := fresh (dom (tables h)) in
      Hub (Some o) (<[o := ∅]> (tables h)) (arrays h)
  | Some _, None => h
  | Some e, Some o =>
      match callback with
      | None =>
          let a := fresh (dom (arrays h)) in
          Hub (Some o) (<[o := <[e := a]> (table_at h o)]> (tables h))
              (<[a := []]> (arrays h))
      | Some f =>
          match table_at h o !! e with
          | None => h
          | Some a =>
              Hub (Some o) (tables h)
                  (<[a := remove_first f (array_at h a)]> (arrays h))
          end
      end
  end.

(** A call of [bind] or [unbind] that returns on every object. *)
Definition returning (a : Scripted.action) : Prop :=
  match a with
  | Scripted.DoBind ev _ => inherited ev = None
  | Scripted.DoUnbind (Some ev) None => ev ≠ "__proto__"
  | Scripted.DoUnbind _ _ => True
  end.

(** What such a call does to the event state. *)
Definition after_action (h : hub nat) (a : Scripted.action) : hub nat :=
  match a with
  | Scripted.DoBind ev f => bound ev f h
  | Scripted.DoUnbind ev f => unbound ev f h
  end.

(** Calling the callbacks [fs] one after the other. *)
Definition deliver {A St : Type} (invoke : A → list arg → St → outcome St unit)
    (args : list arg) (fs : list A) (s : St) : St :=
  foldl (λ s f, final (invoke f args s)) s fs.

(** At these arguments every callback returns and the event state
    is as before. *)
Definition steady {A St : Type} (get_hub : St → hub A)
    (invoke : A → list arg → St → outcome St unit) (args : list arg) : Prop :=
  ∀ f s, ∃ s', invoke f args s = Ret tt s' ∧ get_hub s' = get_hub s.

(** An entry that a callback of a model can add to the log: a call
    that saw the models [ms], or an event of a collection. *)
Definition bystander (ms : gmap nat Model) (e : entry) : Prop :=
  match e with
  | Published (OModel _) _ _ => False
  | Published (OCollection _) _ _ => True
  | Invoked _ _ _ ms' _ => ms' = ms
  end.

(** [echo w w']: [w'] comes from [w] by calls of subscribers and of
    [_onModelEvent]. The models are as they were, the collections are
    as they were but for [_byId], and the log has grown by calls that
    saw the models of [w] and by events published by collections. *)
Record echo (w w' : Store) : Prop := Echo {
  echo_models : model_heap w' = model_heap w;
  echo_counter : idCounter w' = idCounter w;
  echo_collections : ∀ c,
    the_collection w' c
    = set_byId (_byId (the_collection w' c)) (the_collection w c);
  echo_log : ∃ d, log w' = log w ++ d ∧ Forall (bystander (model_heap w)) d
}.

(** The calls a [trigger] on collection [c] makes to the subscribers
    [fs]. *)
Definition c_calls (c : nat) (args : list arg) (w : Store)
    (fs : list ccallback) : list entry :=
  (λ f, match f with
        | CUser n =>
            Invoked n (OCollection c) args (model_heap w) (collection_heap w)
        end) <$> fs.

(** The store with [d] added to the log. *)
Definition more_log (d : list entry) (w : Store) : Store :=
  Build_Store (model_heap w) (collection_heap w) (idCounter w) (log w ++ d).

(** What [_onModelEvent] does to [_byId] on a [change]. *)
Definition rekey (c m : nat) (w : Store) : Store :=
  if hasChanged m (Some "id") w then
    with_collection c (λ C,
      set_byId (<[to_key (m_id (the_model w m)) := m]>
                  (index_delete (key_of (previous m "id" w)) (_byId C))) C) w
  else w.

(** The arguments the library calls callbacks with: when the first is
    ["change"], the second is a model. *)
Definition by_library (args : list arg) : Prop :=
  nth_arg 0 args = AStr "change" → ∃ m, nth_arg 1 args = AModel m.

(** Arguments that are not those of a [change] heard on ["all"]. *)
Definition calm (args : list arg) : Prop := nth_arg 0 args ≠ AStr "change".

(** Every subscriber called in [e] saw model [m] in a state with [P]. *)
Definition sees (m : nat) (P : Model → Prop) (e : entry) : Prop :=
  match e with
  | Invoked _ _ _ ms _ => P (default blank_Model (ms !! m))
  | Published _ _ _ => True
  end.

(** [wrote m evs P w w']: [w'] comes from [w] by a write to model [m]
    in which [m] published the events [evs], no other model published
    or changed, the collections changed in [_byId] at most, and the
    subscribers called saw [m] with [P]. *)
Record wrote (m : nat) (evs : list (string * list arg)) (P : Model → Prop)
    (w w' : Store) : Prop := Wrote {
  wrote_counter : idCounter w' = idCounter w;
  wrote_others : ∀ m', m' ≠ m → model_heap w' !! m' = model_heap w !! m';
  wrote_collections : ∀ c,
    the_collection w' c
    = set_byId (_byId (the_collection w' c)) (the_collection w c);
  wrote_log : ∃ d,
    log w' = log w ++ d ∧
    published_by (OModel m) d = evs ∧
    (∀ m', m' ≠ m → published_by (OModel m') d = []) ∧
    Forall (sees m P) d
}.

(** What [change] does to the model once the event is out. *)
Definition committed (M : Model) : Model :=
  set_changed false (set_previousAttributes (dict_clone (_attributes M)) M).

(** The attributes of a hash that differ from [now], as [set] meets
    them, and the attributes after the [set]. *)
Fixpoint changes (attrs : hash) (now : dict) : list (string * value) :=
  match attrs with
  | [] => []
  | (attr, val) :: rest =>
      if same (dict_get now attr) (normalize val)
      then changes rest now
      else (attr, normalize val)
             :: changes rest (dict_put attr (normalize val) now)
  end.

Fixpoint merged (attrs : hash) (now : dict) : dict :=
  match attrs with
  | [] => now
  | (attr, val) :: rest =>
      if same (dict_get now attr) (normalize val)
      then merged rest now
      else merged rest (dict_put attr (normalize val) now)
  end.

(** Does the hash change anything. *)
Definition differs (attrs : hash) (now : dict) : bool :=
  match changes attrs now with [] => false | _ => true end.

(** The events [change:<attr>] of the changes [l]. *)
Definition change_events (m : nat) (l : list (string * value))
  : list (string * list arg) :=
  (λ av, ("change:" +:+ av.1, [AModel m; AVal av.2])) <$> l.

(** [this.id = attrs.id] when the hash has an [id]. *)
Definition with_id (attrs : hash) (M : Model) : Model :=
  match hash_lookup "id" attrs with
  | Some v => set_m_id v M
  | None => M
  end.

(** Is the model changed once the loop of [set] is over. *)
Definition changed_after (silent : bool) (attrs : hash) (M : Model) : bool :=
  if silent then _changed M else _changed M || differs attrs (_attributes M).

(** The model after a [set] that passes the validation. *)
Definition after_set (silent : bool) (attrs : hash) (M : Model) : Model :=
  let M1 := set_changed (changed_after silent attrs M)
              (set_attributes (merged attrs (_attributes M))
                 (with_id attrs M)) in
  if negb silent && changed_after silent attrs M then committed M1 else M1.

(** The events of a [set] that passes the validation. *)
Definition set_events (m : nat) (silent : bool) (attrs : hash) (M : Model)
  : list (string * list arg) :=
  if silent then []
  else change_events m (changes attrs (_attributes M))
       ++ (if changed_after silent attrs M then [("change", [AModel m])]
           else []).

(** The model after a non-silent [unset]. *)
Definition after_unset (attr : string) (M : Model) : Model :=
  committed (set_changed true
               (set_attributes (dict_delete attr (_attributes M)) M)).

(** The operations of claim C1 on one model, and their run. *)
Inductive operation :=
  | Write (attrs : hash_arg) (silent : bool)
  | Remove (attr : string) (silent : bool)
  | Commit.

Definition perform (m : nat) (w : Store) (o : operation) : Store :=
  match o with
  | Write attrs silent => final (set m attrs silent w)
  | Remove attr silent => final (unset m attr silent w)
  | Commit => final (change m w)
  end.

(** Every member with an id is in [_byId] under that id. *)
Definition indexed (c : nat) (w : Store) : Prop :=
  ∀ m, m ∈ models (the_collection w c) →
       not_nullish (m_id (the_model w m)) = true →
       _byId (the_collection w c) !! to_key (m_id (the_model w m)) = Some m.

(** The collection once [_remove] has gone through. *)
Definition without_member (c m : nat) (w : Store) : Collection :=
  let C := the_collection w c in
  set_c_length (c_length C - 1)
    (set_models (splice_delete (indexOf (models C) m) (models C))
       (set_byCid (index_delete (cid (the_model w m)) (_byCid C))
          (set_byId (index_delete (to_key (m_id (the_model w m))) (_byId C))
                    C))).

(** The model once [_remove] has gone through. *)
Definition as_outsider (c : nat) (M : Model) : Model :=
  set_m_events (unbound (Some "all") (Some (MBound c)) (m_events M))
    (set_collection None M).

(** [ascending crit l]: the criteria of [l] never decrease. *)
Definition ascending (crit : nat → Z) (l : list nat) : Prop :=
  StronglySorted (λ x y, (crit x <= crit y)%Z) l.

(** Where [_add] puts the model. *)
Definition index_for (c m : nat) (w : Store) : Z :=
  match comparator (the_collection w c) with
  | Some cmp =>
      Z.of_nat (sortedIndex (models (the_collection w c)) m (criterion cmp w))
  | None => c_length (the_collection w c)
  end.

(** The collection once [_add] has gone through. *)
Definition with_member (c m : nat) (w : Store) : Collection :=
  let C := the_collection w c in
  set_c_length (c_length C + 1)
    (set_models (splice_insert (index_for c m w) m (models C))
       (set_byCid (<[cid (the_model w m) := m]> (_byCid C))
          (set_byId (<[to_key (m_id (the_model w m)) := m]> (_byId C)) C))).

(** The model once [_add] has gone through. *)
Definition as_member (c : nat) (M : Model) : Model :=
  set_m_events (bound "all" (MBound c) (m_events M))
    (set_collection (Some c) M).

(** The operations of claim C4 on one collection, and their run; an
    operation that throws leaves the store as it is at the throw. *)
Inductive c_operation :=
  | InsertOne (m : nat) (silent : bool)
  | RemoveOne (r : ref) (silent : bool)
  | Sort (silent : bool).

Definition c_perform (c : nat) (w : Store) (o : c_operation) : Store :=
  match o with
  | InsertOne m silent => final (_add c m silent w)
  | RemoveOne r silent => final (_remove c r silent w)
  | Sort silent => final (sort c silent w)
  end.

(** The models of collection [c] are sorted under [cmp]. *)
Definition in_order (c : nat) (cmp : gmap string value → Z) (w : Store)
  : Prop :=
  ascending (criterion cmp w) (models (the_collection w c)).

(** The calls a [trigger] on model [m] makes to the subscribers among
    [fs], when the callbacks of collections do nothing. *)
Definition m_calls (m : nat) (args : list arg) (w : Store)
    (fs : list mcallback) : list entry :=
  omap (λ f, match f with
             | MUser n =>
                 Some (Invoked n (OModel m) args (model_heap w)
                               (collection_heap w))
             | MBound _ => None
             end) fs.

(** Arguments that [_onModelEvent] does nothing with. *)
Definition quiet (args : list arg) : Prop :=
  nth_arg 0 args ≠ AStr "change" ∧ nth_arg 0 args ≠ AStr "error".

(** The model as [_onModelEvent] reads it on a [change]. *)
Definition id_changed (M : Model) : bool :=
  negb (loosely_equal (dict_get (_previousAttributes M) "id")
                      (dict_get (_attributes M) "id")).

(** The key of the id the model had at the last [change]. *)
Definition old_key (M : Model) : string :=
  key_of (dict_get (_previousAttributes M) "id").

(** [_byId] has the model [e] under its id, and nothing under the id
    it had at the last [change]. *)
Definition rekeyed (M : Model) (e : nat) (C : Collection) : Prop :=
  _byId C !! to_key (m_id M) = Some e ∧
  (old_key M ≠ to_key (m_id M) → old_key M ≠ "__proto__" →
   _byId C !! old_key M = None).

(** The subscribers of collection [c] called in [en] saw it with [P]. *)
Definition c_sees (c : nat) (P : Collection → Prop) (en : entry) : Prop :=
  match en with
  | Invoked _ (OCollection c') _ _ cs =>
      c' = c → P (default blank_Collection (cs !! c))
  | _ => True
  end.

(** Entries that come from a model, not from a collection. *)
Definition of_model (en : entry) : Prop :=
  match en with
  | Published (OModel _) _ _ | Invoked _ (OModel _) _ _ _ => True
  | _ => False
  end.

(** The array [a] still begins with [L]. *)
Definition keeps {A St : Type} (get_hub : St → hub A) (L : list A) (a : nat)
    (s : St) : Prop :=
  L `prefix_of` array_at (get_hub s) a.

(** An action that takes nothing out of an array. *)
Definition adds_only (a : Scripted.action) : Prop :=
  match a with
  | Scripted.DoUnbind (Some (String _ _)) (Some _) => False
  | _ => True
  end.

(** ** The vocabulary of the properties of the code *)




(** An object that has [Object.prototype] for its prototype and no
    own property [__proto__]. *)
Definition ordinary (o : dict) : Prop :=
  bare o = false ∧ own o !! "__proto__" = None.

(** A hash that [set] goes through as it is: it has no truthy
    [_attributes], and its keys are distinct and none of them is
    [__proto__]. *)
Definition plain (attrs : hash) : Prop :=
  divert attrs = Properties attrs ∧ NoDup attrs.*1 ∧ "__proto__" ∉ attrs.*1.

#[global] Instance plain_dec attrs : Decision (plain attrs).
Proof. unfold plain. apply _. Defined.

(** The object [_.clone(o)] as a hash. *)
Definition copy_of (o : dict) : hash := dict_entries (dict_clone o).

(** What is read with an empty string taken as [null]. *)
Definition normalized (x : found) : found :=
  match x with
  | Val v => Val (normalize v)
  | Native n => Native n
  end.

(** The attributes of a hash whose value, an empty string taken as
    [null], is not the one in [now]. *)
Definition new_values (attrs : hash) (now : dict) : list (string * value) :=
  filter (λ kv, dict_get now kv.1 ≠ Val kv.2)
         ((λ kv, (kv.1, normalize kv.2)) <$> attrs).

(** No attribute is the empty string. *)
Definition no_empty_string (a : gmap string value) : Prop :=
  ∀ k, a !! k ≠ Some (VStr "").

(** The hook of a class, if it has one, finds no error in [attrs]. *)
Definition accepts (hook : option (patch → value)) (attrs : patch) : bool :=
  match hook with
  | Some h => negb (truthy (h attrs))
  | None => true
  end.

(** What [set] is left with for the argument of the constructor. *)
Definition given (attrs : hash_arg) (w : Store) : patch :=
  match attrs with
  | NoHash => Properties []
  | Hash kvs => divert kvs
  | OfModel m' => Properties (dict_entries (_attributes (the_model w m')))
  end.

(** The model [new Backbone.Model(attrs)] makes when it returns, for a
    class with the given hook, when the counter of [_.uniqueId] is at
    [n]. *)
Definition newborn (hook : option (patch → value)) (n : nat) (attrs : patch)
  : Model :=
  let M0 := Build_Model ("c" +:+ pretty n) VUndefined ∅ ∅ false None hook
                        no_events in
  let M1 := match attrs with
            | Properties kvs =>
                if accepts hook attrs then after_set true kvs M0 else M0
            | Primitive _ => M0
            end in
  set_previousAttributes (dict_clone (_attributes M1)) M1.

(** The value of an attribute is not the one in [old]. *)
Definition differs_from (old : dict) (kv : string * value) : Prop :=
  dict_get old kv.1 ≠ Val kv.2.

#[global] Instance differs_from_dec old kv : Decision (differs_from old kv).
Proof. unfold differs_from. apply _. Defined.






(** How many times [_onModelEvent] of collection [c] is among the
    callbacks [fs]. *)
Definition bound_times (c : nat) (fs : list mcallback) : nat :=
  length (filter (λ f, f = MBound c) fs).

(** What [_onModelEvent] publishes when it hears [ev] with the
    arguments [args]. *)
Definition forwarded (ev : string) (args : list arg)
  : list (string * list arg) :=
  if decide (ev = "change") then [("change", [nth_arg 0 args])]
  else if decide (ev = "error") then [("error", [nth_arg 0 args; nth_arg 1 args])]
  else [].

(** The entries the log has got from [w] to [w']. *)
Definition since (w w' : Store) : list entry :=
  drop (length (log w)) (log w').

(** The subscribers called in a log, with the arguments of each call,
    in order. *)
Definition called (l : list entry) : list (nat * list arg) :=
  omap (λ en, match en with
              | Invoked n _ args _ _ => Some (n, args)
              | Published _ _ _ => None
              end) l.

(** The calls of the subscribers [fs] with [args]. *)
Definition calls_with (args : list arg) (fs : list ccallback)
  : list (nat * list arg) :=
  (λ f, match f with CUser n => (n, args) end) <$> fs.

(** The [id] an object literal gives to the model made of it. *)
Definition id_of (h : hash) : value :=
  default VUndefined (hash_lookup "id" h).

(** What [get] reads on a model made of an object literal: the value
    the literal gives, an empty string as [null], and for a name the
    literal does not have what [{}[attr]] is. *)
Definition literal_reads (h : hash) (attr : string) : found :=
  match hash_lookup attr h with
  | Some v => Val (normalize v)
  | None => dict_get ∅ attr
  end.

(** An action that binds to an event that is not named like a
    property of [Object.prototype]. *)
Definition binds (a : Scripted.action) : Prop :=
  match a with
  | Scripted.DoBind ev _ => inherited ev = None
  | Scripted.DoUnbind _ _ => False
  end.

(** Subscriber [0] binds [5] to ["e"] and [6] to ["all"] when it is
    called. *)
Definition binds_when_called (f : nat) : list Scripted.action :=
  match f with
  | 0 => [Scripted.DoBind "e" 5; Scripted.DoBind "all" 6]
  | _ => []
  end.

(** * The stores and scripts of the examples *)

(** A model [{a: 1}], alone in the store; its reference is [0]. *)
Definition one_model : Store :=
  final (new_Model None (Hash [("a", VInt 1)]) empty_store).

(** A model [{age: 1}] whose hook finds the error [""] in every hash. *)
Definition lenient_model : Store :=
  final (new_Model (Some (λ _, VStr "")) (Hash [("age", VInt 1)]) empty_store).

(** A hook that finds an error in a negative [age], and a model
    [{age: 1}] with that hook. *)
Definition age_hook (attrs : patch) : value :=
  match attrs with
  | Properties attrs =>
      match hash_lookup "age" attrs with
      | Some (VNum n) =>
          if (n <? 0)%Z then VStr "age is negative" else VUndefined
      | _ => VUndefined
      end
  | Primitive _ => VUndefined
  end.

Definition aged_model : Store :=
  final (new_Model (Some age_hook) (Hash [("age", VInt 1)]) empty_store).

(** The model [{a: 1}] with subscriber [9] bound to [change]. *)
Definition watched_model : Store :=
  final (m_bind 0 "change" (MUser 9) one_model).

(** Subscriber [0] unbinds itself from ["e"] when it is called. *)
Definition leaves_when_called (f : nat) : list Scripted.action :=
  match f with
  | 0 => [Scripted.DoUnbind (Some "e") (Some 0)]
  | _ => []
  end.

(** Subscriber [0] unbinds subscriber [1] from ["e"] when it is called. *)
Definition removes_the_next (f : nat) : list Scripted.action :=
  match f with
  | 0 => [Scripted.DoUnbind (Some "e") (Some 1)]
  | _ => []
  end.

(** Subscribers [0], [1] (and [2]) bound to ["e"], in this order. *)
Definition two_subscribers : hub nat :=
  final (bind "e" 1 (final (bind "e" 0 no_events))).
Definition three_subscribers : hub nat := final (bind "e" 2 two_subscribers).

(** A collection without comparator and a model without id, and the
    store after the model has been added; both have reference [0]. *)
Definition lone_collection : Store :=
  final (new_Collection None None NoModels empty_store).
Definition model_without_id : Store :=
  final (new_Model None (Hash []) lone_collection).
Definition one_member : Store := final (_add 0 0 false model_without_id).

(** The comparator that reads the attribute [rank]. *)
Definition by_rank (a : gmap string value) : Z :=
  match a !! "rank" with
  | Some (VNum n) => n
  | _ => 0%Z
  end.

(** Models [0], [1], [2] of ranks 3, 1, 1, and an empty collection [0]
    with the comparator [by_rank]. *)
Definition ranked_models : Store :=
  final (new_Collection None (Some by_rank) NoModels
    (final (new_Model None (Hash [("id", VInt 12); ("rank", VInt 1)])
      (final (new_Model None (Hash [("id", VInt 11); ("rank", VInt 1)])
        (final (new_Model None (Hash [("id", VInt 10); ("rank", VInt 3)])
                  empty_store))))))).

(** Models [0] and [1], both with the id ["42"], and an empty
    collection [0]. *)
Definition two_of_a_kind : Store :=
  final (new_Collection None None NoModels
    (final (new_Model None (Hash [("id", VStr "42")])
      (final (new_Model None (Hash [("id", VStr "42")]) empty_store))))).

(** The empty collection with subscriber [2] bound to ["add"] and
    subscriber [3] bound to ["all"]. *)
Definition watched_collection : Store :=
  final (c_bind 0 "all" (CUser 3)
           (final (c_bind 0 "add" (CUser 2) lone_collection))).

(** A collection whose only member has the id [v]; both have
    reference [0]. *)
Definition member_with_id (v : value) : Store :=
  final (_add 0 0 false
           (final (new_Model None (Hash [("id", v)]) lone_collection))).

(** The member with id [7] of collection [0], after the collection has
    been refreshed with a new model [{id: "x"}]. *)
Definition former_member : Store :=
  final (refresh 0 (Raw [[("id", VStr "x")]]) false (member_with_id (VInt 7))).

(** * Events *)

(** ** [bind] and [unbind] when they return *)

Lemma bind_ordinary {A} ev (f : A) h :
  inherited ev = None → bind ev f h = Ret tt (bound ev f h).
Proof.
  intros Hev. unfold bind, bound, lookup_in.
  destruct (_callbacks h) as [o|] eqn:Ho; simpl.
  - rewrite Ho. destruct (table_at h o !! ev); [done|]. by rewrite Hev.
  - destruct (table_at _ _ !! ev); [done|]. by rewrite Hev.
Qed.

Lemma unbind_callback {A} `{EqDecision A} ev (f : A) h :
  unbind ev (Some f) h = Ret tt (unbound ev (Some f) h).
Proof.
  unfold unbind, unbound. destruct ev as [[|a ev]|]; try done.
  destruct (_callbacks h) as [o|]; [|done].
  by destruct (table_at h o !! String a ev).
Qed.

Lemma unbind_event {A} `{EqDecision A} ev (h : hub A) :
  ev ≠ Some "__proto__" → unbind ev None h = Ret tt (unbound ev None h).
Proof.
  intros Hev. unfold unbind, unbound. destruct ev as [[|a ev]|]; try done.
  destruct (_callbacks h) as [o|]; [|done].
  rewrite (bool_decide_eq_false_2 (String a ev = "__proto__")); [done|].
  intros Heq. apply Hev. by rewrite Heq.
Qed.

Lemma run_action_returning a h :
  returning a → Scripted.run_action a h = Ret tt (after_action h a).
Proof.
  destruct a as [ev f|ev [f|]]; simpl; intros Ha.
  - by apply bind_ordinary.
  - apply unbind_callback.
  - apply unbind_event. destruct ev as [ev|]; [|done]. congruence.
Qed.

Lemma run_returning acts h :
  Forall returning acts →
  Scripted.run acts h = Ret tt (foldl after_action h acts).
Proof.
  intros Hacts. revert h.
  induction Hacts as [|a acts Ha _ IH]; intros h; simpl; [done|].
  rewrite run_action_returning by done. simpl. apply IH.
Qed.

Lemma invoke_returning script f args s :
  Forall returning (script f) →
  Scripted.invoke script f args s
  = Ret tt (Scripted.State (foldl after_action (Scripted.events s) (script f))
                           (Scripted.calls_log s ++ [(f, args)])).
Proof. intros Hf. unfold Scripted.invoke. by rewrite run_returning. Qed.

Lemma inherited_all : inherited "all" = None.
Proof. done. Qed.

(** ** [trigger] when the callbacks leave the subscriptions alone *)

Section TriggerFacts.
Context {A St : Type}.
Variable get_hub : St → hub A.
Variable invoke : A → list arg → St → outcome St unit.

Lemma deliver_hub args fs s :
  steady get_hub invoke args → get_hub (deliver invoke args fs s) = get_hub s.
Proof.
  intros Hst. revert s. induction fs as [|f fs IH]; intros s; [done|].
  simpl. rewrite IH. destruct (Hst f s) as (s' & -> & Hs'). done.
Qed.

Lemma fire_steady a args n i s :
  steady get_hub invoke args →
  i + n ≤ length (array_at (get_hub s) a) →
  fire get_hub invoke a args n i s
  = Ret tt (deliver invoke args (take n (drop i (array_at (get_hub s) a))) s).
Proof.
  intros Hst. revert i s. induction n as [|n IH]; intros i s Hlen.
  - by rewrite take_0.
  - simpl. destruct (array_at (get_hub s) a !! i) as [f|] eqn:Hf.
    + destruct (Hst f s) as (s' & Hinv & Hs'). rewrite Hinv. simpl.
      rewrite IH by (rewrite Hs'; lia).
      rewrite Hs'. rewrite (drop_S _ _ _ Hf). simpl. by rewrite Hinv.
    + apply lookup_ge_None in Hf. lia.
Qed.

Lemma fire_list_steady calls key args s :
  steady get_hub invoke args → inherited key = None →
  fire_list get_hub invoke calls key args s
  = Ret tt (deliver invoke args
              (match table_at (get_hub s) calls !! key with
               | Some a => array_at (get_hub s) a
               | None => []
               end) s).
Proof.
  intros Hst Hkey. unfold fire_list, lookup_in.
  destruct (table_at (get_hub s) calls !! key) as [a|]; [|by rewrite Hkey].
  rewrite fire_steady by (done || lia). by rewrite drop_0, firstn_all.
Qed.

Lemma trigger_steady ev args s :
  inherited ev = None →
  steady get_hub invoke args → steady get_hub invoke (AStr ev :: args) →
  trigger get_hub invoke ev args s
  = Ret tt (deliver invoke (AStr ev :: args) (listeners (get_hub s) "all")
              (deliver invoke args (listeners (get_hub s) ev) s)).
Proof.
  intros Hev H1 H2. unfold trigger, listeners.
  destruct (_callbacks (get_hub s)) as [calls|]; [|done].
  rewrite fire_list_steady by done. simpl.
  rewrite fire_list_steady by done.
  by rewrite deliver_hub.
Qed.
End TriggerFacts.

(** ** [trigger] when the callbacks only add to the arrays *)

Section Growing.
Context {A St : Type}.
Variable get_hub : St → hub A.
Variable invoke : A → list arg → St → outcome St unit.

Lemma fire_growing a args L n i s :
  (∀ f s, keeps get_hub L a s → ∃ s', invoke f args s = Ret tt s' ∧ keeps get_hub L a s') →
  keeps get_hub L a s → i + n ≤ length L →
  ∃ s', fire get_hub invoke a args n i s = Ret tt s' ∧
        s' = deliver invoke args (take n (drop i L)) s ∧
        keeps get_hub L a s'.
Proof.
  intros Hgrow. revert i s. induction n as [|n IH]; intros i s Hk Hlen.
  { exists s. by rewrite take_0. }
  simpl.
  destruct (L !! i) as [f|] eqn:Hf.
  2:{ apply lookup_ge_None in Hf. lia. }
  rewrite (prefix_lookup_Some _ _ _ _ Hf Hk).
  destruct (Hgrow f s Hk) as (s1 & Hinv & Hk1). rewrite Hinv. simpl.
  destruct (IH (S i) s1 Hk1 ltac:(lia)) as (s' & Hrun & Hs' & Hk').
  exists s'. split; [done|]. split; [|done].
  rewrite (drop_S _ _ _ Hf). simpl. by rewrite Hinv.
Qed.
End Growing.

Lemma array_at_fresh {A} (h : hub A) : array_at h (fresh (dom (arrays h))) = [].
Proof.
  unfold array_at.
  destruct (arrays h !! fresh (dom (arrays h))) as [l|] eqn:Hl; [|done].
  apply (elem_of_dom_2 (arrays h)) in Hl. by apply is_fresh in Hl.
Qed.

Lemma array_at_insert {A} (h : hub A) o t a l b :
  array_at (Hub o t (<[a := l]> (arrays h))) b
  = if decide (a = b) then l else array_at h b.
Proof.
  unfold array_at; simpl. case_decide.
  - subst. by rewrite lookup_insert_eq.
  - by rewrite lookup_insert_ne.
Qed.

Lemma run_action_grows (L : list nat) a h act :
  adds_only act →
  L `prefix_of` array_at h a →
  L `prefix_of` array_at (after_action h act) a.
Proof.
  intros Hact HL.
  assert (Hfresh : ∀ o t l,
            L `prefix_of`
              array_at (Hub o t (<[fresh (dom (arrays h)) := l]> (arrays h))) a).
  { intros o t l. rewrite array_at_insert. case_decide; [|done].
    subst a. rewrite array_at_fresh in HL.
    apply prefix_nil_inv in HL as ->. apply prefix_nil. }
  destruct act as [ev f|ev f]; simpl.
  - unfold bound. destruct (_callbacks h) as [o|] eqn:Ho; simpl.
    + rewrite Ho. destruct (table_at h o !! ev) as [a0|]; [|apply Hfresh].
      rewrite array_at_insert. case_decide; [|done].
      subst. by apply prefix_app_r.
    + unfold table_at; simpl. rewrite lookup_insert_eq; simpl.
      rewrite lookup_empty. apply Hfresh.
  - unfold unbound. destruct ev as [[|c ev]|]; try done.
    destruct f as [f|]; [done|].
    destruct (_callbacks h) as [o|]; [|done]. apply Hfresh.
Qed.

Lemma run_script_grows (L : list nat) a acts h :
  Forall adds_only acts →
  L `prefix_of` array_at h a →
  L `prefix_of` array_at (foldl after_action h acts) a.
Proof.
  intros Hacts. revert h.
  induction Hacts as [|act acts Hact _ IH]; intros h HL; simpl; [done|].
  apply IH. by apply run_action_grows.
Qed.

Lemma scripted_deliver_log script args fs s :
  Scripted.calls_log (deliver (Scripted.invoke script) args fs s)
  = Scripted.calls_log s ++ ((λ f, (f, args)) <$> fs).
Proof.
  revert s. induction fs as [|f fs IH]; intros s; simpl.
  - by rewrite app_nil_r.
  - rewrite IH. unfold Scripted.invoke.
    destruct (Scripted.run _ _); simpl; by rewrite <- app_assoc.
Qed.

(** With callbacks that bind, or unbind whole events, [trigger] calls
    every callback bound to the event at the start, once and in order,
    and then callbacks of ["all"]. *)
Lemma trigger_when_nothing_is_taken_out script ev args s :
  (∀ f, Forall adds_only (script f)) →
  (∀ f, Forall returning (script f)) →
  inherited ev = None →
  ∃ s' later,
    Scripted.trigger script ev args s = Ret tt s' ∧
    Scripted.calls_log s'
    = Scripted.calls_log s
      ++ ((λ f, (f, args)) <$> listeners (Scripted.events s) ev)
      ++ ((λ f, (f, AStr ev :: args)) <$> later).
Proof.
  intros Hsafe Hret Hev.
  assert (Hgrow : ∀ L a args0 f s0,
            keeps Scripted.events L a s0 →
            ∃ s1, Scripted.invoke script f args0 s0 = Ret tt s1 ∧
                  keeps Scripted.events L a s1).
  { intros L a args0 f s0 Hk. rewrite invoke_returning by done.
    eexists. split; [done|].
    unfold keeps; simpl. by apply run_script_grows. }
  assert (Hpass : ∀ calls key args0 s0,
            inherited key = None →
            ∃ s1, fire_list Scripted.events (Scripted.invoke script) calls key
                    args0 s0 = Ret tt s1 ∧
                  Scripted.calls_log s1
                  = Scripted.calls_log s0
                    ++ ((λ f, (f, args0)) <$>
                          match table_at (Scripted.events s0) calls !! key with
                          | Some a => array_at (Scripted.events s0) a
                          | None => []
                          end)).
  { intros calls key args0 s0 Hkey. unfold fire_list, lookup_in.
    destruct (table_at (Scripted.events s0) calls !! key) as [a|].
    2:{ rewrite Hkey. exists s0. by rewrite app_nil_r. }
    destruct (fire_growing Scripted.events (Scripted.invoke script) a args0
                (array_at (Scripted.events s0) a)
                (length (array_at (Scripted.events s0) a)) 0 s0)
      as (s1 & Hrun & Hs1 & _);
      [by auto|unfold keeps; reflexivity|simpl; lia|].
    exists s1. split; [done|].
    rewrite Hs1, scripted_deliver_log. by rewrite drop_0, firstn_all. }
  unfold Scripted.trigger, trigger, listeners.
  destruct (_callbacks (Scripted.events s)) as [calls|].
  2:{ exists s, []. by rewrite !app_nil_r. }
  destruct (Hpass calls ev args s Hev) as (s1 & -> & Hl1). cbn [obind].
  destruct (Hpass calls "all" (AStr ev :: args) s1 inherited_all)
    as (s2 & -> & Hl2).
  eexists s2, _. split; [done|]. rewrite Hl2, Hl1. by rewrite <- app_assoc.
Qed.

(** ** C6 *)

(** C6 fails on the code: with subscribers [0] and [1] bound to ["e"],
    where [0] unbinds itself when called, [trigger("e")] calls [0],
    never calls [1], and throws a [TypeError] at index 1 of the array,
    which [splice] has shortened under the loop. *)
Theorem C6_unbind_during_trigger_skips_and_throws :
  listeners two_subscribers "e" = [0; 1] ∧
  ∃ s, Scripted.trigger leaves_when_called "e" []
         (Scripted.start two_subscribers) = Throw TypeError s ∧
       Scripted.calls_log s = [(0, [])] ∧
       listeners (Scripted.events s) "e" = [1].
Proof.
  split; [by vm_compute|]. eexists. split; [by vm_compute|]. by vm_compute.
Qed.

(** The same when a subscriber unbinds a later one: of [0], [1], [2]
    bound to ["e"], where [0] unbinds [1], [trigger("e")] calls [0]
    and [2] and then throws. *)
Lemma unbind_of_a_later_subscriber_throws :
  ∃ s, Scripted.trigger removes_the_next "e" []
         (Scripted.start three_subscribers) = Throw TypeError s ∧
       Scripted.calls_log s = [(0, []); (2, [])].
Proof. eexists. split; by vm_compute. Qed.

(** * Models *)

(** ** The store: reading after writing *)

Lemma the_model_with_model m m' f w :
  the_model (with_model m f w) m'
  = if decide (m = m') then f (the_model w m) else the_model w m'.
Proof.
  unfold the_model, with_model; simpl. case_decide; simplify_map_eq; done.
Qed.

Lemma the_model_with_model_eq m f w :
  the_model (with_model m f w) m = f (the_model w m).
Proof. rewrite the_model_with_model. by case_decide. Qed.

Lemma the_collection_with_collection c c' f w :
  the_collection (with_collection c f w) c'
  = if decide (c = c') then f (the_collection w c) else the_collection w c'.
Proof.
  unfold the_collection, with_collection; simpl.
  case_decide; simplify_map_eq; done.
Qed.

Lemma the_collection_with_collection_eq c f w :
  the_collection (with_collection c f w) c = f (the_collection w c).
Proof. rewrite the_collection_with_collection. by case_decide. Qed.

Lemma the_model_same w w' m :
  model_heap w' = model_heap w → the_model w' m = the_model w m.
Proof. unfold the_model. by intros ->. Qed.

Lemma the_collection_same w w' c :
  collection_heap w' = collection_heap w →
  the_collection w' c = the_collection w c.
Proof. unfold the_collection. by intros ->. Qed.

(** ** What a [trigger] can do to the store *)

Lemma echo_refl w : echo w w.
Proof.
  split; try done.
  - intros c. by destruct (the_collection w c).
  - exists []. by rewrite app_nil_r.
Qed.

Lemma echo_trans w1 w2 w3 : echo w1 w2 → echo w2 w3 → echo w1 w3.
Proof.
  intros [Hm1 Hi1 Hc1 (d1 & Hl1 & Hd1)] [Hm2 Hi2 Hc2 (d2 & Hl2 & Hd2)].
  split.
  - congruence.
  - congruence.
  - intros c. rewrite (Hc2 c). rewrite (Hc1 c). done.
  - exists (d1 ++ d2). split.
    + rewrite Hl2, Hl1. by rewrite app_assoc.
    + apply Forall_app. split; [done|]. by rewrite <- Hm1.
Qed.

Lemma echo_call_user n this args w : echo w (call_user n this args w).
Proof.
  split; try done.
  - intros c. unfold call_user, the_collection; simpl.
    by destruct (default blank_Collection (collection_heap w !! c)).
  - exists [Invoked n this args (model_heap w) (collection_heap w)].
    split; [done|]. by repeat constructor.
Qed.

(** *** Collections *)

Lemma c_deliver_eq c args fs w :
  deliver (c_invoke c) args fs w = more_log (c_calls c args w fs) w.
Proof.
  revert w. induction fs as [|[n] fs IH]; intros w; simpl.
  - unfold more_log. rewrite app_nil_r. by destruct w.
  - rewrite IH. unfold more_log, call_user, with_log, c_calls; simpl.
    by rewrite <- app_assoc.
Qed.

Lemma c_invoke_steady c args :
  steady (λ w, c_events (the_collection w c)) (c_invoke c) args.
Proof. intros [n] w. eexists. split; [done|]. done. Qed.

Lemma c_trigger_eq c ev args w :
  inherited ev = None →
  c_trigger c ev args w
  = Ret tt (more_log
      (Published (OCollection c) ev args
         :: c_calls c args w (listeners (c_events (the_collection w c)) ev)
         ++ c_calls c (AStr ev :: args) w
              (listeners (c_events (the_collection w c)) "all")) w).
Proof.
  intros Hev. unfold c_trigger.
  rewrite trigger_steady by (done || apply c_invoke_steady).
  rewrite !c_deliver_eq. f_equal. unfold more_log, with_log; simpl.
  f_equal. rewrite <- !app_assoc. done.
Qed.

Lemma bystander_c_calls c args w fs :
  Forall (bystander (model_heap w)) (c_calls c args w fs).
Proof. apply Forall_fmap, Forall_true. by intros [n]. Qed.

Lemma echo_more_log d w :
  Forall (bystander (model_heap w)) d → echo w (more_log d w).
Proof.
  intros Hd. split; try done.
  - intros c. unfold more_log, the_collection; simpl.
    by destruct (default blank_Collection (collection_heap w !! c)).
  - by exists d.
Qed.

Lemma c_trigger_echo c ev args w :
  inherited ev = None →
  ∃ w', c_trigger c ev args w = Ret tt w' ∧ echo w w' ∧
        collection_heap w' = collection_heap w ∧
        Published (OCollection c) ev args ∈ drop (length (log w)) (log w').
Proof.
  intros Hev. rewrite c_trigger_eq by done.
  eexists. split; [done|]. split; [|split].
  - apply echo_more_log. constructor; [done|].
    apply Forall_app; split; apply bystander_c_calls.
  - done.
  - simpl. rewrite drop_app_length. apply list_elem_of_here.
Qed.

(** *** Models *)

Lemma calm_by_library args : calm args → by_library args.
Proof. intros Hc Hx. by destruct Hc. Qed.

Lemma by_library_model m rest : by_library (AModel m :: rest).
Proof. intros Hx. discriminate Hx. Qed.

Lemma calm_model m rest : calm (AModel m :: rest).
Proof. intros Hx. discriminate Hx. Qed.

Lemma by_library_all ev m rest : by_library (AStr ev :: AModel m :: rest).
Proof. intros _. by exists m. Qed.

Lemma calm_all ev args : ev ≠ "change" → calm (AStr ev :: args).
Proof. intros Hev Hx. inversion Hx. done. Qed.

Lemma echo_rekey c m w : echo w (rekey c m w).
Proof.
  unfold rekey. destruct (hasChanged m (Some "id") w); [|apply echo_refl].
  split; try done.
  - intros c'. rewrite the_collection_with_collection.
    case_decide; subst; by destruct (the_collection w _).
  - exists []. by rewrite app_nil_r.
Qed.

Lemma _onModelEvent_change c m rest w :
  _onModelEvent c (AStr "change" :: AModel m :: rest) w
  = c_trigger c "change" [AModel m] (rekey c m w).
Proof. done. Qed.

Lemma _onModelEvent_echo c args w :
  by_library args →
  ∃ w', _onModelEvent c args w = Ret tt w' ∧ echo w w' ∧
        (calm args → collection_heap w' = collection_heap w).
Proof.
  intros Hlib. unfold _onModelEvent.
  destruct (nth_arg 0 args) as [[| | | | |ev]| |] eqn:H0;
    try (eexists; split; [done|]; split; [apply echo_refl|done]).
  case_decide as Hev.
  - subst ev. destruct (Hlib H0) as [m ->].
    destruct (c_trigger_echo c "change" [AModel m] (rekey c m w) eq_refl)
      as (w' & Hw' & He & _).
    exists w'. split; [done|]. split.
    + eapply echo_trans; [apply echo_rekey|done].
    + intros Hc. by destruct (Hc H0).
  - case_decide.
    + destruct (c_trigger_echo c "error" [nth_arg 1 args; nth_arg 2 args] w
                  eq_refl) as (w' & Hw' & He & Hch & _).
      exists w'. done.
    + eexists; split; [done|]; split; [apply echo_refl|done].
Qed.

Lemma m_invoke_echo m f args w :
  by_library args →
  ∃ w', m_invoke m f args w = Ret tt w' ∧ echo w w' ∧
        (calm args → collection_heap w' = collection_heap w).
Proof.
  intros Hlib. destruct f as [c|n]; simpl.
  - by apply _onModelEvent_echo.
  - eexists. split; [done|]. split; [apply echo_call_user|done].
Qed.

Lemma m_invoke_steady m args :
  by_library args → steady (λ w, m_events (the_model w m)) (m_invoke m) args.
Proof.
  intros Hlib f w. destruct (m_invoke_echo m f args w Hlib) as (w' & -> & He & _).
  exists w'. split; [done|]. simpl.
  by rewrite (the_model_same _ _ _ (echo_models _ _ He)).
Qed.

Lemma m_deliver_echo m args fs w :
  by_library args →
  echo w (deliver (m_invoke m) args fs w) ∧
  (calm args →
   collection_heap (deliver (m_invoke m) args fs w) = collection_heap w).
Proof.
  intros Hlib. revert w. induction fs as [|f fs IH]; intros w; simpl.
  - split; [apply echo_refl|done].
  - destruct (m_invoke_echo m f args w Hlib) as (w' & -> & He & Hc). simpl.
    destruct (IH w') as [He' Hc']. split.
    + by eapply echo_trans.
    + intros Hcalm. rewrite Hc' by done. by apply Hc.
Qed.

(** A [trigger] on a model returns; it is an [echo] of the store with
    the event logged, and nothing but a [change] touches a collection. *)
Lemma m_trigger_echo m ev m' rest w :
  inherited ev = None →
  ∃ w', m_trigger m ev (AModel m' :: rest) w = Ret tt w' ∧
        echo (with_log (Published (OModel m) ev (AModel m' :: rest)) w) w' ∧
        (ev ≠ "change" → collection_heap w' = collection_heap w).
Proof.
  intros Hinh. unfold m_trigger.
  rewrite trigger_steady
    by (done || apply m_invoke_steady;
        (apply by_library_model || apply by_library_all)).
  eexists. split; [done|].
  set (w0 := with_log _ w).
  set (fs1 := listeners _ ev). set (fs2 := listeners _ "all").
  destruct (m_deliver_echo m (AModel m' :: rest) fs1 w0
              (by_library_model _ _)) as [He1 Hc1].
  destruct (m_deliver_echo m (AStr ev :: AModel m' :: rest) fs2
              (deliver (m_invoke m) (AModel m' :: rest) fs1 w0)
              (by_library_all _ _ _)) as [He2 Hc2].
  split.
  - by eapply echo_trans.
  - intros Hev. rewrite Hc2 by by apply calm_all.
    rewrite Hc1 by apply calm_model. done.
Qed.

(** ** What a write to a model can do to the store *)

Lemma published_by_app o l1 l2 :
  published_by o (l1 ++ l2) = published_by o l1 ++ published_by o l2.
Proof. unfold published_by. apply omap_app. Qed.

Lemma published_by_own o ev args d :
  published_by o (Published o ev args :: d) = (ev, args) :: published_by o d.
Proof. unfold published_by; simpl. by rewrite decide_True. Qed.

Lemma published_by_other o o' ev args d :
  o' ≠ o → published_by o (Published o' ev args :: d) = published_by o d.
Proof. intros Ho. unfold published_by; simpl. by rewrite decide_False. Qed.

Lemma published_by_c_calls o c args w fs :
  published_by o (c_calls c args w fs) = [].
Proof. by induction fs as [|[n] fs IH]. Qed.

Lemma wrote_nothing m P w : wrote m [] P w w.
Proof.
  split; try done.
  - intros c. by destruct (the_collection w c).
  - exists []. by rewrite app_nil_r.
Qed.

Lemma wrote_trans m evs1 evs2 P w1 w2 w3 :
  wrote m evs1 P w1 w2 → wrote m evs2 P w2 w3 →
  wrote m (evs1 ++ evs2) P w1 w3.
Proof.
  intros [Hi1 Ho1 Hc1 (d1 & Hl1 & Hp1 & Hq1 & Hs1)]
         [Hi2 Ho2 Hc2 (d2 & Hl2 & Hp2 & Hq2 & Hs2)].
  split.
  - congruence.
  - intros m' Hm'. rewrite Ho2, Ho1; done.
  - intros c. rewrite (Hc2 c), (Hc1 c). done.
  - exists (d1 ++ d2). repeat split.
    + rewrite Hl2, Hl1. by rewrite app_assoc.
    + rewrite published_by_app. congruence.
    + intros m' Hm'. rewrite published_by_app, Hq1, Hq2; done.
    + by apply Forall_app.
Qed.

Lemma wrote_weaken m evs (P Q : Model → Prop) w w' :
  (∀ M, P M → Q M) → wrote m evs P w w' → wrote m evs Q w w'.
Proof.
  intros HPQ [Hi Ho Hc (d & Hl & Hp & Hq & Hs)]. split; try done.
  exists d. repeat split; try done.
  eapply Forall_impl; [exact Hs|]. intros [] ?; simpl in *; auto.
Qed.

Lemma wrote_with_model m f P w : wrote m [] P w (with_model m f w).
Proof.
  split; try done.
  - intros m' Hm'. simpl. by rewrite lookup_insert_ne.
  - intros c. unfold the_collection; simpl.
    by destruct (default blank_Collection (collection_heap w !! c)).
  - exists []. by rewrite app_nil_r.
Qed.

Lemma bystander_quiet ms o d :
  Forall (bystander ms) d → published_by (OModel o) d = [].
Proof.
  induction 1 as [|e d He _ IH]; [done|].
  destruct e as [[m|c] ev args|]; simpl in *; try done.
Qed.

Lemma bystander_sees ms m d :
  Forall (bystander ms) d →
  Forall (sees m (λ M, M = default blank_Model (ms !! m))) d.
Proof.
  intros Hd. eapply Forall_impl; [exact Hd|].
  intros [[]|] He; simpl in *; try done. by subst.
Qed.

(** A [trigger] on a model is a write that publishes its event and
    shows the model as it is. *)
Lemma m_trigger_wrote m ev rest w :
  inherited ev = None →
  ∃ w', m_trigger m ev (AModel m :: rest) w = Ret tt w' ∧
        model_heap w' = model_heap w ∧
        (ev ≠ "change" → collection_heap w' = collection_heap w) ∧
        wrote m [(ev, AModel m :: rest)] (λ M, M = the_model w m) w w'.
Proof.
  intros Hinh.
  destruct (m_trigger_echo m ev m rest w Hinh)
    as (w' & Hw' & [Hm Hi Hc (d & Hl & Hd)] & Hcalm).
  exists w'. split; [done|]. split; [done|]. split; [done|].
  split; try done.
  - intros m' _. by rewrite Hm.
  - exists (Published (OModel m) ev (AModel m :: rest) :: d). repeat split.
    + rewrite Hl. simpl. by rewrite <- app_assoc.
    + simpl. rewrite decide_True by done.
      by rewrite (bystander_quiet _ _ _ Hd).
    + intros m' Hm'. simpl. rewrite decide_False by congruence.
      by rewrite (bystander_quiet _ _ _ Hd).
    + constructor; [done|]. by apply bystander_sees.
Qed.

(** ** [change], [set] and [unset] *)

Lemma change_colon attr : "change:" +:+ attr ≠ "change".
Proof. done. Qed.

Lemma inherited_change_colon attr : inherited ("change:" +:+ attr) = None.
Proof. done. Qed.

Lemma merged_same attrs now : changes attrs now = [] → merged attrs now = now.
Proof.
  revert now. induction attrs as [|[attr val] rest IH]; intros now; simpl;
    [done|].
  destruct (same _ _); [apply IH|done].
Qed.

Lemma change_wrote m w :
  ∃ w1, change m w = Ret tt (with_model m committed w1) ∧
        model_heap w1 = model_heap w ∧
        wrote m [("change", [AModel m])] (λ M, M = the_model w m) w w1.
Proof.
  unfold change.
  destruct (m_trigger_wrote m "change" [] w eq_refl) as (w1 & -> & Hm & _ & Hw).
  exists w1. done.
Qed.

Lemma set_each_wrote m silent attrs w :
  let M := the_model w m in
  ∃ w', set_each m silent attrs w = Ret tt w' ∧
        the_model w' m
        = set_changed (if silent then _changed M
                       else _changed M || differs attrs (_attributes M))
            (set_attributes (merged attrs (_attributes M)) M) ∧
        collection_heap w' = collection_heap w ∧
        wrote m (if silent then []
                 else change_events m (changes attrs (_attributes M)))
              (λ M', _changed M' = true ∧
                     _previousAttributes M' = _previousAttributes M)
              w w'.
Proof.
  revert w. induction attrs as [|[attr val] rest IH]; intros w M; simpl.
  - exists w. split; [done|]. split.
    { unfold differs; simpl. rewrite orb_false_r.
      subst M. destruct (the_model w m), silent; done. }
    split; [done|]. destruct silent; apply wrote_nothing.
  - unfold get. fold M. unfold differs; simpl.
    destruct (same (dict_get (_attributes M) attr) (normalize val)) eqn:Heq.
    { apply IH. }
    set (A1 := dict_put attr (normalize val) (_attributes M)).
    set (w1 := with_model m _ w).
    assert (HM1 : the_model w1 m = set_attributes A1 M).
    { unfold w1. by rewrite the_model_with_model_eq. }
    destruct silent.
    + destruct (IH w1) as (w' & Hrun & HM' & Hc & Hw).
      exists w'. split; [done|]. rewrite HM1 in HM', Hw. simpl in *.
      split; [rewrite HM'; by destruct M|]. split; [done|].
      eapply (wrote_trans _ [] []); [apply wrote_with_model|done].
    + set (w2 := with_model m (set_changed true) w1).
      assert (HM2 : the_model w2 m = set_changed true (set_attributes A1 M)).
      { unfold w2. by rewrite the_model_with_model_eq, HM1. }
      destruct (m_trigger_wrote m ("change:" +:+ attr) [AVal (normalize val)] w2
                  (inherited_change_colon attr))
        as (w3 & -> & Hm3 & Hc3 & Hw3). simpl.
      destruct (IH w3) as (w' & Hrun & HM' & Hc & Hw).
      exists w'. split; [done|].
      rewrite (the_model_same _ _ _ Hm3), HM2 in HM', Hw. simpl in *.
      split.
      { rewrite HM'. rewrite orb_true_r. by destruct M. }
      split.
      { rewrite Hc, Hc3 by apply change_colon. done. }
      eapply (wrote_trans _ [] (_ :: _)); [apply wrote_with_model|].
      eapply (wrote_trans _ [] (_ :: _)); [apply wrote_with_model|].
      eapply (wrote_trans _ [_] _); [|exact Hw].
      eapply wrote_weaken; [|exact Hw3].
      intros M' ->. rewrite HM2. done.
Qed.

Lemma with_id_fields attrs M :
  _attributes (with_id attrs M) = _attributes M ∧
  _previousAttributes (with_id attrs M) = _previousAttributes M ∧
  _changed (with_id attrs M) = _changed M ∧
  m_events (with_id attrs M) = m_events M ∧
  collection (with_id attrs M) = collection M ∧
  validate (with_id attrs M) = validate M ∧
  cid (with_id attrs M) = cid M.
Proof. unfold with_id. by destruct (hash_lookup "id" attrs). Qed.

Lemma set_valid_wrote m attrs silent w :
  let M := the_model w m in
  ∃ w', set_valid m (Properties attrs) silent w = Ret true w' ∧
        the_model w' m = after_set silent attrs M ∧
        wrote m (set_events m silent attrs M)
              (λ M', _changed M' = true ∧
                     _previousAttributes M' = _previousAttributes M)
              w w'.
Proof.
  intros M. unfold set_valid.
  set (w1 := match hash_lookup "id" attrs with
             | Some v => with_model m (set_m_id v) w
             | None => w
             end).
  assert (HM1 : the_model w1 m = with_id attrs M).
  { unfold w1, with_id. destruct (hash_lookup "id" attrs); [|done].
    by rewrite the_model_with_model_eq. }
  assert (Hw1 : ∀ P, wrote m [] P w w1).
  { intros P. unfold w1. destruct (hash_lookup "id" attrs);
      [apply wrote_with_model|apply wrote_nothing]. }
  destruct (with_id_fields attrs M) as (HA & HP & HC & _).
  destruct (set_each_wrote m silent attrs w1) as (w2 & -> & HM2 & Hc2 & Hw2).
  simpl. rewrite HM1 in HM2, Hw2.
  rewrite HA in HM2, Hw2. rewrite ?HC in HM2. rewrite HP in Hw2.
  assert (Hch : _changed (the_model w2 m) = changed_after silent attrs M).
  { rewrite HM2. done. }
  rewrite Hch. unfold after_set, set_events.
  destruct silent; simpl.
  { exists w2. split; [done|]. split; [done|].
    eapply (wrote_trans _ [] []); [apply Hw1|exact Hw2]. }
  unfold changed_after in Hch. simpl in Hch.
  destruct (_changed M || differs attrs (_attributes M)) eqn:Hca.
  - destruct (change_wrote m w2) as (w3 & -> & Hm3 & Hw3). simpl.
    eexists. split; [done|]. split.
    + by rewrite the_model_with_model_eq, (the_model_same _ _ _ Hm3), HM2.
    + eapply (wrote_trans _ [] (_ ++ _)); [apply Hw1|].
      eapply wrote_trans; [exact Hw2|].
      eapply (wrote_trans _ [_] []); [|apply wrote_with_model].
      eapply wrote_weaken; [|exact Hw3].
      intros M' ->. by rewrite HM2.
  - exists w2. split; [done|]. split; [done|].
    rewrite app_nil_r.
    eapply (wrote_trans _ [] _); [apply Hw1|exact Hw2].
Qed.

(** A [set] the hook rejects. *)
Lemma set_rejected m attrs kvs error silent w :
  resolve attrs w = Some kvs →
  validation m kvs w = Some error →
  ∃ w', set m attrs silent w = Ret false w' ∧
        model_heap w' = model_heap w ∧
        collection_heap w' = collection_heap w ∧
        idCounter w' = idCounter w ∧
        wrote m [("error", [AModel m; AVal error])]
              (λ M, M = the_model w m) w w'.
Proof.
  intros Hres Hval. unfold set. rewrite Hres, Hval.
  destruct (m_trigger_wrote m "error" [AVal error] w eq_refl)
    as (w' & -> & Hm & Hc & Hw).
  exists w'. split; [done|]. split; [done|]. split; [by apply Hc|].
  split; [apply Hw|done].
Qed.

Lemma unset_wrote m attr w :
  let M := the_model w m in
  ∃ w', unset m attr false w = Ret (get m attr w) w' ∧
        the_model w' m = after_unset attr M ∧
        wrote m [("change:" +:+ attr, [AModel m]); ("change", [AModel m])]
              (λ M', _changed M' = true ∧
                     _previousAttributes M' = _previousAttributes M)
              w w'.
Proof.
  intros M. unfold unset.
  set (w1 := with_model m _ w).
  set (w2 := with_model m (set_changed true) w1).
  assert (HM2 : the_model w2 m
                = set_changed true
                    (set_attributes (dict_delete attr (_attributes M)) M)).
  { unfold w2, w1. by rewrite !the_model_with_model_eq. }
  destruct (m_trigger_wrote m ("change:" +:+ attr) [] w2
              (inherited_change_colon attr))
    as (w3 & -> & Hm3 & _ & Hw3). simpl.
  destruct (change_wrote m w3) as (w4 & -> & Hm4 & Hw4). simpl.
  eexists. split; [done|]. split.
  - rewrite the_model_with_model_eq, (the_model_same _ _ _ Hm4),
      (the_model_same _ _ _ Hm3), HM2. done.
  - eapply (wrote_trans _ [] [_; _]); [apply wrote_with_model|].
    eapply (wrote_trans _ [] [_; _]); [apply wrote_with_model|].
    eapply (wrote_trans _ [_] [_]).
    { eapply wrote_weaken; [|exact Hw3]. intros M' ->. by rewrite HM2. }
    eapply (wrote_trans _ [_] []); [|apply wrote_with_model].
    eapply wrote_weaken; [|exact Hw4].
    intros M' ->. by rewrite (the_model_same _ _ _ Hm3), HM2.
Qed.

(** The model [m] after a [set], whatever the hash and the hook. *)
Lemma set_model m attrs silent w :
  the_model (final (set m attrs silent w)) m
  = match resolve attrs w with
    | None => the_model w m
    | Some kvs =>
        match validation m kvs w, kvs with
        | Some _, _ | None, Primitive _ => the_model w m
        | None, Properties kvs => after_set silent kvs (the_model w m)
        end
    end.
Proof.
  destruct (resolve attrs w) as [kvs|] eqn:Hres.
  - destruct (validation m kvs w) as [error|] eqn:Hval.
    + destruct (set_rejected m attrs kvs error silent w Hres Hval)
        as (w' & -> & Hm & _). simpl. by apply the_model_same.
    + unfold set. rewrite Hres, Hval. destruct kvs as [kvs|v]; [|done].
      destruct (set_valid_wrote m kvs silent w) as (w' & -> & HM & _). done.
  - unfold set. by rewrite Hres.
Qed.

Lemma unset_model m attr silent w :
  the_model (final (unset m attr silent w)) m
  = if silent
    then set_attributes (dict_delete attr (_attributes (the_model w m)))
           (the_model w m)
    else after_unset attr (the_model w m).
Proof.
  destruct silent.
  - unfold unset. simpl. by rewrite the_model_with_model_eq.
  - destruct (unset_wrote m attr w) as (w' & -> & HM & _). done.
Qed.

Lemma change_model m w :
  the_model (final (change m w)) m = committed (the_model w m).
Proof.
  destruct (change_wrote m w) as (w1 & -> & Hm & _). simpl.
  by rewrite the_model_with_model_eq, (the_model_same _ _ _ Hm).
Qed.

(** ** C1 *)

(** C1 fails on the code: after the silent write [set({a: 2}, {silent:
    true})] to the model [{a: 1}], [hasChanged()] is [false], and yet
    the attributes are [{a: 2}] and the previous attributes [{a: 1}];
    [hasChanged("a")], which compares the values, is [true]. *)
Theorem C1_silent_write_is_not_marked :
  let w := final (set 0 (Hash [("a", VInt 2)]) true one_model) in
  hasChanged 0 None one_model = false ∧
  attributes 0 one_model = previousAttributes 0 one_model ∧
  returned (set 0 (Hash [("a", VInt 2)]) true one_model) = Some true ∧
  hasChanged 0 None w = false ∧
  attributes 0 w = {["a" := VInt 2]} ∧
  previousAttributes 0 w = {["a" := VInt 1]} ∧
  hasChanged 0 (Some "a") w = true.
Proof. by vm_compute. Qed.

(** ** C2 *)

(** C2, as stated, fails: a hook that returns the non-null value [""]
    does not stop the write; [set({age: -1})] returns the model and
    [age] is [-1]. *)
Lemma C2_falsy_error_counterexample :
  (λ hook : patch → value, not_nullish (hook (Properties [("age", VInt (-1))])))
    <$> validate (the_model lenient_model 0) = Some true ∧
  returned (set 0 (Hash [("age", VInt (-1))]) false lenient_model) = Some true ∧
  get 0 "age" (final (set 0 (Hash [("age", VInt (-1))]) false lenient_model))
  = Val (VInt (-1)).
Proof. by vm_compute. Qed.

(** C2, amended: when the hook returns a truthy error for the hash,
    [set] returns [false], the model publishes the one event [error]
    with the model and the error, and no model and no collection
    changes. *)
Theorem C2_rejected_write_changes_nothing m attrs kvs hook silent w :
  resolve attrs w = Some kvs →
  validate (the_model w m) = Some hook →
  truthy (hook kvs) = true →
  ∃ w' d,
    set m attrs silent w = Ret false w' ∧
    model_heap w' = model_heap w ∧
    collection_heap w' = collection_heap w ∧
    log w' = log w ++ d ∧
    published_by (OModel m) d = [("error", [AModel m; AVal (hook kvs)])].
Proof.
  intros Hres Hhook Herr.
  assert (Hval : validation m kvs w = Some (hook kvs)).
  { unfold validation. by rewrite Hhook, Herr. }
  destruct (set_rejected m attrs kvs (hook kvs) silent w Hres Hval)
    as (w' & Hset & Hm & Hc & _ & [_ _ _ (d & Hl & Hp & _)]).
  by exists w', d.
Qed.

Lemma C2_rejected_write_changes_nothing_witness :
  ∃ w' d,
    set 0 (Hash [("age", VInt (-1))]) false aged_model = Ret false w' ∧
    model_heap w' = model_heap aged_model ∧
    collection_heap w' = collection_heap aged_model ∧
    log w' = log aged_model ++ d ∧
    published_by (OModel 0) d
    = [("error",
        [AModel 0; AVal (age_hook (Properties [("age", VInt (-1))]))])].
Proof.
  apply (C2_rejected_write_changes_nothing 0 (Hash [("age", VInt (-1))])
           (Properties [("age", VInt (-1))]) age_hook false aged_model);
    reflexivity.
Defined.

(** ** C5 *)

(** C5, as stated, fails: during the commit of [set({a: 2})] the
    subscriber of [change] sees the model changed, with attributes
    [{a: 2}] and previous attributes [{a: 1}]. *)
Lemma C5_change_handler_counterexample :
  seen_by 9 0 (log (final (set 0 (Hash [("a", VInt 2)]) false watched_model)))
  = [(true, {["a" := VInt 2]}, {["a" := VInt 1]})].
Proof. by vm_compute. Qed.

(** C5, amended: with subscribers that observe, every subscriber
    called during [change] sees the model as it is before the call of
    [change], previous attributes and changed flag included; when the
    call returns, the previous attributes are a copy of the attributes
    and the model is not changed. *)
Theorem C5_handlers_run_before_the_commit m w :
  Forall (sees m (λ M, M = the_model w m)) (since w (final (change m w))) ∧
  ∀ w', change m w = Ret tt w' → the_model w' m = committed (the_model w m).
Proof.
  destruct (change_wrote m w)
    as (w1 & Hch & Hm & [_ _ _ (d & Hl & _ & _ & Hs)]).
  rewrite Hch. split.
  - unfold since. simpl. rewrite Hl. by rewrite drop_app_length.
  - intros w' Hw'. injection Hw' as <-.
    by rewrite the_model_with_model_eq, (the_model_same _ _ _ Hm).
Qed.

(** A commit after a silent write: the subscriber sees the attributes
    [{a: 2}] with the previous attributes [{a: 1}], which the commit
    then replaces. *)
Example commit_after_a_silent_write :
  let w := final (set 0 (Hash [("a", VInt 2)]) true watched_model) in
  seen_by 9 0 (since w (final (change 0 w)))
  = [(false, {["a" := VInt 2]}, {["a" := VInt 1]})] ∧
  previousAttributes 0 (final (change 0 w)) = {["a" := VInt 2]}.
Proof. by vm_compute. Qed.

(** ** C9 *)



(** * Collections *)

(** ** Reading the store after a step of [_add] or [_remove] *)

Lemma the_collection_with_model m f w c :
  the_collection (with_model m f w) c = the_collection w c.
Proof. done. Qed.

Lemma the_model_with_collection c f w m :
  the_model (with_collection c f w) m = the_model w m.
Proof. done. Qed.

Lemma the_model_with_log en w m : the_model (with_log en w) m = the_model w m.
Proof. done. Qed.

Lemma the_collection_with_log en w c :
  the_collection (with_log en w) c = the_collection w c.
Proof. done. Qed.

Lemma the_model_more_log d w m : the_model (more_log d w) m = the_model w m.
Proof. done. Qed.

Lemma the_collection_more_log d w c :
  the_collection (more_log d w) c = the_collection w c.
Proof. done. Qed.

Create Rewrite HintDb store.
#[global] Hint Rewrite the_collection_with_model the_model_with_collection
  the_model_more_log the_collection_more_log
  the_model_with_model_eq the_collection_with_collection_eq : store.

(** ** Subscriptions after [bind] and [unbind] *)

Lemma listeners_unbind {A} `{EqDecision A} (h : hub A) ev f :
  ev ≠ "" →
  listeners (unbound (Some ev) (Some f) h) ev = remove_first f (listeners h ev).
Proof.
  intros Hev. unfold unbound, listeners.
  destruct ev as [|a ev]; [by destruct Hev|].
  destruct (_callbacks h) as [o|] eqn:Ho; [|by rewrite Ho].
  destruct (table_at h o !! String a ev) as [l|] eqn:Hl; simpl.
  - unfold table_at in *; simpl. rewrite Hl.
    unfold array_at; simpl. by rewrite lookup_insert_eq.
  - by rewrite Ho, Hl.
Qed.

Lemma listeners_bind_new {A} `{EqDecision A} ev (f : A) :
  listeners (bound ev f no_events) ev = [f].
Proof.
  unfold bound, listeners, table_at, array_at; simpl.
  rewrite lookup_insert_eq; simpl. rewrite lookup_empty; simpl.
  rewrite lookup_insert_eq; simpl. rewrite lookup_insert_eq; simpl.
  by rewrite lookup_insert_eq.
Qed.

(** ** [_add] and [_remove], step by step *)

Lemma index_at_own o k x : o !! k = Some x → index_at o k = Holds x.
Proof. intros Hk. unfold index_at. by rewrite Hk. Qed.

Lemma index_at_Holds o k x : index_at o k = Holds x → o !! k = Some x.
Proof.
  unfold index_at, lookup_in. destruct (o !! k); [congruence|].
  case_bool_decide; [done|]. by destruct (inherited k).
Qed.

Lemma index_delete_lookup k k' o :
  index_delete k o !! k'
  = if decide (k = k' ∧ k ≠ "__proto__") then None else o !! k'.
Proof.
  unfold index_delete. case_bool_decide as Hk.
  - rewrite decide_False; [done|]. by intros [_ ?].
  - case_decide as Hkk.
    + destruct Hkk as [-> _]. apply lookup_delete_eq.
    + rewrite lookup_delete_ne; [done|]. intros ->. by apply Hkk.
Qed.

Lemma m_bind_all m c w :
  m_bind m "all" (MBound c) w
  = Ret tt (with_model m (λ M,
              set_m_events (bound "all" (MBound c) (m_events M)) M) w).
Proof. unfold m_bind. by rewrite bind_ordinary. Qed.

Lemma m_unbind_all m c w :
  m_unbind m (Some "all") (Some (MBound c)) w
  = Ret tt (with_model m (λ M,
              set_m_events (unbound (Some "all") (Some (MBound c)) (m_events M))
                           M) w).
Proof. unfold m_unbind. by rewrite unbind_callback. Qed.

(** A model whose id is known to the collection is not added. *)
Lemma _add_known_id_throws c m already silent w :
  not_nullish (m_id (the_model w m)) = true →
  _byId (the_collection w c) !! to_key (m_id (the_model w m)) = Some already →
  _add c m silent w
  = Throw (Error "Can't add the same model to a set twice"
                 (m_id (the_model w already))) w.
Proof.
  intros Hid Hknown. unfold _add, Collection_get.
  by rewrite Hid, (index_at_own _ _ _ Hknown).
Qed.

Lemma _remove_unresolved c r silent w :
  Collection_get c r w = Absent → _remove c r silent w = Ret None w.
Proof. intros Hget. unfold _remove. by rewrite Hget. Qed.

Lemma _remove_resolved c r m silent w :
  Collection_get c r w = Holds m →
  ∃ w' d,
    _remove c r silent w = Ret (Some m) w' ∧
    the_collection w' c = without_member c m w ∧
    the_model w' m = as_outsider c (the_model w m) ∧
    (∀ x, x ≠ m → model_heap w' !! x = model_heap w !! x) ∧
    (∀ c', c' ≠ c → collection_heap w' !! c' = collection_heap w !! c') ∧
    log w' = log w ++ d ∧
    published_by (OCollection c) d
    = if silent then [] else [("remove", [AModel m])].
Proof.
  intros Hget. unfold _remove. rewrite Hget, m_unbind_all. cbn [obind].
  set (w6 := with_collection c (λ C, set_c_length _ C) _).
  assert (H6 : the_collection w6 c = without_member c m w).
  { unfold w6. by autorewrite with store. }
  assert (M6 : the_model w6 m = as_outsider c (the_model w m)).
  { unfold w6. by autorewrite with store. }
  assert (O6 : ∀ x, x ≠ m → model_heap w6 !! x = model_heap w !! x).
  { intros x Hx. unfold w6. simpl. by rewrite !lookup_insert_ne. }
  assert (C6 : ∀ c', c' ≠ c →
               collection_heap w6 !! c' = collection_heap w !! c').
  { intros c' Hc'. unfold w6. simpl. by rewrite !lookup_insert_ne. }
  destruct silent.
  - exists w6, []. by rewrite app_nil_r.
  - rewrite c_trigger_eq by done. eexists _, _. split; [done|].
    autorewrite with store. repeat (split; [done|]).
    by rewrite published_by_own, published_by_app, !published_by_c_calls.
Qed.

(** What the claim C8 says of a reference that [get] resolves; the
    key ["__proto__"], which is no own property, is not deleted. *)
Lemma _remove_resolved_facts c r m silent w :
  Collection_get c r w = Holds m →
  ∃ w' d,
    _remove c r silent w = Ret (Some m) w' ∧
    (to_key (m_id (the_model w m)) ≠ "__proto__" →
     _byId (the_collection w' c) !! to_key (m_id (the_model w m)) = None) ∧
    (cid (the_model w m) ≠ "__proto__" →
     _byCid (the_collection w' c) !! cid (the_model w m) = None) ∧
    models (the_collection w' c)
    = splice_delete (indexOf (models (the_collection w c)) m)
        (models (the_collection w c)) ∧
    c_length (the_collection w' c) = (c_length (the_collection w c) - 1)%Z ∧
    collection (the_model w' m) = None ∧
    listeners (m_events (the_model w' m)) "all"
    = remove_first (MBound c) (listeners (m_events (the_model w m)) "all") ∧
    log w' = log w ++ d ∧
    published_by (OCollection c) d
    = if silent then [] else [("remove", [AModel m])].
Proof.
  intros Hget.
  destruct (_remove_resolved c r m silent w Hget)
    as (w' & d & Hrun & HC & HM & _ & _ & Hl & Hp).
  exists w', d. rewrite HC, HM. split; [done|].
  split.
  { intros Hk. simpl. rewrite index_delete_lookup. by rewrite decide_True. }
  split.
  { intros Hk. simpl. rewrite index_delete_lookup. by rewrite decide_True. }
  repeat (split; [done|]). split; [by apply listeners_unbind|done].
Qed.

(** [_byId] knows the members that have an id. *)
Lemma _add_same_id_throws c e m silent w :
  indexed c w →
  m ∈ models (the_collection w c) →
  not_nullish (m_id (the_model w e)) = true →
  to_key (m_id (the_model w m)) = to_key (m_id (the_model w e)) →
  not_nullish (m_id (the_model w m)) = true →
  _add c e silent w
  = Throw (Error "Can't add the same model to a set twice"
                 (m_id (the_model w m))) w.
Proof.
  intros Hidx Hm He Hkey Hid.
  apply _add_known_id_throws; [done|]. rewrite <- Hkey. by apply Hidx.
Qed.

(** ** C3 *)

(** C3 fails on the code: a model without id that is a member of the
    collection (its cid is in [_byCid]) is added a second time; [_add]
    does not throw, and the model is twice in [models]. *)
Theorem C3_model_without_id_is_added_twice :
  getByCid 0 (inl 0) one_member = Holds 0 ∧
  ∃ w', _add 0 0 false one_member = Ret 0 w' ∧
        models (the_collection w' 0) = [0; 0] ∧
        c_length (the_collection w' 0) = 2%Z.
Proof. split; [by vm_compute|]. eexists. split; by vm_compute. Qed.

(** ** C8 *)

(** C8 fails on the code: a member without id (it is in [models] and
    [getByCid] finds it) is not resolved by [_remove]; the call returns
    [null] and the store is as before, the model still a member. *)
Theorem C8_member_without_id_is_not_removed :
  models (the_collection one_member 0) = [0] ∧
  getByCid 0 (inl 0) one_member = Holds 0 ∧
  m_id (the_model one_member 0) = VUndefined ∧
  _remove 0 (RModel 0) false one_member = Ret None one_member.
Proof. repeat split; by vm_compute. Qed.

(** ** Sorted arrays of models *)

Section Ascending.
Variable crit : nat → Z.

Lemma ascending_ext (crit' : nat → Z) l :
  (∀ x, crit' x = crit x) → ascending crit l → ascending crit' l.
Proof.
  intros Hext. unfold ascending. induction 1 as [|x l Hl IH Hx]; constructor.
  - done.
  - eapply Forall_impl; [exact Hx|]. intros y Hy. simpl. by rewrite !Hext.
Qed.

Lemma ascending_lookup l i j x y :
  ascending crit l → i ≤ j → l !! i = Some x → l !! j = Some y →
  (crit x <= crit y)%Z.
Proof.
  intros Hl. revert i j. induction Hl as [|z l Hl IH Hz]; intros i j Hij Hi Hj.
  { by rewrite lookup_nil in Hi. }
  destruct i as [|i], j as [|j]; simpl in *.
  - by simplify_eq.
  - simplify_eq. rewrite Forall_forall in Hz. apply Hz.
    by eapply list_elem_of_lookup_2.
  - by apply Nat.nle_succ_0 in Hij.
  - eapply IH; [|done..]. by apply le_S_n.
Qed.

Lemma ascending_app l1 l2 :
  ascending crit (l1 ++ l2) ↔
  ascending crit l1 ∧ ascending crit l2 ∧
  ∀ x y, x ∈ l1 → y ∈ l2 → (crit x <= crit y)%Z.
Proof.
  unfold ascending. rewrite StronglySorted_app. tauto.
Qed.

(** Putting a model between the smaller and the not smaller ones. *)
Lemma ascending_insert l k m :
  ascending crit l →
  Forall (λ x, (crit x < crit m)%Z) (take k l) →
  Forall (λ x, (crit m <= crit x)%Z) (drop k l) →
  ascending crit (take k l ++ m :: drop k l).
Proof.
  intros Hl Hlt Hge. rewrite <- (take_drop k l) in Hl.
  apply ascending_app in Hl as (H1 & H2 & H12).
  apply ascending_app. split; [done|]. split.
  - constructor; done.
  - intros x y Hx Hy. apply elem_of_cons in Hy as [->|Hy].
    + rewrite Forall_forall in Hlt. specialize (Hlt x Hx). lia.
    + by apply H12.
Qed.

(** Taking a model out. *)
Lemma ascending_delete l i :
  ascending crit l → ascending crit (take i l ++ drop (S i) l).
Proof.
  intros Hl. rewrite <- (take_drop i l) in Hl.
  apply ascending_app in Hl as (H1 & H2 & H12).
  apply ascending_app. split; [done|].
  destruct (drop i l) as [|x t] eqn:Hd.
  - rewrite (drop_ge l (S i)).
    + split; [constructor|]. intros ? ? _ Hy. by apply elem_of_nil in Hy.
    + apply drop_nil_inv in Hd. lia.
  - assert (drop (S i) l = t) as ->.
    { rewrite <- (Nat.add_1_l i), Nat.add_comm, <- drop_drop, Hd. done. }
    split.
    + by apply StronglySorted_inv in H2 as [? _].
    + intros a b Ha Hb. apply H12; [done|]. by apply list_elem_of_further.
Qed.

(** [sortedIndex] on an ascending array: the models before the index
    are smaller than [obj], those from the index on are not. *)
Lemma sortedIndex_loop_step array obj fuel low high :
  sortedIndex_loop (S fuel) crit array obj low high
  = if bool_decide (low < high) then
      match array !! ((low + high) `div` 2) with
      | Some x =>
          if (crit x <? crit obj)%Z
          then sortedIndex_loop fuel crit array obj
                 ((low + high) `div` 2 + 1) high
          else sortedIndex_loop fuel crit array obj low
                 ((low + high) `div` 2)
      | None => sortedIndex_loop fuel crit array obj low
                  ((low + high) `div` 2)
      end
    else low.
Proof. done. Qed.

Lemma sortedIndex_loop_spec array obj fuel low high :
  ascending crit array →
  low ≤ high ≤ length array → high - low ≤ fuel →
  Forall (λ x, (crit x < crit obj)%Z) (take low array) →
  Forall (λ x, (crit obj <= crit x)%Z) (drop high array) →
  sortedIndex_loop fuel crit array obj low high ≤ length array ∧
  Forall (λ x, (crit x < crit obj)%Z)
    (take (sortedIndex_loop fuel crit array obj low high) array) ∧
  Forall (λ x, (crit obj <= crit x)%Z)
    (drop (sortedIndex_loop fuel crit array obj low high) array).
Proof.
  intros Hasc. revert low high.
  induction fuel as [|fuel IH]; intros low high Hlh Hfuel Hlow Hhigh.
  { simpl. assert (low = high) as -> by lia. split; [lia|done]. }
  rewrite sortedIndex_loop_step.
  case_bool_decide as Hlt.
  2:{ assert (low = high) as -> by lia. split; [lia|done]. }
  assert (Hmid : low ≤ (low + high) `div` 2 < high).
  { split.
    - apply Nat.div_le_lower_bound; lia.
    - apply Nat.Div0.div_lt_upper_bound; lia. }
  set (mid := (low + high) `div` 2) in *.
  destruct (array !! mid) as [x|] eqn:Hx.
  2:{ apply lookup_ge_None in Hx. lia. }
  destruct (crit x <? crit obj)%Z eqn:Hcmp.
  - apply Z.ltb_lt in Hcmp. apply IH; [lia|lia| |done].
    apply Forall_lookup. intros i y Hy.
    apply lookup_take_Some in Hy as [Hy Hi].
    pose proof (ascending_lookup array i mid y x Hasc ltac:(lia) Hy Hx). lia.
  - apply Z.ltb_ge in Hcmp. apply IH; [lia|lia|done|].
    apply Forall_lookup. intros i y Hy.
    rewrite lookup_drop in Hy.
    pose proof (ascending_lookup array mid (mid + i) x y Hasc ltac:(lia) Hx Hy).
    lia.
Qed.

Lemma sortedIndex_spec array obj :
  ascending crit array →
  let k := sortedIndex array obj crit in
  k ≤ length array ∧
  Forall (λ x, (crit x < crit obj)%Z) (take k array) ∧
  Forall (λ x, (crit obj <= crit x)%Z) (drop k array).
Proof.
  intros Hasc. apply sortedIndex_loop_spec; try done; try lia.
  by rewrite drop_all.
Qed.

(** [sortBy] sorts. *)
Lemma sortBy_insert_ascending x l :
  ascending crit l → ascending crit (sortBy_insert crit x l).
Proof.
  intros Hl. induction Hl as [|y l Hl IH Hy]; simpl.
  { repeat constructor. }
  destruct (crit x <=? crit y)%Z eqn:Hxy.
  - apply Z.leb_le in Hxy. constructor; [by constructor|].
    constructor; [done|]. eapply Forall_impl; [exact Hy|]. simpl. lia.
  - apply Z.leb_gt in Hxy. constructor; [done|].
    clear IH Hl. induction l as [|z l IHl]; simpl.
    + constructor; [lia|done].
    + apply Forall_cons in Hy as [Hz Hy].
      destruct (crit x <=? crit z)%Z; constructor; try done; try lia.
      * by constructor.
      * by apply IHl.
Qed.

Lemma sortBy_ascending l : ascending crit (sortBy l crit).
Proof.
  induction l as [|x l IH]; simpl; [constructor|].
  by apply sortBy_insert_ascending.
Qed.
End Ascending.

(** ** [_add] of a model that the collection does not find *)

Lemma sortedIndex_loop_ext crit crit' array obj fuel low high :
  (∀ x, crit' x = crit x) →
  sortedIndex_loop fuel crit' array obj low high
  = sortedIndex_loop fuel crit array obj low high.
Proof.
  intros Hext. revert low high.
  induction fuel as [|fuel IH]; intros low high; simpl; [done|].
  case_bool_decide; [|done].
  destruct (array !! _); [|apply IH]. rewrite !Hext, !IH. done.
Qed.

Lemma sortedIndex_ext crit crit' array obj :
  (∀ x, crit' x = crit x) →
  sortedIndex array obj crit' = sortedIndex array obj crit.
Proof. intros. by apply sortedIndex_loop_ext. Qed.

Lemma _add_not_found c m silent w :
  Collection_get c (RModel m) w = Absent →
  ∃ w' d,
    _add c m silent w = Ret m w' ∧
    the_collection w' c = with_member c m w ∧
    the_model w' m = as_member c (the_model w m) ∧
    (∀ x, x ≠ m → model_heap w' !! x = model_heap w !! x) ∧
    (∀ c', c' ≠ c → collection_heap w' !! c' = collection_heap w !! c') ∧
    idCounter w' = idCounter w ∧
    log w' = log w ++ d ∧
    published_by (OCollection c) d
    = (if silent then [] else [("add", [AModel m])]) ∧
    (∀ x, published_by (OModel x) d = []).
Proof.
  intros Hget. unfold _add. rewrite Hget, m_bind_all. cbn [obind].
  set (w3 := with_model m (set_collection (Some c)) _).
  assert (H3 : the_collection w3 c
               = set_byCid (<[cid (the_model w m) := m]>
                              (_byCid (the_collection w c)))
                   (set_byId (<[to_key (m_id (the_model w m)) := m]>
                                (_byId (the_collection w c)))
                      (the_collection w c))).
  { unfold w3. by autorewrite with store. }
  assert (Hidx : match comparator (the_collection w3 c) with
                 | Some cmp =>
                     Z.of_nat (sortedIndex (models (the_collection w3 c)) m
                                 (criterion cmp w3))
                 | None => c_length (the_collection w3 c)
                 end = index_for c m w).
  { rewrite H3. unfold index_for. simpl.
    destruct (comparator (the_collection w c)) as [cmp|]; [|done].
    f_equal. apply sortedIndex_ext. intros x. unfold criterion, w3.
    rewrite the_model_with_model. case_decide; [by subst|done]. }
  rewrite Hidx. clear Hidx.
  set (w6 := with_collection c (λ C, set_c_length _ C) _).
  assert (H6 : the_collection w6 c = with_member c m w).
  { unfold w6. autorewrite with store. fold w3. by rewrite H3. }
  assert (M6 : the_model w6 m = as_member c (the_model w m)).
  { unfold w6, w3. by autorewrite with store. }
  assert (O6 : ∀ x, x ≠ m → model_heap w6 !! x = model_heap w !! x).
  { intros x Hx. unfold w6, w3. simpl. by rewrite !lookup_insert_ne. }
  assert (C6 : ∀ c', c' ≠ c →
               collection_heap w6 !! c' = collection_heap w !! c').
  { intros c' Hc'. unfold w6, w3. simpl. by rewrite !lookup_insert_ne. }
  destruct silent.
  - exists w6, []. rewrite app_nil_r. done.
  - rewrite c_trigger_eq by done. eexists _, _. split; [done|].
    autorewrite with store. repeat (split; [done|]). split.
    + by rewrite published_by_own, published_by_app, !published_by_c_calls.
    + intros x. rewrite published_by_other by done.
      by rewrite published_by_app, !published_by_c_calls.
Qed.

Lemma _add_found c m already silent w :
  Collection_get c (RModel m) w = Holds already →
  _add c m silent w
  = Throw (Error "Can't add the same model to a set twice"
                 (m_id (the_model w already))) w.
Proof. intros Hget. unfold _add. by rewrite Hget. Qed.

(** [_add] returns only when [get] finds nothing. *)
Lemma _add_throws c m silent w :
  Collection_get c (RModel m) w ≠ Absent →
  ∃ e, _add c m silent w = Throw e w.
Proof.
  intros Hget. unfold _add.
  destruct (Collection_get c (RModel m) w); try by eauto.
Qed.

(** ** Sequences of operations on one collection (claim C4) *)

Lemma the_model_lookup w w' x :
  model_heap w' !! x = model_heap w !! x → the_model w' x = the_model w x.
Proof. unfold the_model. by intros ->. Qed.

Lemma splice_insert_nat {A} k (x : A) l :
  k ≤ length l → splice_insert (Z.of_nat k) x l = take k l ++ x :: drop k l.
Proof.
  intros Hk. unfold splice_insert, splice_start.
  destruct (Z.ltb_spec (Z.of_nat k) 0); [lia|].
  by replace (Z.to_nat (Z.of_nat k `min` Z.of_nat (length l))) with k by lia.
Qed.


(** Where a model goes under a comparator: after the models with a
    smaller criterion and before all the others. *)
Lemma _add_placement c m silent cmp w :
  comparator (the_collection w c) = Some cmp →
  in_order c cmp w →
  Collection_get c (RModel m) w = Absent →
  ∃ k,
    models (the_collection (final (_add c m silent w)) c)
    = take k (models (the_collection w c))
      ++ m :: drop k (models (the_collection w c)) ∧
    Forall (λ x, (criterion cmp w x < criterion cmp w m)%Z)
      (take k (models (the_collection w c))) ∧
    Forall (λ x, (criterion cmp w m <= criterion cmp w x)%Z)
      (drop k (models (the_collection w c))).
Proof.
  intros Hcmp Hord Hget.
  destruct (_add_not_found c m silent w Hget) as (w' & d & -> & HC & _).
  simpl. rewrite HC. unfold with_member, index_for. rewrite Hcmp. simpl.
  destruct (sortedIndex_spec (criterion cmp w) (models (the_collection w c))
              m Hord) as (Hk & Hlt & Hge).
  eexists. rewrite splice_insert_nat by done. done.
Qed.

Lemma _add_in_order c m silent cmp w :
  comparator (the_collection w c) = Some cmp →
  in_order c cmp w →
  comparator (the_collection (final (_add c m silent w)) c) = Some cmp ∧
  in_order c cmp (final (_add c m silent w)).
Proof.
  intros Hcmp Hord.
  destruct (decide (Collection_get c (RModel m) w = Absent)) as [Hget|Hget].
  2:{ by destruct (_add_throws c m silent w Hget) as [e ->]. }
  destruct (_add_placement c m silent cmp w Hcmp Hord Hget)
    as (k & Hm & Hlt & Hge).
  destruct (_add_not_found c m silent w Hget)
    as (w' & d & Hrun & HC & HM & Ho & _).
  rewrite Hrun in *. simpl in *. split.
  { by rewrite HC. }
  unfold in_order. rewrite Hm.
  apply (ascending_ext (criterion cmp w)).
  - intros x. unfold criterion. destruct (decide (x = m)) as [->|Hx].
    + by rewrite HM.
    + by rewrite (the_model_lookup _ _ _ (Ho x Hx)).
  - by apply ascending_insert.
Qed.

Lemma _remove_in_order c r silent cmp w :
  comparator (the_collection w c) = Some cmp →
  in_order c cmp w →
  comparator (the_collection (final (_remove c r silent w)) c) = Some cmp ∧
  in_order c cmp (final (_remove c r silent w)).
Proof.
  intros Hcmp Hord.
  destruct (Collection_get c r w) as [|m|n|] eqn:Hget.
  { by rewrite (_remove_unresolved c r silent w Hget). }
  2:{ unfold _remove. rewrite Hget. simpl. autorewrite with store. simpl.
      split; [done|]. unfold in_order. autorewrite with store. simpl.
      apply (ascending_ext (criterion cmp w)); [done|].
      unfold splice_delete. by apply ascending_delete. }
  2:{ unfold _remove. by rewrite Hget. }
  destruct (_remove_resolved c r m silent w Hget)
    as (w' & d & -> & HC & HM & Ho & _).
  simpl. split.
  { by rewrite HC. }
  unfold in_order. rewrite HC. simpl.
  apply (ascending_ext (criterion cmp w)).
  - intros x. unfold criterion. destruct (decide (x = m)) as [->|Hx].
    + by rewrite HM.
    + by rewrite (the_model_lookup _ _ _ (Ho x Hx)).
  - unfold splice_delete. by apply ascending_delete.
Qed.

Lemma sort_in_order c silent cmp w :
  comparator (the_collection w c) = Some cmp →
  comparator (the_collection (final (sort c silent w)) c) = Some cmp ∧
  in_order c cmp (final (sort c silent w)).
Proof.
  intros Hcmp. unfold sort. rewrite Hcmp.
  set (w1 := with_collection c _ w).
  assert (H1 : the_collection w1 c
               = set_models (sortBy (models (the_collection w c))
                               (criterion cmp w)) (the_collection w c)).
  { unfold w1. by autorewrite with store. }
  assert (Hw1 : comparator (the_collection w1 c) = Some cmp ∧
                in_order c cmp w1).
  { unfold in_order. rewrite H1. simpl. split; [done|].
    apply (ascending_ext (criterion cmp w)); [done|].
    apply sortBy_ascending. }
  destruct silent; [done|].
  rewrite c_trigger_eq by done. simpl. done.
Qed.

Lemma c_perform_in_order c cmp w o :
  comparator (the_collection w c) = Some cmp →
  in_order c cmp w →
  comparator (the_collection (c_perform c w o) c) = Some cmp ∧
  in_order c cmp (c_perform c w o).
Proof.
  intros Hcmp Hord. destruct o as [m silent|r silent|silent]; simpl.
  - by apply _add_in_order.
  - by apply _remove_in_order.
  - by apply sort_in_order.
Qed.

Lemma c_perform_all_in_order c cmp w ops :
  comparator (the_collection w c) = Some cmp →
  in_order c cmp w →
  comparator (the_collection (foldl (c_perform c) w ops) c) = Some cmp ∧
  in_order c cmp (foldl (c_perform c) w ops).
Proof.
  revert w. induction ops as [|o ops IH]; intros w Hcmp Hord; simpl; [done|].
  destruct (c_perform_in_order c cmp w o Hcmp Hord) as [Hcmp' Hord'].
  by apply IH.
Qed.

(** ** C4 *)

(** C4, as stated, fails: models [1] and [2] have the same rank; when
    [2] is added after [1], it is put before [1]. *)
Lemma C4_tie_counterexample :
  criterion by_rank ranked_models 1 = criterion by_rank ranked_models 2 ∧
  models (the_collection
            (foldl (c_perform 0) ranked_models
               [InsertOne 0 false; InsertOne 1 false; InsertOne 2 false]) 0)
  = [2; 1; 0].
Proof. split; by vm_compute. Qed.

(** C4, amended: when the models of a collection with a comparator
    are sorted, they are sorted after every sequence of [_add],
    [_remove] and [sort]; and a model that is then added goes after
    the members with a smaller criterion and before all the others,
    those with an equal criterion included. *)
Theorem C4_sorted_with_ties_before c cmp w ops :
  comparator (the_collection w c) = Some cmp →
  in_order c cmp w →
  let w' := foldl (c_perform c) w ops in
  in_order c cmp w' ∧
  ∀ m silent,
    Collection_get c (RModel m) w' = Absent →
    ∃ k,
      models (the_collection (final (_add c m silent w')) c)
      = take k (models (the_collection w' c))
        ++ m :: drop k (models (the_collection w' c)) ∧
      Forall (λ x, (criterion cmp w' x < criterion cmp w' m)%Z)
        (take k (models (the_collection w' c))) ∧
      Forall (λ x, (criterion cmp w' m <= criterion cmp w' x)%Z)
        (drop k (models (the_collection w' c))).
Proof.
  intros Hcmp Hord w'.
  destruct (c_perform_all_in_order c cmp w ops Hcmp Hord) as [Hcmp' Hord'].
  split; [done|]. intros m silent Hget. by apply _add_placement.
Qed.

Lemma C4_sorted_with_ties_before_witness :
  comparator (the_collection ranked_models 0) = Some by_rank ∧
  in_order 0 by_rank ranked_models ∧
  in_order 0 by_rank
    (foldl (c_perform 0) ranked_models
       [InsertOne 0 false; InsertOne 1 false; RemoveOne (RVal (VInt 10)) false;
        Sort false]).
Proof.
  split; [reflexivity|]. split; [constructor|].
  apply (C4_sorted_with_ties_before 0 by_rank ranked_models
           [InsertOne 0 false; InsertOne 1 false;
            RemoveOne (RVal (VInt 10)) false; Sort false]);
    [reflexivity|constructor].
Defined.

(** ** What a collection hears of its models *)

Lemma quiet_model m rest : quiet (AModel m :: rest).
Proof. by split. Qed.

Lemma quiet_all ev args : ev ≠ "change" → ev ≠ "error" → quiet (AStr ev :: args).
Proof. intros H1 H2. split; intros Hx; inversion Hx; done. Qed.

Lemma _onModelEvent_quiet c args w : quiet args → _onModelEvent c args w = Ret tt w.
Proof.
  intros [H1 H2]. unfold _onModelEvent.
  destruct (nth_arg 0 args) as [[| | | | |ev]| |]; try done.
  case_decide; [by subst|]. case_decide; [by subst|]. done.
Qed.

Lemma more_log_more_log d1 d2 w :
  more_log d2 (more_log d1 w) = more_log (d1 ++ d2) w.
Proof. unfold more_log; simpl. by rewrite app_assoc. Qed.

Lemma more_log_nil w : more_log [] w = w.
Proof. unfold more_log. rewrite app_nil_r. by destruct w. Qed.

Lemma m_deliver_quiet m args fs w :
  quiet args → deliver (m_invoke m) args fs w = more_log (m_calls m args w fs) w.
Proof.
  intros Hq. revert w. induction fs as [|[c|n] fs IH]; intros w; simpl.
  - by rewrite more_log_nil.
  - rewrite _onModelEvent_quiet by done. simpl. apply IH.
  - rewrite IH. unfold call_user, with_log, more_log; simpl.
    by rewrite <- app_assoc.
Qed.

Lemma rekey_rekeyed c e w :
  id_changed (the_model w e) = true →
  rekeyed (the_model w e) e (the_collection (rekey c e w) c).
Proof.
  intros Hch. unfold rekey, hasChanged. simpl. fold (id_changed (the_model w e)).
  rewrite Hch. rewrite the_collection_with_collection_eq. simpl.
  unfold rekeyed, previous, old_key. simpl. split.
  - apply lookup_insert_eq.
  - intros Hne Hp. rewrite lookup_insert_ne by done.
    rewrite index_delete_lookup. by rewrite decide_True.
Qed.

Lemma rekey_other c c' e w :
  c' ≠ c → the_collection (rekey c' e w) c = the_collection w c.
Proof.
  intros Hc. unfold rekey. destruct (hasChanged e (Some "id") w); [|done].
  rewrite the_collection_with_collection. by rewrite decide_False.
Qed.

Lemma rekey_same c e w :
  model_heap (rekey c e w) = model_heap w ∧ log (rekey c e w) = log w.
Proof. unfold rekey. by destruct (hasChanged e (Some "id") w). Qed.

(** One callback hearing ["change"] of model [e] on ["all"]. *)
Lemma m_invoke_change m f e c w :
  let w1 := final (m_invoke m f [AStr "change"; AModel e] w) in
  model_heap w1 = model_heap w ∧
  ∃ d, log w1 = log w ++ d ∧
       (f = MBound c → Published (OCollection c) "change" [AModel e] ∈ d) ∧
       (id_changed (the_model w e) = true →
        (f = MBound c → rekeyed (the_model w e) e (the_collection w1 c)) ∧
        (rekeyed (the_model w e) e (the_collection w c) →
         rekeyed (the_model w e) e (the_collection w1 c)) ∧
        Forall (c_sees c (rekeyed (the_model w e) e)) d).
Proof.
  destruct f as [c'|n]; simpl.
  - rewrite _onModelEvent_change, c_trigger_eq by done. simpl.
    destruct (rekey_same c' e w) as [Hm Hl]. split; [done|].
    eexists. split; [by rewrite Hl|].
    split.
    { intros [= ->]. apply list_elem_of_here. }
    intros Hch. autorewrite with store.
    assert (Hown : c' = c → rekeyed (the_model w e) e
                              (the_collection (rekey c' e w) c)).
    { intros ->. by apply rekey_rekeyed. }
    split; [by intros [= ->]; auto|]. split.
    + intros HQ. destruct (decide (c' = c)) as [Hc|Hc]; [by auto|].
      by rewrite rekey_other.
    + constructor; [done|]. apply Forall_app. split;
        apply Forall_fmap, Forall_true; intros [n]; simpl; intros ->;
        by apply rekey_rekeyed.
  - split; [done|].
    exists [Invoked n (OModel m) [AStr "change"; AModel e] (model_heap w)
              (collection_heap w)].
    split; [done|]. split; [done|]. intros _. split; [done|]. split; [done|].
    by repeat constructor.
Qed.

Lemma m_deliver_change m fs e c w :
  let w' := deliver (m_invoke m) [AStr "change"; AModel e] fs w in
  model_heap w' = model_heap w ∧
  ∃ d, log w' = log w ++ d ∧
       (MBound c ∈ fs → Published (OCollection c) "change" [AModel e] ∈ d) ∧
       (id_changed (the_model w e) = true →
        (MBound c ∈ fs → rekeyed (the_model w e) e (the_collection w' c)) ∧
        (rekeyed (the_model w e) e (the_collection w c) →
         rekeyed (the_model w e) e (the_collection w' c)) ∧
        Forall (c_sees c (rekeyed (the_model w e) e)) d).
Proof.
  revert w. induction fs as [|f fs IH]; intros w; simpl.
  { split; [done|]. exists []. rewrite app_nil_r. split; [done|].
    split; [by intros ?%elem_of_nil|]. intros _.
    split; [by intros ?%elem_of_nil|]. done. }
  destruct (m_invoke_change m f e c w) as (Hm1 & d1 & Hl1 & Hp1 & Hr1).
  set (w1 := final (m_invoke m f [AStr "change"; AModel e] w)) in *.
  destruct (IH w1) as (Hm2 & d2 & Hl2 & Hp2 & Hr2).
  rewrite (the_model_same _ _ _ Hm1) in Hr2.
  split; [congruence|]. exists (d1 ++ d2). split.
  { rewrite Hl2, Hl1. by rewrite app_assoc. }
  split.
  { intros [Hf|Hin]%elem_of_cons; apply elem_of_app; auto. }
  intros Hch. destruct (Hr1 Hch) as (Ha1 & Hb1 & Hs1).
  destruct (Hr2 Hch) as (Ha2 & Hb2 & Hs2).
  split; [|split].
  - intros [Hf|Hin]%elem_of_cons; auto.
  - auto.
  - by apply Forall_app.
Qed.

Lemma published_by_elem o ev args d :
  Published o ev args ∈ d → (ev, args) ∈ published_by o d.
Proof.
  intros Hin. unfold published_by. apply list_elem_of_omap.
  exists (Published o ev args). split; [done|]. by rewrite decide_True.
Qed.

Lemma of_model_c_sees c P en : of_model en → c_sees c P en.
Proof. by destruct en as [[]|? []]. Qed.

Lemma of_model_m_calls m args w fs : Forall of_model (m_calls m args w fs).
Proof.
  induction fs as [|[c|n] fs IH]; simpl; [constructor|done|].
  by constructor.
Qed.

Lemma m_trigger_quiet m ev m' rest w :
  inherited ev = None → ev ≠ "change" → ev ≠ "error" →
  m_trigger m ev (AModel m' :: rest) w
  = Ret tt (more_log
      (Published (OModel m) ev (AModel m' :: rest)
         :: m_calls m (AModel m' :: rest) w
              (listeners (m_events (the_model w m)) ev)
         ++ m_calls m (AStr ev :: AModel m' :: rest) w
              (listeners (m_events (the_model w m)) "all")) w).
Proof.
  intros Hinh H1 H2. unfold m_trigger.
  rewrite trigger_steady
    by (done || apply m_invoke_steady;
        (apply by_library_model || apply by_library_all)).
  rewrite (m_deliver_quiet m (AModel m' :: rest)) by apply quiet_model.
  rewrite (m_deliver_quiet m (AStr ev :: _)) by by apply quiet_all.
  f_equal. unfold more_log, with_log; simpl.
  by rewrite <- !app_assoc.
Qed.

(** The loop of [set] logs entries of the model only. *)
Lemma set_each_of_model m silent attrs w :
  ∃ d, log (final (set_each m silent attrs w)) = log w ++ d ∧
       Forall of_model d.
Proof.
  revert w. induction attrs as [|[attr val] rest IH]; intros w; simpl.
  { exists []. by rewrite app_nil_r. }
  destruct (same (get m attr w) (normalize val)); [apply IH|].
  destruct silent.
  { destruct (IH (with_model m
                    (λ M, set_attributes
                            (dict_put attr (normalize val) (_attributes M)) M)
                    w))
      as (d & Hl & Hd).
    by exists d. }
  rewrite m_trigger_quiet by done. simpl.
  match goal with |- context [set_each m false rest ?w0] =>
    destruct (IH w0) as (d & Hl & Hd) end.
  eexists (_ :: (_ ++ _) ++ d). split.
  { rewrite Hl. simpl. by rewrite <- (app_assoc (log w)). }
  constructor; [done|]. apply Forall_app. split; [|done].
  apply Forall_app. split; apply of_model_m_calls.
Qed.

(** A [change] of model [e] as collection [c] hears it. *)
Lemma m_trigger_change e c w :
  ∃ w' d,
    m_trigger e "change" [AModel e] w = Ret tt w' ∧
    model_heap w' = model_heap w ∧
    log w' = log w ++ d ∧
    (MBound c ∈ listeners (m_events (the_model w e)) "all" →
     Published (OCollection c) "change" [AModel e] ∈ d) ∧
    (id_changed (the_model w e) = true →
     (MBound c ∈ listeners (m_events (the_model w e)) "all" →
      rekeyed (the_model w e) e (the_collection w' c)) ∧
     Forall (c_sees c (rekeyed (the_model w e) e)) d).
Proof.
  unfold m_trigger.
  rewrite trigger_steady
    by (done || apply m_invoke_steady;
        (apply by_library_model || apply by_library_all)).
  rewrite (m_deliver_quiet e [AModel e]) by apply quiet_model.
  change (the_model (with_log _ w) e) with (the_model w e).
  set (w0 := more_log _ _).
  destruct (m_deliver_change e (listeners (m_events (the_model w e)) "all")
              e c w0) as (Hm & d & Hl & Hp & Hr).
  eexists _, (Published (OModel e) "change" [AModel e]
                :: m_calls e [AModel e] w
                     (listeners (m_events (the_model w e)) "change") ++ d).
  split; [done|]. split; [done|]. split.
  { rewrite Hl. unfold w0, more_log, with_log; simpl.
    by rewrite <- !app_assoc. }
  split.
  { intros Hin. apply list_elem_of_further, elem_of_app. auto. }
  intros Hch. destruct (Hr Hch) as (Ha & _ & Hs). split; [done|].
  constructor; [done|]. apply Forall_app. split; [|done].
  eapply Forall_impl; [apply of_model_m_calls|]. apply of_model_c_sees.
Qed.

(** An [error] of model [e] as collection [c] hears it. *)
Lemma m_deliver_error m fs e err c w :
  MBound c ∈ fs →
  ∃ d, log (deliver (m_invoke m) [AStr "error"; AModel e; AVal err] fs w)
       = log w ++ d ∧
       Published (OCollection c) "error" [AModel e; AVal err] ∈ d.
Proof.
  assert (Hlib : by_library [AStr "error"; AModel e; AVal err])
    by apply by_library_all.
  revert w. induction fs as [|f fs IH]; intros w Hin.
  { by apply elem_of_nil in Hin. }
  simpl.
  destruct (m_invoke_echo m f _ w Hlib) as (w1 & Hw1 & [_ _ _ (d1 & Hl1 & _)] & _).
  rewrite Hw1. simpl.
  apply elem_of_cons in Hin as [<-|Hin].
  - destruct (m_deliver_echo m _ fs w1 Hlib) as [[_ _ _ (d2 & Hl2 & _)] _].
    exists (d1 ++ d2). split; [by rewrite Hl2, Hl1, app_assoc|].
    apply elem_of_app. left.
    simpl in Hw1. unfold _onModelEvent in Hw1. simpl in Hw1.
    rewrite c_trigger_eq in Hw1 by done. injection Hw1 as <-. simpl in Hl1.
    apply app_inv_head in Hl1 as <-. apply list_elem_of_here.
  - destruct (IH w1 Hin) as (d2 & Hl2 & Hin2).
    exists (d1 ++ d2). split; [by rewrite Hl2, Hl1, app_assoc|].
    apply elem_of_app. by right.
Qed.

Lemma m_trigger_error e err c w :
  MBound c ∈ listeners (m_events (the_model w e)) "all" →
  ∃ d, log (final (m_trigger e "error" [AModel e; AVal err] w)) = log w ++ d ∧
       Published (OCollection c) "error" [AModel e; AVal err] ∈ d.
Proof.
  intros Hin. unfold m_trigger.
  rewrite trigger_steady
    by (done || apply m_invoke_steady;
        (apply by_library_model || apply by_library_all)).
  rewrite (m_deliver_quiet e [AModel e; AVal err]) by apply quiet_model.
  cbn [final].
  change (the_model (with_log _ w) e) with (the_model w e).
  set (w0 := more_log _ _).
  destruct (m_deliver_error e _ e err c w0 Hin) as (d & Hl & Hd).
  exists (Published (OModel e) "error" [AModel e; AVal err]
            :: m_calls e [AModel e; AVal err] w
                 (listeners (m_events (the_model w e)) "error") ++ d).
  split.
  { rewrite Hl. unfold w0, more_log, with_log; simpl.
    by rewrite <- !app_assoc. }
  apply list_elem_of_further, elem_of_app. by right.
Qed.

(** ** The attributes after a [set] of a hash without repeated keys *)

Lemma dict_put_own k v o :
  k ≠ "__proto__" →
  own (dict_put k v o) = <[k := v]> (own o) ∧ bare (dict_put k v o) = bare o.
Proof.
  intros Hk. unfold dict_put.
  by rewrite (bool_decide_eq_false_2 (k = "__proto__")) by done.
Qed.

Lemma dict_get_put k v o k' :
  k ≠ "__proto__" →
  dict_get (dict_put k v o) k' = if decide (k' = k) then Val v else dict_get o k'.
Proof.
  intros Hk. destruct (dict_put_own k v o Hk) as [Ho Hb].
  unfold dict_get. rewrite Ho, Hb. case_decide as Hkk.
  - subst. by rewrite lookup_insert_eq.
  - by rewrite lookup_insert_ne.
Qed.

Lemma merged_other attrs now k :
  "__proto__" ∉ attrs.*1 → k ∉ attrs.*1 →
  dict_get (merged attrs now) k = dict_get now k.
Proof.
  revert now. induction attrs as [|[k' v'] rest IH]; intros now Hp Hk; simpl;
    [done|].
  apply not_elem_of_cons in Hk as [Hk Hrest].
  apply not_elem_of_cons in Hp as [Hp Hprest].
  destruct (same _ _); rewrite IH by done; [done|].
  rewrite dict_get_put by done. by rewrite decide_False.
Qed.

Lemma merged_lookup attrs now k v :
  "__proto__" ∉ attrs.*1 → NoDup attrs.*1 → hash_lookup k attrs = Some v →
  dict_get (merged attrs now) k = Val (normalize v).
Proof.
  revert now. induction attrs as [|[k' v'] rest IH]; intros now Hp Hnd Hk;
    simpl in *; [done|].
  apply NoDup_cons in Hnd as [Hk' Hnd].
  apply not_elem_of_cons in Hp as [Hp Hprest].
  case_decide as Heq.
  - subst k'. injection Hk as ->.
    destruct (same _ _) eqn:Hsame; rewrite merged_other by done.
    + unfold same in Hsame. destruct (dict_get now k) as [a|n]; [|done].
      unfold isEqual in Hsame. apply bool_decide_eq_true in Hsame. by subst.
    + rewrite dict_get_put by done. by rewrite decide_True.
  - destruct (same _ _); by apply IH.
Qed.

Lemma same_Val x v : same x v = true ↔ x = Val v.
Proof.
  destruct x as [a|n]; simpl; [|done]. unfold isEqual.
  rewrite bool_decide_eq_true. split; [by intros ->|by intros [= ->]].
Qed.

Lemma differs_lookup attrs now k v :
  NoDup attrs.*1 → hash_lookup k attrs = Some v →
  dict_get now k ≠ Val (normalize v) →
  differs attrs now = true.
Proof.
  unfold differs.
  revert now. induction attrs as [|[k' v'] rest IH]; intros now Hnd Hk Hne;
    simpl in *; [done|].
  apply NoDup_cons in Hnd as [Hk' Hnd].
  destruct (same _ _) eqn:Hsame; [|done].
  case_decide as Heq.
  - subst k'. injection Hk as ->. by apply same_Val in Hsame.
  - by apply (IH now).
Qed.

Lemma truthy_normalize v : truthy v = true → normalize v = v.
Proof. by destruct v as [| | | | |[|]]. Qed.

(** ** A write to a model as a collection hears it *)

Lemma set_valid_heard e c attrs w :
  let M := the_model w e in
  let M2 := set_changed true
              (set_attributes (merged attrs (_attributes M))
                 (with_id attrs M)) in
  MBound c ∈ listeners (m_events M) "all" →
  changed_after false attrs M = true →
  ∃ w' d,
    set_valid e (Properties attrs) false w = Ret true w' ∧
    log w' = log w ++ d ∧
    the_model w' e = committed M2 ∧
    Published (OCollection c) "change" [AModel e] ∈ d ∧
    (id_changed M2 = true →
     rekeyed M2 e (the_collection w' c) ∧
     Forall (c_sees c (rekeyed M2 e)) d).
Proof.
  intros M M2 Hbound Hch. unfold set_valid.
  set (w1 := match hash_lookup "id" attrs with
             | Some v => with_model e (set_m_id v) w
             | None => w
             end).
  assert (HM1 : the_model w1 e = with_id attrs M).
  { unfold w1, with_id. destruct (hash_lookup "id" attrs); [|done].
    by rewrite the_model_with_model_eq. }
  assert (Hl1 : log w1 = log w).
  { unfold w1. by destruct (hash_lookup "id" attrs). }
  destruct (with_id_fields attrs M) as (HA & HP & HC & HE & _).
  destruct (set_each_wrote e false attrs w1) as (w2 & Hrun & HM2 & _).
  destruct (set_each_of_model e false attrs w1) as (da & Hla & Hda).
  rewrite Hrun in *. cbn [obind final] in *.
  rewrite HM1, HA, HC in HM2.
  unfold changed_after in Hch. rewrite Hch in HM2. fold M2 in HM2.
  rewrite HM2. cbn [_changed set_changed negb andb].
  unfold change.
  destruct (m_trigger_change e c w2) as (w3 & db & -> & Hm3 & Hl3 & Hp3 & Hr3).
  cbn [obind]. rewrite HM2 in Hp3, Hr3.
  assert (HE2 : m_events M2 = m_events M) by (by unfold M2).
  rewrite HE2 in Hp3, Hr3.
  exists (with_model e committed w3), (da ++ db).
  split; [done|]. split.
  { cbn [log with_model]. rewrite Hl3, Hla, Hl1. by rewrite app_assoc. }
  split.
  { by rewrite the_model_with_model_eq, (the_model_same _ _ _ Hm3), HM2. }
  split.
  { apply elem_of_app. right. by apply Hp3. }
  intros Hid. destruct (Hr3 Hid) as [Hrk Hsees].
  rewrite the_collection_with_model. split; [by apply Hrk|].
  apply Forall_app. split; [|done].
  eapply Forall_impl; [exact Hda|]. apply of_model_c_sees.
Qed.

(** ** C7 *)

(** C7 fails on the code, which compares the old and the new id with
    [!=] and deletes the key of [previous("id")], not the key the
    model is under.
    - The member with id [7] of collection [0] is given the id
      ["7.0"] by a non-silent [set]: the [set] returns, the model has
      the id ["7.0"], the collection publishes [change] with it, and
      yet [get("7.0")] finds nothing and [get(7)] still finds the
      model, because [7 != "7.0"] is false.
    - The member with id [5] is given no id by [unset("id")] and then
      the id [7] by a non-silent [set]: [get(7)] finds it, and so does
      [get(5)]: the old key is not dropped. *)
Theorem C7_id_change_is_not_rekeyed :
  let w := member_with_id (VInt 7) in
  let w' := final (set 0 (Hash [("id", VStr "7.0")]) false w) in
  let u := member_with_id (VInt 5) in
  let u1 := final (unset 0 "id" false u) in
  let u2 := final (set 0 (Hash [("id", VInt 7)]) false u1) in
  (Collection_get 0 (RVal (VInt 7)) w = Holds 0 ∧
   returned (set 0 (Hash [("id", VStr "7.0")]) false w) = Some true ∧
   m_id (the_model w' 0) = VStr "7.0" ∧
   get 0 "id" w' = Val (VStr "7.0") ∧
   published_by (OCollection 0) (since w w') = [("change", [AModel 0])] ∧
   Collection_get 0 (RVal (VStr "7.0")) w' = Absent ∧
   Collection_get 0 (RVal (VInt 7)) w' = Holds 0) ∧
  (Collection_get 0 (RVal (VInt 5)) u = Holds 0 ∧
   returned (unset 0 "id" false u) = Some (Val (VInt 5)) ∧
   returned (set 0 (Hash [("id", VInt 7)]) false u1) = Some true ∧
   m_id (the_model u2 0) = VInt 7 ∧
   published_by (OCollection 0) (since u1 u2) = [("change", [AModel 0])] ∧
   Collection_get 0 (RVal (VInt 7)) u2 = Holds 0 ∧
   Collection_get 0 (RVal (VInt 5)) u2 = Holds 0 ∧
   models (the_collection u2 0) = [0]).
Proof. by vm_compute. Qed.

(** The scenario of the specification goes through: the member
    without id is given the id ["7"]. *)
Example rekey_of_a_member_without_id :
  let w' := final (set 0 (Hash [("id", VStr "7")]) false one_member) in
  returned (set 0 (Hash [("id", VStr "7")]) false one_member) = Some true ∧
  Collection_get 0 (RVal (VStr "7")) w' = Holds 0 ∧
  Collection_get 0 (RVal VNull) w' = Absent ∧
  _byId (the_collection w' 0) = {["7" := 0]} ∧
  published_by (OCollection 0) (since one_member w') = [("change", [AModel 0])].
Proof. by vm_compute. Qed.

(** ** What [refresh] leaves alone *)

Lemma set_others m attrs silent w x :
  x ≠ m → model_heap (final (set m attrs silent w)) !! x = model_heap w !! x.
Proof.
  intros Hx. unfold set.
  destruct (resolve attrs w) as [kvs|]; [|done].
  destruct (validation m kvs w) as [error|].
  - destruct (m_trigger_wrote m "error" [AVal error] w eq_refl)
      as (w' & -> & Hm & _).
    simpl. by rewrite Hm.
  - destruct kvs as [kvs|v]; [|done].
    destruct (set_valid_wrote m kvs silent w) as (w' & -> & _ & [_ Ho _ _]).
    simpl. by apply Ho.
Qed.

Lemma new_Model_others hook attrs w x :
  x ≠ fresh (dom (model_heap w)) →
  model_heap (final (new_Model hook attrs w)) !! x = model_heap w !! x.
Proof.
  intros Hx. unfold new_Model.
  set (m := fresh (dom (model_heap w))) in *.
  set (w1 := Build_Store _ _ _ _).
  set (a := match attrs with NoHash => Hash [] | a => a end).
  pose proof (set_others m a true w1 x Hx) as Ho.
  destruct (set m a true w1) as [b w2|err w2]; simpl in *.
  - rewrite lookup_insert_ne by done. rewrite Ho. by rewrite lookup_insert_ne.
  - rewrite Ho. by rewrite lookup_insert_ne.
Qed.

Lemma new_Model_returned hook attrs w m :
  returned (new_Model hook attrs w) = Some m → m = fresh (dom (model_heap w)).
Proof.
  unfold new_Model.
  destruct (set _ _ true _) as [b w2|err w2]; simpl; congruence.
Qed.

Lemma new_Models_others hook hs w e :
  is_Some (model_heap w !! e) →
  model_heap (final (new_Models hook hs w)) !! e = model_heap w !! e ∧
  ∀ ms, returned (new_Models hook hs w) = Some ms → e ∉ ms.
Proof.
  revert w. induction hs as [|h hs IH]; intros w He; simpl.
  { split; [done|]. intros ms [= <-]. apply not_elem_of_nil. }
  assert (Hne : e ≠ fresh (dom (model_heap w))).
  { intros ->. apply elem_of_dom in He. by apply is_fresh in He. }
  pose proof (new_Model_others hook (Hash h) w e Hne) as Ho.
  pose proof (new_Model_returned hook (Hash h) w) as Hr.
  destruct (new_Model hook (Hash h) w) as [m w1|err w1]; simpl in *.
  - destruct (IH w1) as [Hw2 Hms]; [by rewrite Ho|].
    destruct (new_Models hook hs w1) as [ms w2|err w2]; simpl in *.
    + split; [by rewrite Hw2|]. intros ms' [= <-].
      apply not_elem_of_cons. split; [|by apply Hms].
      by rewrite (Hr m eq_refl).
    + split; [by rewrite Hw2|done].
  - done.
Qed.

Lemma _add_others c m silent w x :
  x ≠ m → model_heap (final (_add c m silent w)) !! x = model_heap w !! x.
Proof.
  intros Hx. destruct (Collection_get c (RModel m) w) as [|already|n|] eqn:Hget.
  - destruct (_add_not_found c m silent w Hget) as (w' & d & -> & _ & _ & Ho & _).
    simpl. by apply Ho.
  - by rewrite (_add_found c m already silent w Hget).
  - destruct (_add_throws c m silent w) as [err ->]; [by rewrite Hget|done].
  - destruct (_add_throws c m silent w) as [err ->]; [by rewrite Hget|done].
Qed.

Lemma add_others c ms silent w x :
  x ∉ ms → model_heap (final (add c ms silent w)) !! x = model_heap w !! x.
Proof.
  revert w. induction ms as [|m ms IH]; intros w Hx; simpl; [done|].
  apply not_elem_of_cons in Hx as [Hxm Hx].
  pose proof (_add_others c m silent w x Hxm) as Ho.
  destruct (_add c m silent w) as [r w1|err w1]; simpl in *.
  - by rewrite IH.
  - done.
Qed.

Lemma refresh_others c new_models silent w e :
  is_Some (model_heap w !! e) →
  (∀ ms, new_models = Models ms → e ∉ ms) →
  model_heap (final (refresh c new_models silent w)) !! e = model_heap w !! e.
Proof.
  intros He Hnew. unfold refresh.
  set (made := match new_models with
               | NoModels => Ret [] w
               | Models ms => Ret ms w
               | Raw hs => new_Models (model (the_collection w c)) hs w
               end).
  assert (Hmade : model_heap (final made) !! e = model_heap w !! e ∧
                  ∀ ms, returned made = Some ms → e ∉ ms).
  { unfold made. destruct new_models as [|ms|hs].
    - split; [done|]. intros ms [= <-]. apply not_elem_of_nil.
    - split; [done|]. intros ms' [= <-]. by apply Hnew.
    - by apply new_Models_others. }
  destruct Hmade as [Hw1 Hms].
  destruct made as [ms w1|err w1]; simpl in *; [|done].
  set (w2 := with_collection c _initialize w1).
  pose proof (add_others c ms true w2 e (Hms ms eq_refl)) as Hadd.
  destruct (add c ms true w2) as [[] w3|err w3]; simpl in *.
  - destruct silent.
    + simpl. by rewrite Hadd.
    + rewrite c_trigger_eq by done. simpl. by rewrite Hadd.
  - by rewrite Hadd.
Qed.

(** ** C10 *)

(** C10 fails on the code, for the reason C7 does: [_onModelEvent]
    compares the old and the new id with [!=]. The member with id [7]
    of collection [0] is left out by a [refresh]; it still has the
    collection as its [collection] and [_onModelEvent] among its
    callbacks of ["all"]. A non-silent [set] then gives it the id
    ["7.0"]: the collection publishes [change] with it, and yet its
    [_byId] is not re-keyed, [get("7.0")] finds nothing. A [set] of the
    id [8] does put it into [_byId]. *)
Theorem C10_id_change_of_a_former_member_is_not_rekeyed :
  let w := former_member in
  let w' := final (set 0 (Hash [("id", VStr "7.0")]) false w) in
  let w'' := final (set 0 (Hash [("id", VInt 8)]) false w) in
  models (the_collection w 0) = [1] ∧
  collection (the_model w 0) = Some 0 ∧
  listeners (m_events (the_model w 0)) "all" = [MBound 0] ∧
  returned (set 0 (Hash [("id", VStr "7.0")]) false w) = Some true ∧
  m_id (the_model w' 0) = VStr "7.0" ∧
  published_by (OCollection 0) (since w w') = [("change", [AModel 0])] ∧
  _byId (the_collection w' 0) = {["x" := 1]} ∧
  Collection_get 0 (RVal (VStr "7.0")) w' = Absent ∧
  published_by (OCollection 0) (since w w'') = [("change", [AModel 0])] ∧
  Collection_get 0 (RVal (VInt 8)) w'' = Holds 0.
Proof. by vm_compute. Qed.

(** What holds of every former member: let [_onModelEvent] of [c] be
    among the callbacks of ["all"] of model [e], and let [c] be
    refreshed with models among which [e] is not. The [refresh] leaves
    [e] as it is. A non-silent [set] on [e] that passes the validation
    and changes [e] then returns, [c] publishes [change] with [e],
    and when [hasChanged("id")] holds at that [change], [e] is in
    [_byId] of [c] under its id and the key of [previous("id")] is
    gone, also for every subscriber of [c] called in between. A [set]
    that the hook rejects makes [c] publish [error] with [e] and the
    error. *)
Lemma refresh_keeps_old_members_bound c e new_models silent w :
  is_Some (model_heap w !! e) →
  MBound c ∈ listeners (m_events (the_model w e)) "all" →
  (∀ ms, new_models = Models ms → e ∉ ms) →
  let w1 := final (refresh c new_models silent w) in
  the_model w1 e = the_model w e ∧
  (∀ attrs kvs,
     resolve attrs w1 = Some (Properties kvs) →
     validation e (Properties kvs) w1 = None →
     changed_after false kvs (the_model w1 e) = true →
     let M2 := set_changed true
                 (set_attributes (merged kvs (_attributes (the_model w1 e)))
                    (with_id kvs (the_model w1 e))) in
     ∃ w2 d,
       set e attrs false w1 = Ret true w2 ∧
       log w2 = log w1 ++ d ∧
       ("change", [AModel e]) ∈ published_by (OCollection c) d ∧
       (id_changed M2 = true →
        rekeyed M2 e (the_collection w2 c) ∧
        Forall (c_sees c (rekeyed M2 e)) d)) ∧
  (∀ attrs kvs err,
     resolve attrs w1 = Some kvs →
     validation e kvs w1 = Some err →
     ∃ w2 d,
       set e attrs false w1 = Ret false w2 ∧
       log w2 = log w1 ++ d ∧
       ("error", [AModel e; AVal err]) ∈ published_by (OCollection c) d).
Proof.
  intros He Hbound Hnew w1.
  assert (HM : the_model w1 e = the_model w e).
  { apply the_model_lookup. by apply refresh_others. }
  split; [done|].
  assert (Hbound1 : MBound c ∈ listeners (m_events (the_model w1 e)) "all")
    by by rewrite HM.
  split.
  - intros attrs kvs Hres Hval Hch M2.
    destruct (set_valid_heard e c kvs w1 Hbound1 Hch)
      as (w2 & d & Hrun & Hl & _ & Hp & Hr).
    exists w2, d. unfold set. rewrite Hres, Hval.
    split; [done|]. split; [done|]. split; [by apply published_by_elem|].
    exact Hr.
  - intros attrs kvs err Hres Hval.
    destruct (m_trigger_error e err c w1 Hbound1) as (d & Hl & Hp).
    destruct (set_rejected e attrs kvs err false w1 Hres Hval)
      as (w2 & Hrun & _).
    exists w2, d. split; [done|].
    unfold set in Hrun. rewrite Hres, Hval in Hrun.
    destruct (m_trigger e "error" [AModel e; AVal err] w1) as [[] w3|];
      [|done].
    cbn [obind final] in *. injection Hrun as <-.
    split; [done|]. by apply published_by_elem.
Qed.
(** * Properties of the code: events

    From here on the properties are read off the code itself. *)

(** ** Subscriptions *)

Lemma table_at_insert {A} (h : hub A) c o t (ar : gmap nat (list A)) o' :
  table_at (Hub c (<[o := t]> (tables h)) ar) o'
  = if decide (o = o') then t else table_at h o'.
Proof.
  unfold table_at; simpl. case_decide.
  - subst. by rewrite lookup_insert_eq.
  - by rewrite lookup_insert_ne.
Qed.

Lemma table_at_insert_eq {A} (h : hub A) c o t (ar : gmap nat (list A)) :
  table_at (Hub c (<[o := t]> (tables h)) ar) o = t.
Proof. by rewrite table_at_insert, decide_True. Qed.

Lemma table_at_fresh {A} (h : hub A) : table_at h (fresh (dom (tables h))) = ∅.
Proof.
  unfold table_at.
  destruct (tables h !! fresh (dom (tables h))) as [l|] eqn:Hl; [|done].
  apply (elem_of_dom_2 (tables h)) in Hl. by apply is_fresh in Hl.
Qed.





(** [bind] on an object without dictionary is [bind] on the object
    with a new, empty one. *)
Lemma bound_first {A} ev (f : A) h :
  _callbacks h = None →
  bound ev f h
  = bound ev f (Hub (Some (fresh (dom (tables h))))
                    (<[fresh (dom (tables h)) := ∅]> (tables h)) (arrays h)).
Proof. intros Ho. unfold bound. by rewrite Ho. Qed.








(** On the event itself this needs nothing of the subscriptions. *)
Lemma listeners_bound_same {A} ev (f : A) h :
  listeners (bound ev f h) ev = listeners h ev ++ [f].
Proof.
  assert (Hsome : ∀ h o, _callbacks h = Some o →
            listeners (bound ev f h) ev = listeners h ev ++ [f]).
  { clear h. intros h o Ho. unfold bound, listeners. rewrite Ho; simpl.
    rewrite Ho. destruct (table_at h o !! ev) as [a|] eqn:Ha; simpl.
    - change (table_at _ o) with (table_at h o). rewrite Ha.
      by rewrite array_at_insert, decide_True.
    - rewrite table_at_insert_eq, lookup_insert_eq.
      by rewrite array_at_insert, decide_True. }
  destruct (_callbacks h) as [o|] eqn:Ho; [by eapply Hsome|].
  rewrite bound_first by done. erewrite Hsome by done.
  unfold listeners; simpl. rewrite Ho.
  by rewrite table_at_insert_eq, lookup_empty.
Qed.






(** ** Binding while an event is triggered *)

Lemma binds_adds_only a : binds a → adds_only a.
Proof. by destruct a. Qed.

Lemma binds_returning a : binds a → returning a.
Proof. by destruct a. Qed.

Lemma bound_keeps_callbacks {A} ev (f : A) h o :
  _callbacks h = Some o → _callbacks (bound ev f h) = Some o.
Proof.
  intros Ho. unfold bound. rewrite Ho. simpl. rewrite Ho.
  by destruct (table_at h o !! ev).
Qed.

Lemma run_binds_keep_callbacks acts h o :
  Forall binds acts → _callbacks h = Some o →
  _callbacks (foldl after_action h acts) = Some o.
Proof.
  intros Hacts. revert h.
  induction Hacts as [|a acts Ha _ IH]; intros h Ho; simpl; [done|].
  apply IH. destruct a as [ev f|]; [|done]. by apply bound_keeps_callbacks.
Qed.

Lemma deliver_keeps_callbacks script args fs s o :
  (∀ f, Forall binds (script f)) →
  _callbacks (Scripted.events s) = Some o →
  _callbacks (Scripted.events (deliver (Scripted.invoke script) args fs s))
  = Some o.
Proof.
  intros Hb. revert s. induction fs as [|f fs IH]; intros s Ho; simpl; [done|].
  apply IH. rewrite invoke_returning
    by (eapply Forall_impl; [apply Hb|]; apply binds_returning).
  simpl. by apply run_binds_keep_callbacks.
Qed.

(** X2: let the event [ev] not be named like a property of
    [Object.prototype], and let the subscribers called by [trigger] do
    nothing but [bind] to events that are not named so either. Then
    [trigger] returns; it calls the callbacks that are bound to the
    event at its start, in order, and no callback bound to the event
    while it runs; then it calls the callbacks that are bound to
    ["all"] when those of the event are through, so also the ones they
    have bound to ["all"], and none bound to ["all"] later. *)
Theorem X2_bind_during_trigger script ev args s :
  (∀ f, Forall binds (script f)) →
  inherited ev = None →
  let s1 := deliver (Scripted.invoke script) args
              (listeners (Scripted.events s) ev) s in
  ∃ s', Scripted.trigger script ev args s = Ret tt s' ∧
        Scripted.calls_log s'
        = Scripted.calls_log s
          ++ ((λ f, (f, args)) <$> listeners (Scripted.events s) ev)
          ++ ((λ f, (f, AStr ev :: args))
                <$> listeners (Scripted.events s1) "all").
Proof.
  intros Hb Hev s1.
  assert (Hret : ∀ f, Forall returning (script f)).
  { intros f. eapply Forall_impl; [apply Hb|]. apply binds_returning. }
  assert (Hgrow : ∀ L a args0 f s0,
            keeps Scripted.events L a s0 →
            ∃ s2, Scripted.invoke script f args0 s0 = Ret tt s2 ∧
                  keeps Scripted.events L a s2).
  { intros L a args0 f s0 Hk. rewrite invoke_returning by done.
    eexists. split; [done|].
    unfold keeps; simpl. apply run_script_grows; [|done].
    eapply Forall_impl; [apply Hb|]. apply binds_adds_only. }
  assert (Hpass : ∀ calls key args0 s0,
            inherited key = None →
            fire_list Scripted.events (Scripted.invoke script) calls key
              args0 s0
            = Ret tt (deliver (Scripted.invoke script) args0
                        (match table_at (Scripted.events s0) calls !! key with
                         | Some a => array_at (Scripted.events s0) a
                         | None => []
                         end) s0)).
  { intros calls key args0 s0 Hkey. unfold fire_list, lookup_in.
    destruct (table_at (Scripted.events s0) calls !! key) as [a|];
      [|by rewrite Hkey].
    destruct (fire_growing Scripted.events (Scripted.invoke script) a args0
                (array_at (Scripted.events s0) a)
                (length (array_at (Scripted.events s0) a)) 0 s0)
      as (s2 & Hrun & Hs2 & _);
      [by auto|unfold keeps; reflexivity|simpl; lia|].
    rewrite Hrun, Hs2. by rewrite drop_0, firstn_all. }
  unfold Scripted.trigger, trigger.
  destruct (_callbacks (Scripted.events s)) as [calls|] eqn:Hcalls.
  2:{ exists s. split; [done|]. subst s1. unfold listeners. rewrite Hcalls.
      simpl. rewrite Hcalls. by rewrite !app_nil_r. }
  rewrite Hpass by done. cbn [obind]. rewrite Hpass by done.
  eexists. split; [done|].
  assert (Hlist : match table_at (Scripted.events s) calls !! ev with
                  | Some a => array_at (Scripted.events s) a
                  | None => []
                  end = listeners (Scripted.events s) ev).
  { unfold listeners. by rewrite Hcalls. }
  rewrite Hlist. fold s1.
  assert (Hall : match table_at (Scripted.events s1) calls !! "all" with
                 | Some a => array_at (Scripted.events s1) a
                 | None => []
                 end = listeners (Scripted.events s1) "all").
  { pose proof (deliver_keeps_callbacks script args
                  (listeners (Scripted.events s) ev) s calls Hb Hcalls) as Hk.
    fold s1 in Hk. unfold listeners. by rewrite Hk. }
  rewrite Hall. rewrite scripted_deliver_log. unfold s1.
  rewrite scripted_deliver_log. by rewrite <- app_assoc.
Qed.

Lemma X2_bind_during_trigger_witness :
  ∃ s', Scripted.trigger binds_when_called "e" []
          (Scripted.start two_subscribers) = Ret tt s' ∧
        Scripted.calls_log s' = [(0, []); (1, []); (6, [AStr "e"])].
Proof.
  destruct (X2_bind_during_trigger binds_when_called "e" []
              (Scripted.start two_subscribers)) as (s' & Hrun & Hlog).
  - intros [|f]; simpl; repeat constructor.
  - reflexivity.
  - exists s'. split; [exact Hrun|]. rewrite Hlog. vm_compute. reflexivity.
Defined.

(** ** [trigger] on a collection *)

Lemma called_c_calls c args w fs :
  called (c_calls c args w fs) = calls_with args fs.
Proof.
  induction fs as [|[n] fs IH]; [done|].
  unfold called, calls_with, c_calls in *. simpl. f_equal. exact IH.
Qed.

(** X3: [trigger] on a collection, for an event that is not named
    like a property of [Object.prototype], returns and changes no model
    and no collection. It calls the subscribers bound to the event, in the
    order they were bound, with the arguments of [trigger], and then
    the subscribers bound to ["all"], in the order they were bound,
    with the name of the event before the arguments; so a subscriber
    of ["all"] is called twice by [trigger("all")]. *)
Theorem X3_trigger_calls_in_order c ev args w :
  inherited ev = None →
  ∃ w', c_trigger c ev args w = Ret tt w' ∧
        model_heap w' = model_heap w ∧
        collection_heap w' = collection_heap w ∧
        published_by (OCollection c) (since w w') = [(ev, args)] ∧
        called (since w w')
        = calls_with args (listeners (c_events (the_collection w c)) ev)
          ++ calls_with (AStr ev :: args)
               (listeners (c_events (the_collection w c)) "all").
Proof.
  intros Hev. rewrite c_trigger_eq by done. eexists. split; [done|].
  split; [done|]. split; [done|].
  unfold since, more_log. cbn [log]. rewrite drop_app_length.
  rewrite published_by_own, published_by_app, !published_by_c_calls.
  split; [done|].
  assert (Happ : ∀ l1 l2, called (l1 ++ l2) = called l1 ++ called l2).
  { intros l1 l2. apply omap_app. }
  change (called (Published ?o ?e ?a :: ?d)) with (called d).
  by rewrite Happ, !called_c_calls.
Qed.

Lemma X3_trigger_calls_in_order_witness :
  ∃ w', c_trigger 0 "all" [ACollection 0] watched_collection = Ret tt w' ∧
        called (since watched_collection w')
        = [(3, [ACollection 0]); (3, [AStr "all"; ACollection 0])].
Proof.
  destruct (X3_trigger_calls_in_order 0 "all" [ACollection 0]
              watched_collection eq_refl) as (w' & Hrun & _ & _ & _ & Hcalls).
  exists w'. split; [exact Hrun|]. rewrite Hcalls. vm_compute. reflexivity.
Defined.
(** * Properties of the code: models *)

(** ** Objects and their copies *)

Lemma for_in_Permutation keys : for_in keys ≡ₚ keys.
Proof.
  unfold for_in. rewrite merge_sort_Permutation. apply filter_app_complement.
Qed.

Lemma dict_keys_Permutation o : dict_keys o ≡ₚ (map_to_list (own o)).*1.
Proof.
  unfold dict_keys. rewrite for_in_Permutation.
  set (listed := filter _ (remove_dups (order o))).
  set (keys := (map_to_list (own o)).*1).
  assert (Hnd : NoDup keys) by apply NoDup_fst_map_to_list.
  assert (Hl : NoDup listed) by apply NoDup_filter, NoDup_remove_dups.
  assert (Hsub : ∀ k, k ∈ listed → k ∈ keys).
  { intros k [[v Hk] _]%list_elem_of_filter. unfold keys.
    apply list_elem_of_fmap. exists (k, v). split; [done|].
    by apply elem_of_map_to_list. }
  apply NoDup_Permutation; [|done|].
  - apply NoDup_app. split; [done|]. split.
    + intros k Hk [Hn _]%list_elem_of_filter. done.
    + by apply NoDup_filter.
  - intros k. rewrite elem_of_app, list_elem_of_filter. split.
    + intros [Hk|[_ Hk]]; auto.
    + intros Hk. destruct (decide (k ∈ listed)); auto.
Qed.

Lemma dict_keys_elem o k : k ∈ dict_keys o ↔ is_Some (own o !! k).
Proof.
  rewrite dict_keys_Permutation, list_elem_of_fmap. split.
  - intros ([k' v] & -> & Hin). apply elem_of_map_to_list in Hin. by exists v.
  - intros [v Hk]. exists (k, v). split; [done|]. by apply elem_of_map_to_list.
Qed.

Lemma dict_keys_NoDup o : NoDup (dict_keys o).
Proof. rewrite dict_keys_Permutation. apply NoDup_fst_map_to_list. Qed.

Lemma dict_entries_fst o : (dict_entries o).*1 = dict_keys o.
Proof.
  unfold dict_entries.
  assert (H : ∀ k, k ∈ dict_keys o → is_Some (own o !! k))
    by (intros k; apply dict_keys_elem).
  induction (dict_keys o) as [|k l IH]; [done|]. simpl.
  destruct (H k) as [v ->]; [left|]. simpl. f_equal. apply IH.
  intros k' Hk'. apply H. by right.
Qed.

Lemma dict_entries_NoDup o : NoDup (dict_entries o).*1.
Proof. rewrite dict_entries_fst. apply dict_keys_NoDup. Qed.

Lemma elem_of_dict_entries o k v : (k, v) ∈ dict_entries o ↔ own o !! k = Some v.
Proof.
  unfold dict_entries. rewrite list_elem_of_omap. split.
  - intros (k' & Hk' & Hv). destruct (own o !! k') as [v'|] eqn:Ho; [|done].
    simpl in Hv. by injection Hv as <- <-.
  - intros Hk. exists k. split; [|by rewrite Hk].
    apply dict_keys_elem. by exists v.
Qed.

Lemma hash_lookup_elem attrs k v :
  NoDup attrs.*1 → (k, v) ∈ attrs → hash_lookup k attrs = Some v.
Proof.
  induction attrs as [|[k' v'] rest IH]; intros Hnd Hin; simpl in *.
  { by apply elem_of_nil in Hin. }
  apply NoDup_cons in Hnd as [Hk' Hnd].
  apply elem_of_cons in Hin as [[= -> ->]|Hin]; [by rewrite decide_True|].
  rewrite decide_False; [by apply IH|].
  intros ->. apply Hk'. apply list_elem_of_fmap. by exists (k, v).
Qed.

Lemma hash_lookup_None attrs k : k ∉ attrs.*1 → hash_lookup k attrs = None.
Proof.
  induction attrs as [|[k' v'] rest IH]; intros Hk; simpl in *; [done|].
  apply not_elem_of_cons in Hk as [Hk Hrest].
  rewrite decide_False by done. by apply IH.
Qed.

Lemma hash_lookup_Some attrs k v : hash_lookup k attrs = Some v → (k, v) ∈ attrs.
Proof.
  induction attrs as [|[k' v'] rest IH]; simpl; [done|].
  case_decide; [intros [= ->]; subst; left|right; by apply IH].
Qed.

Lemma hash_lookup_dict_entries o k : hash_lookup k (dict_entries o) = own o !! k.
Proof.
  destruct (own o !! k) as [v|] eqn:Hk.
  - apply hash_lookup_elem; [apply dict_entries_NoDup|].
    by apply elem_of_dict_entries.
  - apply hash_lookup_None. rewrite dict_entries_fst, dict_keys_elem, Hk.
    by intros [? ?].
Qed.

(** The properties a loop of assignments leaves. *)
Lemma foldl_dict_put_sub l copy k v :
  own (foldl (λ copy kv, dict_put kv.1 kv.2 copy) copy l) !! k = Some v →
  own copy !! k = Some v ∨ (k, v) ∈ l.
Proof.
  revert copy. induction l as [|[k0 v0] l IH]; intros copy; simpl; [by left|].
  intros [H|H]%IH; [|right; by right].
  unfold dict_put in H.
  destruct (_ && _).
  { left. by destruct (bool_decide (v0 = VNull)). }
  simpl in H. apply lookup_insert_Some in H as [[<- <-]|[_ H]];
    [right; left|by left].
Qed.

Lemma foldl_dict_put_lookup l copy k :
  NoDup l.*1 → "__proto__" ∉ l.*1 →
  own (foldl (λ copy kv, dict_put kv.1 kv.2 copy) copy l) !! k
  = match hash_lookup k l with
    | Some v => Some v
    | None => own copy !! k
    end ∧
  bare (foldl (λ copy kv, dict_put kv.1 kv.2 copy) copy l) = bare copy.
Proof.
  revert copy. induction l as [|[k0 v0] l IH]; intros copy Hnd Hp; simpl in *;
    [done|].
  apply NoDup_cons in Hnd as [Hk0 Hnd].
  apply not_elem_of_cons in Hp as [Hp0 Hp].
  destruct (IH (dict_put k0 v0 copy) Hnd Hp) as [-> ->].
  destruct (dict_put_own k0 v0 copy) as [-> ->]; [done|]. split; [|done].
  case_decide as Heq.
  - subst k0. rewrite hash_lookup_None by done. apply lookup_insert_eq.
  - by rewrite lookup_insert_ne.
Qed.

Lemma dict_clone_sub o k v :
  own (dict_clone o) !! k = Some v → own o !! k = Some v.
Proof.
  intros [H|H]%foldl_dict_put_sub; [done|]. by apply elem_of_dict_entries.
Qed.

Lemma dict_clone_ordinary o :
  own o !! "__proto__" = None →
  own (dict_clone o) = own o ∧ ordinary (dict_clone o).
Proof.
  intros Hp.
  assert (Hnp : "__proto__" ∉ (dict_entries o).*1).
  { rewrite dict_entries_fst, dict_keys_elem, Hp. by intros [? ?]. }
  assert (Hown : own (dict_clone o) = own o).
  { apply map_eq. intros k. unfold dict_clone.
    destruct (foldl_dict_put_lookup (dict_entries o) ∅ k
                (dict_entries_NoDup o) Hnp) as [-> _].
    rewrite hash_lookup_dict_entries. by destruct (own o !! k). }
  split; [done|]. split; [|by rewrite Hown].
  unfold dict_clone.
  by destruct (foldl_dict_put_lookup (dict_entries o) ∅ "" 
                 (dict_entries_NoDup o) Hnp) as [_ ->].
Qed.

Lemma dict_get_clone o k :
  ordinary o → dict_get (dict_clone o) k = dict_get o k.
Proof.
  intros [Hb Hp]. destruct (dict_clone_ordinary o Hp) as [Ho [Hb' _]].
  unfold dict_get. by rewrite Ho, Hb, Hb'.
Qed.

(** A [set] of a plain hash leaves an ordinary object ordinary. *)
Lemma merged_ordinary attrs now :
  "__proto__" ∉ attrs.*1 → ordinary now → ordinary (merged attrs now).
Proof.
  revert now. induction attrs as [|[k v] rest IH]; intros now Hp Hnow; simpl;
    [done|].
  apply not_elem_of_cons in Hp as [Hp0 Hp].
  destruct (same _ _); apply IH; try done.
  destruct Hnow as [Hb Ho]. destruct (dict_put_own k (normalize v) now) as [H1 H2];
    [done|].
  split; [by rewrite H2|]. rewrite H1. by rewrite lookup_insert_ne.
Qed.

(** ** Reading what was written *)

Lemma after_set_attributes silent attrs M :
  _attributes (after_set silent attrs M) = merged attrs (_attributes M).
Proof.
  unfold after_set. destruct (with_id_fields attrs M) as (Ha & _).
  by destruct (negb silent && changed_after silent attrs M); simpl.
Qed.

Lemma after_set_id silent attrs M :
  m_id (after_set silent attrs M)
  = default (m_id M) (hash_lookup "id" attrs).
Proof.
  unfold after_set, with_id.
  by destruct (negb silent && changed_after silent attrs M),
       (hash_lookup "id" attrs).
Qed.

Lemma set_plain m attrs silent w :
  divert attrs = Properties attrs →
  validation m (Properties attrs) w = None →
  set m (Hash attrs) silent w = set_valid m (Properties attrs) silent w.
Proof. intros Hd Hval. unfold set. cbn [resolve]. by rewrite Hd, Hval. Qed.

(** X4: let a hash have no truthy [_attributes] and no key
    [__proto__], and let it pass the validation. Then [set] returns
    the model; afterwards every attribute of the hash reads as the
    value given, an empty string as [null], every other attribute reads
    as before, and the property [id] is the [id] of the hash as it was
    given. *)
Theorem X4_set_then_get m attrs silent w :
  plain attrs → validation m (Properties attrs) w = None →
  ∃ w', set m (Hash attrs) silent w = Ret true w' ∧
        (∀ k v, (k, v) ∈ attrs → get m k w' = Val (normalize v)) ∧
        (∀ k, k ∉ attrs.*1 → get m k w' = get m k w) ∧
        (∀ v, ("id", v) ∈ attrs → m_id (the_model w' m) = v) ∧
        ("id" ∉ attrs.*1 → m_id (the_model w' m) = m_id (the_model w m)).
Proof.
  intros (Hd & Hnd & Hp) Hval. rewrite set_plain by done.
  destruct (set_valid_wrote m attrs silent w) as (w' & Hset & HM & _).
  exists w'. split; [done|]. unfold get. rewrite HM, after_set_attributes.
  split; [|split; [|split]].
  - intros k v Hin. apply merged_lookup; [done|done|].
    by apply hash_lookup_elem.
  - intros k Hk. by rewrite merged_other.
  - intros v Hin. rewrite after_set_id.
    by rewrite (hash_lookup_elem _ _ _ Hnd Hin).
  - intros Hk. rewrite after_set_id. by rewrite hash_lookup_None.
Qed.

Lemma X4_set_then_get_witness :
  ∃ w', set 0 (Hash [("id", VStr ""); ("a", VInt 2)]) false one_model
        = Ret true w' ∧
        get 0 "id" w' = Val VNull ∧ get 0 "a" w' = Val (VInt 2) ∧
        m_id (the_model w' 0) = VStr "".
Proof.
  destruct (X4_set_then_get 0 [("id", VStr ""); ("a", VInt 2)] false one_model)
    as (w' & Hset & Hget & _ & Hid & _).
  - apply (bool_decide_unpack _). by vm_compute.
  - reflexivity.
  - exists w'. split; [exact Hset|].
    split; [apply (Hget "id" (VStr "")); set_solver|].
    split; [apply (Hget "a" (VInt 2)); set_solver|].
    apply Hid. set_solver.
Defined.

(** ** Writing the same hash again *)

Lemma changes_merged attrs now :
  NoDup attrs.*1 → "__proto__" ∉ attrs.*1 →
  changes attrs (merged attrs now) = [].
Proof.
  revert now. induction attrs as [|[k v] rest IH]; intros now Hnd Hp;
    simpl in *; [done|].
  apply NoDup_cons in Hnd as [Hk Hnd].
  apply not_elem_of_cons in Hp as [Hp0 Hp].
  assert (Hk' : dict_get
                  (merged rest
                     (if same (dict_get now k) (normalize v)
                      then now else dict_put k (normalize v) now)) k
                = Val (normalize v)).
  { rewrite merged_other by done.
    destruct (same _ _) eqn:Hsame.
    - by apply same_Val in Hsame.
    - rewrite dict_get_put by done. by rewrite decide_True. }
  destruct (same (dict_get now k) (normalize v));
    rewrite Hk'; rewrite (proj2 (same_Val _ _)) by done; by apply IH.
Qed.

Lemma set_each_same m silent attrs w :
  changes attrs (_attributes (the_model w m)) = [] →
  set_each m silent attrs w = Ret tt w.
Proof.
  induction attrs as [|[k v] rest IH]; simpl; [done|].
  unfold get. by destruct (same _ _).
Qed.

Lemma with_model_same m f w M :
  model_heap w !! m = Some M → f M = M → with_model m f w = w.
Proof.
  intros Hm Hf. unfold with_model, the_model. rewrite Hm; simpl. rewrite Hf.
  rewrite insert_id by done. by destruct w.
Qed.

(** The writers take no model out of the store. *)
Lemma with_model_stays m f w x :
  is_Some (model_heap w !! x) → is_Some (model_heap (with_model m f w) !! x).
Proof.
  intros Hx. unfold with_model; simpl.
  destruct (decide (m = x)) as [->|Hne].
  - by rewrite lookup_insert_eq.
  - by rewrite lookup_insert_ne.
Qed.

Lemma set_each_stays m silent attrs w x :
  is_Some (model_heap w !! x) →
  is_Some (model_heap (final (set_each m silent attrs w)) !! x).
Proof.
  revert w. induction attrs as [|[attr val] rest IH]; intros w Hx; simpl;
    [done|].
  destruct (same _ _); [by apply IH|].
  destruct silent; [by apply IH, with_model_stays|].
  destruct (m_trigger_wrote m ("change:" +:+ attr) [AVal (normalize val)]
              (with_model m (set_changed true)
                 (with_model m (λ M, set_attributes
                    (dict_put attr (normalize val) (_attributes M)) M) w))
              (inherited_change_colon attr))
    as (w' & -> & Hh & _).
  simpl. apply IH. rewrite Hh. by do 2 apply with_model_stays.
Qed.

Lemma change_stays m w x :
  is_Some (model_heap w !! x) →
  is_Some (model_heap (final (change m w)) !! x).
Proof.
  intros Hx. destruct (change_wrote m w) as (w1 & -> & Hh & _). simpl.
  apply with_model_stays. by rewrite Hh.
Qed.

Lemma set_valid_stays m attrs silent w x :
  is_Some (model_heap w !! x) →
  is_Some (model_heap (final (set_valid m attrs silent w)) !! x).
Proof.
  intros Hx. destruct attrs as [attrs|v]; [|done]. unfold set_valid.
  set (w1 := match hash_lookup "id" attrs with
             | Some v => with_model m (set_m_id v) w
             | None => w
             end).
  assert (H1 : is_Some (model_heap w1 !! x)).
  { unfold w1. destruct (hash_lookup "id" attrs); [|done].
    by apply with_model_stays. }
  pose proof (set_each_stays m silent attrs w1 x H1) as H2.
  destruct (set_each_wrote m silent attrs w1) as (w2 & Hrun & _).
  rewrite Hrun in *. simpl in *.
  destruct (negb silent && _changed (the_model w2 m)); [|done].
  pose proof (change_stays m w2 x H2) as H3.
  destruct (change_wrote m w2) as (w3 & Hc & _). rewrite Hc in *. done.
Qed.

Lemma set_stays m attrs silent w x :
  is_Some (model_heap w !! x) →
  is_Some (model_heap (final (set m attrs silent w)) !! x).
Proof.
  intros Hx. unfold set. destruct (resolve attrs w) as [kvs|]; [|done].
  destruct (validation m kvs w) as [error|]; [|by apply set_valid_stays].
  destruct (m_trigger_wrote m "error" [AVal error] w eq_refl)
    as (w' & -> & Hh & _).
  simpl. by rewrite Hh.
Qed.

(** X5: a [set] is idempotent. Let a hash have no truthy
    [_attributes], no key [__proto__] and no value [NaN], and let it
    pass the validation. After a [set] of it, the same [set] once more
    returns the model and leaves the store as it is, publishing
    nothing and calling nobody. *)
Theorem X5_set_twice m attrs silent w :
  is_Some (model_heap w !! m) →
  plain attrs → VNaN ∉ attrs.*2 →
  validation m (Properties attrs) w = None →
  let w' := final (set m (Hash attrs) silent w) in
  set m (Hash attrs) silent w' = Ret true w'.
Proof.
  intros Hm (Hd & Hnd & Hp) _ Hval w'.
  pose proof (set_stays m (Hash attrs) silent w m Hm) as Hm'.
  pose proof (set_model m (Hash attrs) silent w) as HM.
  fold w' in Hm', HM. cbn [resolve] in HM. rewrite Hd, Hval in HM.
  destruct Hm' as [M' HM'].
  assert (HM'' : the_model w' m = M') by (unfold the_model; by rewrite HM').
  rewrite HM'' in HM.
  assert (Hval' : validation m (Properties attrs) w' = None).
  { unfold validation in *. rewrite HM''. rewrite HM.
    replace (validate (after_set silent attrs (the_model w m)))
      with (validate (the_model w m)); [done|].
    unfold after_set. destruct (with_id_fields attrs (the_model w m))
      as (_ & _ & _ & _ & _ & Hv & _).
    by destruct (negb silent && _); simpl. }
  rewrite set_plain by done. unfold set_valid.
  assert (Hid : match hash_lookup "id" attrs with
                | Some v => with_model m (set_m_id v) w'
                | None => w'
                end = w').
  { destruct (hash_lookup "id" attrs) as [v|] eqn:Hv; [|done].
    apply (with_model_same m _ w' M' HM').
    assert (m_id M' = v) as <-.
    { rewrite HM, after_set_id. by rewrite Hv. }
    by destruct M'. }
  rewrite Hid. rewrite set_each_same.
  2:{ rewrite HM'', HM, after_set_attributes. by apply changes_merged. }
  simpl. rewrite HM'', HM.
  destruct silent; simpl; [done|].
  unfold after_set, changed_after; simpl.
  destruct (_changed (the_model w m) || differs attrs _); simpl; [done|].
  done.
Qed.

Lemma X5_set_twice_witness :
  set 0 (Hash [("id", VStr ""); ("a", VInt 2)]) false
    (final (set 0 (Hash [("id", VStr ""); ("a", VInt 2)]) false watched_model))
  = Ret true
      (final (set 0 (Hash [("id", VStr ""); ("a", VInt 2)]) false
                watched_model)).
Proof.
  apply (X5_set_twice 0 [("id", VStr ""); ("a", VInt 2)] false watched_model).
  - apply (bool_decide_unpack _). by vm_compute.
  - apply (bool_decide_unpack _). by vm_compute.
  - apply (bool_decide_unpack _). by vm_compute.
  - reflexivity.
Defined.

(** ** The events of a [set] *)

Lemma new_values_other attrs now k v :
  k ≠ "__proto__" → k ∉ attrs.*1 →
  new_values attrs (dict_put k v now) = new_values attrs now.
Proof.
  intros Hkp. unfold new_values.
  induction attrs as [|[k' v'] rest IH]; intros Hk; simpl in *; [done|].
  apply not_elem_of_cons in Hk as [Hk Hrest].
  rewrite !filter_cons. simpl. rewrite dict_get_put by done.
  rewrite (decide_False (P := k' = k)) by congruence.
  case_decide; [f_equal|]; by apply IH.
Qed.

Lemma changes_new_values attrs now :
  NoDup attrs.*1 → "__proto__" ∉ attrs.*1 →
  changes attrs now = new_values attrs now.
Proof.
  revert now. induction attrs as [|[k v] rest IH]; intros now Hnd Hp;
    simpl in *; [done|].
  apply NoDup_cons in Hnd as [Hk Hnd].
  apply not_elem_of_cons in Hp as [Hp0 Hp].
  unfold new_values. simpl. rewrite filter_cons. simpl.
  destruct (same (dict_get now k) (normalize v)) eqn:Hsame.
  - apply same_Val in Hsame. rewrite decide_False by (by intros ?).
    by apply IH.
  - rewrite decide_True.
    2:{ intros Heq. apply same_Val in Heq. congruence. }
    f_equal. rewrite IH by done. by apply new_values_other.
Qed.

(** X6: let a hash have no truthy [_attributes], no key [__proto__]
    and no value [NaN], and let it pass the validation. A [set] of it
    that is not silent returns the model and publishes
    [change:<attr>] with the model and the new value for every
    attribute of the hash whose value differs from the current one, in
    the order of the hash, and then one [change]; when no value differs
    and the model was not changed before, it publishes nothing. No
    other model publishes anything. *)
Theorem X6_events_of_set m attrs w :
  plain attrs → VNaN ∉ attrs.*2 →
  validation m (Properties attrs) w = None →
  let ch := new_values attrs (_attributes (the_model w m)) in
  ∃ w' d,
    set m (Hash attrs) false w = Ret true w' ∧
    log w' = log w ++ d ∧
    published_by (OModel m) d
    = ((λ kv, ("change:" +:+ kv.1, [AModel m; AVal kv.2])) <$> ch)
      ++ (if _changed (the_model w m) || bool_decide (ch ≠ [])
          then [("change", [AModel m])] else []) ∧
    (∀ m', m' ≠ m → published_by (OModel m') d = []).
Proof.
  intros (Hd & Hnd & Hp) _ Hval ch. rewrite set_plain by done.
  destruct (set_valid_wrote m attrs false w) as (w' & Hset & _ & Hw).
  destruct Hw as [_ _ _ (d & Hlog & Hpub & Hothers & _)].
  exists w', d. split; [done|]. split; [done|]. split; [|done].
  rewrite Hpub. unfold set_events, changed_after, differs, change_events.
  rewrite changes_new_values by done. fold ch.
  f_equal. by destruct ch, (_changed (the_model w m)).
Qed.

Lemma X6_events_of_set_witness :
  ∃ w' d,
    set 0 (Hash [("a", VInt 1); ("b", VStr ""); ("c", VInt 3)]) false one_model
    = Ret true w' ∧
    log w' = log one_model ++ d ∧
    published_by (OModel 0) d
    = [("change:b", [AModel 0; AVal VNull]);
       ("change:c", [AModel 0; AVal (VInt 3)]); ("change", [AModel 0])].
Proof.
  destruct (X6_events_of_set 0 [("a", VInt 1); ("b", VStr ""); ("c", VInt 3)]
              one_model) as (w' & d & Hset & Hlog & Hpub & _).
  - apply (bool_decide_unpack _). by vm_compute.
  - apply (bool_decide_unpack _). by vm_compute.
  - reflexivity.
  - exists w', d. split; [exact Hset|]. split; [exact Hlog|].
    rewrite Hpub. vm_compute. reflexivity.
Defined.

(** ** [unset] *)

(** X7: [unset] returns what the attribute read as. Afterwards the
    attribute is not among the attributes; it reads as [undefined]
    when its name is not that of a property of [Object.prototype];
    every other attribute reads as before. The property [id] of the
    model stays as it is, also when the attribute is [id]. *)
Theorem X7_unset_takes_the_attribute_out m attr silent w :
  ∃ w', unset m attr silent w = Ret (get m attr w) w' ∧
        attributes m w' !! attr = None ∧
        (inherited attr = None → get m attr w' = Val VUndefined) ∧
        (∀ k, k ≠ attr → get m k w' = get m k w) ∧
        m_id (the_model w' m) = m_id (the_model w m) ∧
        isNew m w' = isNew m w.
Proof.
  pose proof (unset_model m attr silent w) as HM.
  assert (Hret : ∃ w', unset m attr silent w = Ret (get m attr w) w').
  { destruct silent.
    - unfold unset. eauto.
    - destruct (unset_wrote m attr w) as (w' & Hrun & _). eauto. }
  destruct Hret as (w' & Hrun). rewrite Hrun in HM. simpl in HM.
  exists w'. split; [done|].
  assert (Hown : own (_attributes (the_model w' m))
                 = delete attr (own (_attributes (the_model w m))) ∧
                 bare (_attributes (the_model w' m))
                 = bare (_attributes (the_model w m)) ∧
                 m_id (the_model w' m) = m_id (the_model w m)).
  { rewrite HM. by destruct silent. }
  destruct Hown as (Hown & Hbare & Hid).
  split; [|split; [|split]].
  - unfold attributes.
    destruct (own (dict_clone _) !! attr) as [v|] eqn:Hv; [|done].
    apply dict_clone_sub in Hv. by rewrite Hown, lookup_delete_eq in Hv.
  - intros Hinh. unfold get, dict_get.
    rewrite Hown, lookup_delete_eq, Hinh. by destruct (bare _).
  - intros k Hk. unfold get, dict_get.
    by rewrite Hown, Hbare, lookup_delete_ne.
  - unfold isNew. by rewrite Hid.
Qed.

(** ** The empty string is never stored *)

Lemma normalize_not_empty v : normalize v ≠ VStr "".
Proof. by destruct v as [| | | | |[|]]. Qed.

Lemma dict_put_no_empty_string k v now :
  v ≠ VStr "" → no_empty_string (own now) →
  no_empty_string (own (dict_put k v now)).
Proof.
  intros Hv Hnow. unfold dict_put. destruct (_ && _).
  - by destruct (bool_decide (v = VNull)).
  - simpl. intros k'. rewrite lookup_insert. case_decide; [|apply Hnow].
    by intros [= ?].
Qed.

Lemma merged_no_empty_string attrs now :
  no_empty_string (own now) → no_empty_string (own (merged attrs now)).
Proof.
  revert now. induction attrs as [|[k v] rest IH]; intros now Hnow; simpl;
    [done|].
  destruct (same _ _); apply IH; [done|].
  apply dict_put_no_empty_string; [apply normalize_not_empty|done].
Qed.

Lemma dict_clone_no_empty_string o :
  no_empty_string (own o) → no_empty_string (own (dict_clone o)).
Proof. intros Ho k Hk. apply dict_clone_sub in Hk. by apply (Ho k). Qed.

Lemma after_set_no_empty_string silent attrs M :
  no_empty_string (own (_attributes M)) ∧
  no_empty_string (own (_previousAttributes M)) →
  no_empty_string (own (_attributes (after_set silent attrs M))) ∧
  no_empty_string (own (_previousAttributes (after_set silent attrs M))).
Proof.
  intros [Ha Hp].
  pose proof (merged_no_empty_string attrs _ Ha) as Hm.
  unfold after_set.
  destruct (with_id_fields attrs M) as (_ & Hp' & _).
  destruct (negb silent && _); simpl.
  - split; [done|]. by apply dict_clone_no_empty_string.
  - by rewrite Hp'.
Qed.

Lemma perform_no_empty_string m w o :
  no_empty_string (own (_attributes (the_model w m))) ∧
  no_empty_string (own (_previousAttributes (the_model w m))) →
  no_empty_string (own (_attributes (the_model (perform m w o) m))) ∧
  no_empty_string (own (_previousAttributes (the_model (perform m w o) m))).
Proof.
  intros [Ha Hp]. destruct o as [attrs silent|attr silent|]; simpl.
  - rewrite set_model. destruct (resolve attrs w) as [kvs|]; [|done].
    destruct (validation m kvs w); [done|].
    destruct kvs as [kvs|v]; [|done]. by apply after_set_no_empty_string.
  - assert (Hd : no_empty_string
                   (delete attr (own (_attributes (the_model w m))))).
    { intros k. rewrite lookup_delete. case_decide; [done|apply Ha]. }
    rewrite unset_model. destruct silent; simpl; [done|]. split; [done|].
    by apply (dict_clone_no_empty_string
                (dict_delete attr (_attributes (the_model w m)))).
  - rewrite change_model. simpl. split; [done|].
    by apply dict_clone_no_empty_string.
Qed.

Lemma set_each_silent_log m attrs w :
  log (final (set_each m true attrs w)) = log w.
Proof.
  revert w. induction attrs as [|[k v] rest IH]; intros w; simpl; [done|].
  destruct (same _ _); by rewrite IH.
Qed.

Lemma no_empty_string_empty : no_empty_string ∅.
Proof. intros k. by rewrite lookup_empty. Qed.

(** The model the constructor makes, also when it throws. *)
Lemma new_Model_no_empty_string hook attrs w :
  let m := fresh (dom (model_heap w)) in
  let M := the_model (final (new_Model hook attrs w)) m in
  no_empty_string (own (_attributes M)) ∧
  no_empty_string (own (_previousAttributes M)).
Proof.
  intros m M. subst M. unfold new_Model. fold m.
  set (M0 := Build_Model _ _ _ _ _ _ _ _).
  set (w1 := Build_Store _ _ _ _).
  set (a := match attrs with NoHash => Hash [] | a => a end).
  assert (HM1 : the_model w1 m = M0).
  { unfold the_model, w1. simpl. by rewrite lookup_insert_eq. }
  assert (H2 : no_empty_string
                 (own (_attributes (the_model (final (set m a true w1)) m))) ∧
               no_empty_string
                 (own (_previousAttributes
                         (the_model (final (set m a true w1)) m)))).
  { apply (perform_no_empty_string m w1 (Write a true)). by rewrite HM1. }
  destruct (set m a true w1) as [r w2|e w2]; simpl in *; [|done].
  rewrite the_model_with_model_eq. simpl. destruct H2 as [H2 _].
  split; [done|]. by apply dict_clone_no_empty_string.
Qed.

Lemma perform_all_no_empty_string m ops w :
  no_empty_string (own (_attributes (the_model w m))) ∧
  no_empty_string (own (_previousAttributes (the_model w m))) →
  no_empty_string (own (_attributes (the_model (foldl (perform m) w ops) m))) ∧
  no_empty_string
    (own (_previousAttributes (the_model (foldl (perform m) w ops) m))).
Proof.
  revert w. induction ops as [|o ops IH]; intros w Hw; simpl; [done|].
  by apply IH, perform_no_empty_string.
Qed.

(** X8: a model never holds the empty string: after the constructor
    and any sequence of [set], [unset] and [change], silent or not, no
    attribute and no previous attribute reads as [""]. *)
Theorem X8_the_empty_string_is_never_stored hook attrs w0 ops k :
  let m := fresh (dom (model_heap w0)) in
  let w := foldl (perform m) (final (new_Model hook attrs w0)) ops in
  get m k w ≠ Val (VStr "") ∧ previous m k w ≠ Val (VStr "").
Proof.
  intros m w.
  destruct (perform_all_no_empty_string m ops (final (new_Model hook attrs w0))
              (new_Model_no_empty_string hook attrs w0)) as [Ha Hp].
  fold w in Ha, Hp.
  assert (Hget : ∀ o, no_empty_string (own o) → dict_get o k ≠ Val (VStr "")).
  { intros o Ho. unfold dict_get. specialize (Ho k).
    destruct (own o !! k) as [v|]; [by intros [= ->]|].
    destruct (bare o); [done|]. by destruct (inherited k). }
  unfold get, previous. split; [by apply Hget|].
  destruct (String.eqb k ""); [done|]. by apply Hget.
Qed.

(** ** The constructor *)

(** What the constructor returns and leaves in the store, when the
    hook rejects what it is given or what it is given is an object. *)
Lemma new_Model_spec hook attrs w :
  let m := fresh (dom (model_heap w)) in
  (accepts hook (given attrs w) = true →
   ∃ kvs, given attrs w = Properties kvs) →
  ∃ w', new_Model hook attrs w = Ret m w' ∧
        model_heap w' = <[m := newborn hook (idCounter w) (given attrs w)]>
                          (model_heap w) ∧
        collection_heap w' = collection_heap w ∧
        idCounter w' = S (idCounter w) ∧
        log w'
        = log w ++
          match hook with
          | Some h =>
              if truthy (h (given attrs w))
              then [Published (OModel m) "error"
                      [AModel m; AVal (h (given attrs w))]]
              else []
          | None => []
          end.
Proof.
  intros m Hobj. unfold new_Model. fold m.
  set (M0 := Build_Model _ _ _ _ _ _ _ _).
  set (w1 := Build_Store _ _ _ _).
  set (a := match attrs with NoHash => Hash [] | a => a end).
  assert (HM1 : the_model w1 m = M0).
  { unfold the_model, w1. simpl. by rewrite lookup_insert_eq. }
  assert (Hres : resolve a w1 = Some (given attrs w)).
  { destruct attrs as [|kvs|m']; try done. simpl. do 3 f_equal.
    unfold the_model, w1; simpl.
    destruct (decide (m = m')) as [<-|Hne].
    - rewrite lookup_insert_eq.
      destruct (model_heap w !! m) as [M|] eqn:HM; [|done].
      apply (elem_of_dom_2 (model_heap w)) in HM. by apply is_fresh in HM.
    - by rewrite lookup_insert_ne. }
  assert (Hval : validation m (given attrs w) w1
                 = match hook with
                   | Some h => if truthy (h (given attrs w))
                               then Some (h (given attrs w)) else None
                   | None => None
                   end).
  { unfold validation. by rewrite HM1. }
  unfold set. rewrite Hres, Hval.
  assert (Hok : ∀ kvs, ∃ w2,
            set_valid m (Properties kvs) true w1 = Ret true w2 ∧
            model_heap w2 !! m = Some (after_set true kvs M0) ∧
            (∀ x, x ≠ m → model_heap w2 !! x = model_heap w !! x) ∧
            collection_heap w2 = collection_heap w ∧
            idCounter w2 = S (idCounter w) ∧ log w2 = log w).
  { intros kvs.
    pose proof (set_valid_stays m (Properties kvs) true w1 m) as Hin.
    pose proof (set_valid_wrote m kvs true w1) as (w2 & Hrun & HM & Hw).
    rewrite Hrun in Hin. simpl in Hin.
    destruct Hin as [M2 HM2]; [unfold w1; simpl; by rewrite lookup_insert_eq|].
    exists w2. split; [done|]. split.
    { rewrite HM2. f_equal. rewrite <- HM1, <- HM. unfold the_model.
      by rewrite HM2. }
    split.
    { intros x Hx. rewrite (wrote_others _ _ _ _ _ Hw) by done.
      unfold w1; simpl. by rewrite lookup_insert_ne. }
    split.
    { unfold set_valid in Hrun.
      set (w1' := match hash_lookup "id" kvs with
                  | Some v => with_model m (set_m_id v) w1
                  | None => w1
                  end) in Hrun.
      destruct (set_each_wrote m true kvs w1')
        as (w3 & Hrun3 & _ & Hc & _).
      rewrite Hrun3 in Hrun. simpl in Hrun. injection Hrun as <-.
      rewrite Hc. unfold w1'. by destruct (hash_lookup "id" kvs). }
    split; [by rewrite (wrote_counter _ _ _ _ _ Hw)|].
    unfold set_valid in Hrun.
    set (w1' := match hash_lookup "id" kvs with
                | Some v => with_model m (set_m_id v) w1
                | None => w1
                end) in Hrun.
    pose proof (set_each_silent_log m kvs w1') as Hl.
    destruct (set_each m true kvs w1') as [[] w3|]; [|done].
    simpl in Hrun, Hl. injection Hrun as <-. rewrite Hl.
    unfold w1'. by destruct (hash_lookup "id" kvs). }
  assert (Hfin : ∀ w2 M1 d,
            model_heap w2 !! m = Some M1 →
            (∀ x, x ≠ m → model_heap w2 !! x = model_heap w !! x) →
            collection_heap w2 = collection_heap w →
            idCounter w2 = S (idCounter w) → log w2 = log w ++ d →
            let w' := with_model m
                        (λ M, set_previousAttributes
                                (dict_clone (_attributes M)) M) w2 in
            model_heap w'
            = <[m := set_previousAttributes (dict_clone (_attributes M1)) M1]>
                (model_heap w) ∧
            collection_heap w' = collection_heap w ∧
            idCounter w' = S (idCounter w) ∧
            log w' = log w ++ d).
  { intros w2 M1 d HM Hx Hc Hi Hl. simpl. split; [|done].
    unfold the_model. rewrite HM. simpl.
    apply map_eq. intros x. destruct (decide (m = x)) as [<-|Hne].
    - by rewrite !lookup_insert_eq.
    - rewrite !lookup_insert_ne by done. by apply Hx. }
  unfold newborn. fold M0. unfold accepts in *.
  destruct hook as [h|]; [destruct (truthy (h (given attrs w))) eqn:Herr|].
  - unfold m_trigger, trigger. cbn [obind].
    change (the_model (with_log _ w1) m) with (the_model w1 m).
    rewrite HM1. cbn [m_events _callbacks no_events obind].
    eexists. split; [done|].
    replace (match given attrs w with
             | Properties kvs => if negb true then after_set true kvs M0 else M0
             | Primitive _ => M0
             end) with M0 by (by destruct (given attrs w)).
    apply (Hfin _ M0); try done.
    + unfold w1; simpl. by rewrite lookup_insert_eq.
    + intros x Hne. unfold w1; simpl. by rewrite lookup_insert_ne.
  - destruct Hobj as [kvs ->]; [done|].
    destruct (Hok kvs) as (w2 & Hrun & HM2 & Hx & Hc & Hi & Hl).
    rewrite Hrun. cbn [obind negb]. eexists. split; [done|].
    apply Hfin; try done. by rewrite app_nil_r.
  - destruct Hobj as [kvs ->]; [done|].
    destruct (Hok kvs) as (w2 & Hrun & HM2 & Hx & Hc & Hi & Hl).
    rewrite Hrun. cbn [obind]. eexists. split; [done|].
    apply Hfin; try done. by rewrite app_nil_r.
Qed.

(** X9: when the hook of the class finds an error in what the
    constructor is given, the constructor still returns a model: it
    has no attribute and no [id], and it has published the error,
    which nobody can have heard. *)
Theorem X9_constructor_with_rejected_attributes h attrs w :
  truthy (h (divert attrs)) = true →
  let m := fresh (dom (model_heap w)) in
  ∃ w', new_Model (Some h) (Hash attrs) w = Ret m w' ∧
        attributes m w' = ∅ ∧
        previousAttributes m w' = ∅ ∧
        m_id (the_model w' m) = VUndefined ∧
        log w' = log w ++ [Published (OModel m) "error"
                             [AModel m; AVal (h (divert attrs))]].
Proof.
  intros Herr m.
  destruct (new_Model_spec (Some h) (Hash attrs) w)
    as (w' & Hnew & Hh & _ & _ & Hl).
  { simpl. by rewrite Herr. }
  fold m in Hnew, Hh, Hl. exists w'. split; [done|].
  unfold attributes, previousAttributes, the_model.
  rewrite Hh, lookup_insert_eq. simpl in *. unfold newborn. simpl.
  rewrite Herr in *. simpl. by destruct (divert attrs).
Qed.

Lemma X9_constructor_with_rejected_attributes_witness :
  ∃ w', new_Model (Some age_hook) (Hash [("age", VInt (-1)); ("a", VInt 1)])
          empty_store = Ret 0 w' ∧
        attributes 0 w' = ∅ ∧
        previousAttributes 0 w' = ∅ ∧
        m_id (the_model w' 0) = VUndefined ∧
        log w' = log empty_store
                 ++ [Published (OModel 0) "error"
                       [AModel 0;
                        AVal (age_hook (divert [("age", VInt (-1));
                                                ("a", VInt 1)]))]].
Proof.
  apply (X9_constructor_with_rejected_attributes age_hook
           [("age", VInt (-1)); ("a", VInt 1)] empty_store).
  reflexivity.
Defined.

Lemma new_Model_accepted hook attrs w :
  plain attrs → accepts hook (Properties attrs) = true →
  let m := fresh (dom (model_heap w)) in
  ∃ w', new_Model hook (Hash attrs) w = Ret m w' ∧
        (∀ k v, (k, v) ∈ attrs → get m k w' = Val (normalize v)) ∧
        (∀ k, k ∉ attrs.*1 → get m k w' = dict_get ∅ k) ∧
        m_id (the_model w' m) = default VUndefined (hash_lookup "id" attrs) ∧
        previousAttributes m w' = attributes m w' ∧
        hasChanged m None w' = false ∧
        collection (the_model w' m) = None ∧
        cid (the_model w' m) = "c" +:+ pretty (idCounter w) ∧
        idCounter w' = S (idCounter w) ∧
        log w' = log w ∧
        collection_heap w' = collection_heap w ∧
        (∀ x, x ≠ m → model_heap w' !! x = model_heap w !! x) ∧
        validate (the_model w' m) = hook ∧
        m_events (the_model w' m) = no_events ∧
        ordinary (_attributes (the_model w' m)) ∧
        _previousAttributes (the_model w' m)
        = dict_clone (_attributes (the_model w' m)).
Proof.
  intros (Hd & Hnd & Hp) Hpass m.
  destruct (new_Model_spec hook (Hash attrs) w)
    as (w' & Hnew & Hh & Hc & Hi & Hl).
  { intros _. exists attrs. done. }
  fold m in Hnew, Hh, Hl. cbn [given] in Hh, Hl. rewrite Hd in Hh, Hl.
  exists w'. split; [done|].
  unfold get, attributes, previousAttributes, hasChanged, the_model.
  rewrite Hh, lookup_insert_eq. cbn [default].
  assert (HM : newborn hook (idCounter w) (Properties attrs)
               = let M1 := after_set true attrs
                             (Build_Model ("c" +:+ pretty (idCounter w))
                                VUndefined ∅ ∅ false None hook no_events) in
                 set_previousAttributes (dict_clone (_attributes M1)) M1).
  { unfold newborn. by rewrite Hpass. }
  rewrite HM. clear HM. cbn zeta.
  set (M0 := Build_Model _ _ _ _ _ _ _ _).
  destruct (with_id_fields attrs M0) as (_ & _ & _ & Hev & Hcol & Hv & Hcid).
  assert (Hl' : log w' = log w).
  { rewrite Hl. destruct hook as [h|]; [|by rewrite app_nil_r].
    simpl in Hpass. destruct (truthy (h (Properties attrs))); [done|].
    by rewrite app_nil_r. }
  assert (Hord : ordinary (merged attrs ∅)) by (by apply merged_ordinary).
  unfold after_set. simpl. rewrite Hcol, Hcid, Hv, Hev.
  repeat split; try done.
  - intros k v Hin. apply merged_lookup; [done|done|]. by apply hash_lookup_elem.
  - intros k Hk. by rewrite merged_other.
  - unfold with_id. by destruct (hash_lookup "id" attrs).
  - destruct Hord as [_ Hord].
    destruct (dict_clone_ordinary _ Hord) as [H1 [_ H2]].
    destruct (dict_clone_ordinary _ H2) as [H3 _]. congruence.
  - intros x Hx. by rewrite lookup_insert_ne.
  - apply Hord.
  - apply Hord.
Qed.

(** X10: let a hash have no truthy [_attributes] and no key
    [__proto__], and let it pass the validation. Then the constructor
    returns a new model whose attributes read as the values given, an
    empty string as [null], and every other name as it reads on an
    empty object; its previous attributes are its attributes, it is
    not changed, it is in no collection, its [cid] is the next unique
    id, and nothing is published. The models and collections that
    were there are as before. *)
Theorem X10_constructor hook attrs w :
  plain attrs → accepts hook (Properties attrs) = true →
  let m := fresh (dom (model_heap w)) in
  ∃ w', new_Model hook (Hash attrs) w = Ret m w' ∧
        (∀ k v, (k, v) ∈ attrs → get m k w' = Val (normalize v)) ∧
        (∀ k, k ∉ attrs.*1 → inherited k = None → get m k w' = Val VUndefined) ∧
        (∀ k n, k ∉ attrs.*1 → inherited k = Some n → get m k w' = Native n) ∧
        m_id (the_model w' m) = default VUndefined (hash_lookup "id" attrs) ∧
        previousAttributes m w' = attributes m w' ∧
        hasChanged m None w' = false ∧
        collection (the_model w' m) = None ∧
        cid (the_model w' m) = "c" +:+ pretty (idCounter w) ∧
        idCounter w' = S (idCounter w) ∧
        log w' = log w ∧
        collection_heap w' = collection_heap w ∧
        (∀ x, x ≠ m → model_heap w' !! x = model_heap w !! x).
Proof.
  intros Hplain Hpass m.
  destruct (new_Model_accepted hook attrs w Hplain Hpass)
    as (w' & H1 & H2 & H3 & H4 & H5 & H6 & H7 & H8 & H9 & H10 & H11 & H12 & _).
  exists w'. repeat split; try done.
  - intros k Hk Hinh. rewrite H3 by done. unfold dict_get. simpl.
    by rewrite lookup_empty, Hinh.
  - intros k n Hk Hinh. rewrite H3 by done. unfold dict_get. simpl.
    by rewrite lookup_empty, Hinh.
Qed.

Lemma X10_constructor_witness :
  ∃ w', new_Model (Some age_hook) (Hash [("age", VInt 2); ("name", VStr "")])
          one_model = Ret 1 w' ∧
        get 1 "age" w' = Val (VInt 2) ∧ get 1 "name" w' = Val VNull ∧
        get 1 "a" w' = Val VUndefined ∧
        cid (the_model w' 1) = "c1" ∧ log w' = log one_model.
Proof.
  destruct (X10_constructor (Some age_hook)
              [("age", VInt 2); ("name", VStr "")] one_model)
    as (w' & Hnew & Hget & Hnone & _ & _ & _ & _ & _ & Hcid & _ & Hlog & _).
  - apply (bool_decide_unpack _). by vm_compute.
  - reflexivity.
  - exists w'. split; [exact Hnew|].
    split; [apply (Hget "age" (VInt 2)); set_solver|].
    split; [apply (Hget "name" (VStr "")); set_solver|].
    split; [apply Hnone; [apply (bool_decide_unpack _); by vm_compute
                         |reflexivity]|].
    split; [exact Hcid|exact Hlog].
Defined.

(** ** [changedAttributes] *)

Lemma dict_clone_no_proto o : own (dict_clone o) !! "__proto__" = None.
Proof.
  unfold dict_clone.
  assert (Hgen : ∀ l copy,
            NoDup l.*1 →
            own copy !! "__proto__" = None →
            (bare copy = true → "__proto__" ∉ l.*1) →
            own (foldl (λ copy kv, dict_put kv.1 kv.2 copy) copy l)
              !! "__proto__" = None).
  { induction l as [|[k v] l IH]; intros copy Hnd Hown Hb; simpl in *; [done|].
    apply NoDup_cons in Hnd as [Hk Hnd]. apply IH; [done| |].
    - unfold dict_put. destruct (decide (k = "__proto__")) as [->|Hne].
      + rewrite bool_decide_eq_true_2 by done.
        destruct (bare copy) eqn:Hbare.
        { exfalso. apply Hb; [done|]. left. }
        rewrite (bool_decide_eq_true_2 _ Hown). simpl.
        by destruct (bool_decide (v = VNull)).
      + rewrite (bool_decide_eq_false_2 _ Hne). simpl.
        by rewrite lookup_insert_ne.
    - unfold dict_put. destruct (decide (k = "__proto__")) as [->|Hne].
      + intros _. done.
      + rewrite (bool_decide_eq_false_2 _ Hne). simpl. intros Hbare.
        apply Hb in Hbare. by apply not_elem_of_cons in Hbare as [_ ?]. }
  apply Hgen; [apply dict_entries_NoDup|done|done].
Qed.

Lemma changed_each_filter old now acc :
  NoDup now.*1 → "__proto__" ∉ now.*1 →
  (∀ k, k ∈ now.*1 → own (default ∅ acc) !! k = None) →
  own <$> changed_each old now acc
  = match filter (differs_from old) now with
    | [] => own <$> acc
    | ch => Some (list_to_map ch ∪ own (default ∅ acc))
    end.
Proof.
  revert acc. induction now as [|[k v] rest IH]; intros acc Hnd Hp Hacc;
    simpl in *; [done|].
  apply NoDup_cons in Hnd as [Hk Hnd].
  apply not_elem_of_cons in Hp as [Hp0 Hp].
  rewrite filter_cons. unfold differs_from at 1. simpl.
  destruct (same (dict_get old k) v) eqn:Hsame.
  - apply same_Val in Hsame. rewrite decide_False by (by intros ?).
    apply IH; [done|done|]. intros k' Hk'. apply Hacc. by right.
  - rewrite decide_True.
    2:{ unfold differs_from. simpl. intros Heq. apply same_Val in Heq.
        congruence. }
    destruct (dict_put_own k v (default ∅ acc)) as [Hown _]; [done|].
    rewrite IH; [|done|done|]; simpl.
    2:{ intros k' Hk'. rewrite Hown, lookup_insert_ne; [apply Hacc; by right|].
        by intros ->. }
    rewrite Hown.
    assert (Hnone : (list_to_map (filter (differs_from old) rest)
                       : gmap string value) !! k = None).
    { apply not_elem_of_list_to_map_1. intros Hin. apply Hk.
      apply list_elem_of_fmap in Hin as ([k' v'] & -> & Hin).
      apply list_elem_of_fmap. exists (k', v'). split; [done|].
      by apply list_elem_of_filter in Hin as [_ Hin]. }
    destruct (filter (differs_from old) rest) as [|kv ch] eqn:Hf.
    + f_equal. rewrite <- insert_union_l. simpl.
      by rewrite (left_id_L ∅ (∪)).
    + f_equal. rewrite <- (insert_union_l _ _ k v).
      by rewrite insert_union_r.
Qed.

Lemma filter_dict_entries P `{∀ kv, Decision (P kv)} o :
  (list_to_map (filter P (dict_entries o)) : gmap string value)
  = filter P (own o).
Proof.
  apply map_eq. intros k. apply option_eq. intros v.
  rewrite map_lookup_filter_Some.
  rewrite <- elem_of_list_to_map.
  2:{ eapply NoDup_fmap_fst.
      - intros k' v1 v2 [_ H1]%list_elem_of_filter [_ H2]%list_elem_of_filter.
        apply elem_of_dict_entries in H1, H2. congruence.
      - apply NoDup_filter. eapply NoDup_fmap_1, dict_entries_NoDup. }
  rewrite list_elem_of_filter, elem_of_dict_entries. tauto.
Qed.

Lemma changedAttributes_filter m w :
  changedAttributes m None w
  = (if decide (filter (differs_from (_previousAttributes (the_model w m)))
                       (attributes m w) = ∅)
     then None
     else Some (filter (differs_from (_previousAttributes (the_model w m)))
                       (attributes m w))).
Proof.
  unfold changedAttributes, attributes.
  set (old := _previousAttributes (the_model w m)).
  set (now := dict_clone (_attributes (the_model w m))).
  rewrite changed_each_filter; [|apply dict_entries_NoDup| |done].
  2:{ rewrite dict_entries_fst, dict_keys_elem. unfold now.
      rewrite dict_clone_no_proto. by intros [? ?]. }
  rewrite <- (filter_dict_entries (differs_from old) now).
  destruct (filter (differs_from old) (dict_entries now)) as [|kv ch]; simpl.
  - by rewrite decide_True.
  - rewrite decide_False by apply insert_non_empty.
    by rewrite (right_id_L ∅ (∪)).
Qed.

(** X11: on a model none of whose attributes is [NaN],
    [changedAttributes()] returns the current attributes whose value
    is not what the previous attributes read as under their name, and
    [false] when there is none. An attribute that was removed is never
    among them. *)
Theorem X11_changedAttributes m w :
  (∀ k, attributes m w !! k ≠ Some VNaN) →
  changedAttributes m None w
  = (if decide (filter (differs_from (_previousAttributes (the_model w m)))
                       (attributes m w) = ∅)
     then None
     else Some (filter (differs_from (_previousAttributes (the_model w m)))
                       (attributes m w))).
Proof. intros _. apply changedAttributes_filter. Qed.

Lemma X11_changedAttributes_witness :
  changedAttributes 0 None
    (final (set 0 (Hash [("a", VInt 1); ("toString", VUndefined)]) true
              one_model))
  = Some {["toString" := VUndefined]}.
Proof.
  rewrite X11_changedAttributes.
  - by vm_compute.
  - intros k. apply (bool_decide_unpack _). 
    assert (Hall : map_Forall (λ _ v, v ≠ VNaN)
              (attributes 0 (final (set 0 (Hash [("a", VInt 1);
                                                 ("toString", VUndefined)])
                                      true one_model))))
      by (apply (bool_decide_unpack _); by vm_compute).
    apply bool_decide_pack. intros Hk. by apply Hall in Hk.
Defined.

Lemma merged_lookup_exact attrs now k v :
  NoDup attrs.*1 → "__proto__" ∉ attrs.*1 → hash_lookup k attrs = Some v →
  own (merged attrs now) !! k
  = if decide (dict_get now k = Val (normalize v)) then own now !! k
    else Some (normalize v).
Proof.
  assert (Hother : ∀ attrs now k,
            "__proto__" ∉ attrs.*1 → k ∉ attrs.*1 →
            own (merged attrs now) !! k = own now !! k).
  { clear. induction attrs as [|[k' v'] rest IH]; intros now k Hp Hk; simpl;
      [done|].
    apply not_elem_of_cons in Hk as [Hk Hrest].
    apply not_elem_of_cons in Hp as [Hp0 Hp].
    destruct (same _ _); rewrite IH by done; [done|].
    destruct (dict_put_own k' (normalize v') now) as [-> _]; [done|].
    by rewrite lookup_insert_ne. }
  revert now. induction attrs as [|[k' v'] rest IH]; intros now Hnd Hp Hk;
    simpl in *; [done|].
  apply NoDup_cons in Hnd as [Hk' Hnd].
  apply not_elem_of_cons in Hp as [Hp0 Hp].
  case_decide as Heq.
  - subst k'. injection Hk as ->.
    destruct (same _ _) eqn:Hsame; rewrite Hother by done.
    + apply same_Val in Hsame. by rewrite decide_True.
    + rewrite decide_False.
      2:{ intros H. apply same_Val in H. congruence. }
      destruct (dict_put_own k (normalize v) now) as [-> _]; [done|].
      by rewrite lookup_insert_eq.
  - destruct (same _ _); rewrite IH by done; [done|].
    rewrite dict_get_put by done.
    rewrite (decide_False (P := k = k')) by congruence.
    destruct (dict_put_own k' (normalize v') now) as [-> _]; [done|].
    by rewrite lookup_insert_ne.
Qed.

Lemma merged_own_other attrs now k :
  "__proto__" ∉ attrs.*1 → k ∉ attrs.*1 →
  own (merged attrs now) !! k = own now !! k.
Proof.
  revert now. induction attrs as [|[k' v'] rest IH]; intros now Hp Hk; simpl;
    [done|].
  apply not_elem_of_cons in Hk as [Hk Hrest].
  apply not_elem_of_cons in Hp as [Hp0 Hp].
  destruct (same _ _); rewrite IH by done; [done|].
  destruct (dict_put_own k' (normalize v') now) as [-> _]; [done|].
  by rewrite lookup_insert_ne.
Qed.

Lemma new_values_keys attrs now : NoDup attrs.*1 → NoDup (new_values attrs now).*1.
Proof.
  intros Hnd. unfold new_values.
  induction attrs as [|[k v] rest IH]; simpl in *; [constructor|].
  apply NoDup_cons in Hnd as [Hk Hnd]. rewrite filter_cons.
  assert (Hk' : k ∉ (filter (λ kv, dict_get now kv.1 ≠ Val kv.2)
                       ((λ kv, (kv.1, normalize kv.2)) <$> rest)).*1).
  { intros Hin. apply Hk.
    apply list_elem_of_fmap in Hin as ([k1 v1] & -> & Hin).
    apply list_elem_of_filter in Hin as [_ Hin].
    apply list_elem_of_fmap in Hin as ([k2 v2] & [= -> ->] & Hin).
    apply list_elem_of_fmap. by exists (k2, v2). }
  case_decide; simpl; [|by apply IH].
  apply NoDup_cons. split; [done|by apply IH].
Qed.

Lemma elem_of_new_values attrs now k v :
  (k, v) ∈ new_values attrs now
  ↔ dict_get now k ≠ Val v ∧ ∃ v0, (k, v0) ∈ attrs ∧ v = normalize v0.
Proof.
  unfold new_values. rewrite list_elem_of_filter, list_elem_of_fmap. simpl.
  split.
  - intros (Hne & [k0 v0] & [= -> ->] & Hin). eauto.
  - intros (Hne & v0 & Hin & ->). split; [done|]. by exists (k, v0).
Qed.

Lemma dict_get_own o k v : own o !! k = Some v → dict_get o k = Val v.
Proof. intros Hk. unfold dict_get. by rewrite Hk. Qed.

Lemma filter_merged attrs now :
  NoDup attrs.*1 → "__proto__" ∉ attrs.*1 →
  filter (differs_from now) (own (merged attrs now))
  = list_to_map (new_values attrs now).
Proof.
  intros Hnd Hp. apply map_eq. intros k.
  apply option_eq. intros v.
  rewrite map_lookup_filter_Some.
  rewrite <- elem_of_list_to_map by by apply new_values_keys.
  rewrite elem_of_new_values. unfold differs_from. simpl.
  destruct (hash_lookup k attrs) as [v0|] eqn:Hv0.
  - rewrite (merged_lookup_exact _ _ _ _ Hnd Hp Hv0).
    assert (Hin0 : ∀ v1, (k, v1) ∈ attrs → v1 = v0).
    { intros v1 Hin. apply (hash_lookup_elem _ _ _ Hnd) in Hin. congruence. }
    assert (Hin : (k, v0) ∈ attrs) by by apply hash_lookup_Some.
    case_decide as Hsame.
    + split.
      * intros [Hk Hne]. by rewrite (dict_get_own _ _ _ Hk) in Hne.
      * intros (Hne & v1 & Hin1 & ->). apply Hin0 in Hin1 as ->. done.
    + split.
      * intros [[= <-] Hne]. eauto.
      * intros (Hne & v1 & Hin1 & ->). by apply Hin0 in Hin1 as ->.
  - assert (Hk : k ∉ attrs.*1).
    { intros Hin. apply list_elem_of_fmap in Hin as ([k' v'] & -> & Hin).
      apply (hash_lookup_elem _ _ _ Hnd) in Hin. simpl in *. congruence. }
    rewrite merged_own_other by done. split.
    + intros [Hk' Hne]. by rewrite (dict_get_own _ _ _ Hk') in Hne.
    + intros (_ & v1 & Hin & _). exfalso. apply Hk.
      apply list_elem_of_fmap. by exists (k, v1).
Qed.

Lemma differs_from_ext old old' (a : gmap string value) :
  (∀ k, dict_get old k = dict_get old' k) →
  filter (differs_from old) a = filter (differs_from old') a.
Proof.
  intros Hk. apply map_filter_ext. intros k v _. unfold differs_from. simpl.
  by rewrite Hk.
Qed.

(** X12: let the attributes of a model be an ordinary object without
    [NaN], and its previous attributes their copy (as they are after
    the constructor and after a [change]). After a silent [set] of a
    hash without truthy [_attributes], key [__proto__] and value [NaN]
    that passes the validation, [changedAttributes()] returns the
    attributes of the hash whose value was not the current one, with
    their new values, and [false] when there is none; after a silent
    [unset] it returns [false], whatever was removed. *)
Theorem X12_changedAttributes_after_silent_writes m attrs attr w :
  ordinary (_attributes (the_model w m)) →
  _previousAttributes (the_model w m) = dict_clone (_attributes (the_model w m)) →
  (∀ k, attributes m w !! k ≠ Some VNaN) →
  (plain attrs → VNaN ∉ attrs.*2 →
   validation m (Properties attrs) w = None →
   changedAttributes m None (final (set m (Hash attrs) true w))
   = match new_values attrs (_attributes (the_model w m)) with
     | [] => None
     | ch => Some (list_to_map ch)
     end) ∧
  changedAttributes m None (final (unset m attr true w)) = None.
Proof.
  intros Hord Hclean _. split.
  - intros (Hd & Hnd & Hp) _ Hval. rewrite changedAttributes_filter.
    unfold attributes.
    rewrite set_model. cbn [resolve]. rewrite Hd, Hval.
    rewrite after_set_attributes.
    replace (_previousAttributes (after_set true attrs (the_model w m)))
      with (dict_clone (_attributes (the_model w m))).
    2:{ rewrite <- Hclean. unfold after_set. simpl.
        by destruct (with_id_fields attrs (the_model w m)) as (_ & -> & _). }
    pose proof (merged_ordinary attrs _ Hp Hord) as [_ Hmp].
    destruct (dict_clone_ordinary _ Hmp) as [-> _].
    rewrite (differs_from_ext _ (_attributes (the_model w m)))
      by (intros k; by apply dict_get_clone).
    rewrite filter_merged by done.
    destruct (new_values attrs (_attributes (the_model w m))) as [|kv ch];
      simpl; [by rewrite decide_True|].
    by rewrite decide_False by apply insert_non_empty.
  - rewrite changedAttributes_filter.
    unfold attributes.
    rewrite unset_model. simpl. rewrite Hclean.
    rewrite decide_True; [done|].
    apply map_eq. intros k. rewrite lookup_empty.
    apply map_lookup_filter_None. right. intros v Hv. unfold differs_from.
    simpl. apply dict_clone_sub in Hv. simpl in Hv.
    apply lookup_delete_Some in Hv as [_ Hv].
    rewrite dict_get_clone by done. rewrite (dict_get_own _ _ _ Hv).
    by intros ?.
Qed.

Lemma X12_changedAttributes_after_silent_writes_witness :
  changedAttributes 0 None
    (final (set 0 (Hash [("a", VInt 1); ("b", VInt 2)]) true one_model))
  = Some {[ "b" := VInt 2 ]} ∧
  changedAttributes 0 None (final (unset 0 "a" true one_model)) = None.
Proof.
  destruct (X12_changedAttributes_after_silent_writes 0
              [("a", VInt 1); ("b", VInt 2)] "a" one_model) as [Hset Hunset].
  - split; reflexivity.
  - reflexivity.
  - intros k. 
    assert (Hall : map_Forall (λ _ v, v ≠ VNaN) (attributes 0 one_model))
      by (apply (bool_decide_unpack _); by vm_compute).
    intros Hk. by apply Hall in Hk.
  - split; [|exact Hunset]. rewrite Hset.
    + by vm_compute.
    + apply (bool_decide_unpack _). by vm_compute.
    + apply (bool_decide_unpack _). by vm_compute.
    + reflexivity.
Defined.

(** ** After a [change] *)

Lemma loosely_equal_refl x : x ≠ Val VNaN → loosely_equal x x = true.
Proof.
  destruct x as [[| |b|n| |s]|n]; simpl; try done.
  - intros _. by apply bool_decide_eq_true.
  - intros _. by apply bool_decide_eq_true.
  - intros _. by apply String.eqb_eq.
  - intros _. by apply bool_decide_eq_true.
Qed.

Lemma committed_facts M :
  ordinary (_attributes M) →
  _changed (committed M) = false ∧
  own (dict_clone (_previousAttributes (committed M)))
  = own (dict_clone (_attributes (committed M))) ∧
  ∀ k, dict_get (_previousAttributes (committed M)) k
       = dict_get (_attributes (committed M)) k.
Proof.
  intros Hord. unfold committed. simpl. split; [done|].
  destruct (dict_clone_ordinary _ (proj2 Hord)) as [H1 [_ H2]].
  destruct (dict_clone_ordinary _ H2) as [H3 _].
  split; [congruence|]. intros k. by apply dict_get_clone.
Qed.

(** X13: let the attributes of a model be an ordinary object. Once
    [change] has run, as it does at the end of a non-silent [unset]
    and of a non-silent [set] (of a hash without truthy [_attributes]
    and key [__proto__], which passes the validation) that changes the
    model or finds it changed, the previous attributes are the
    attributes: [hasChanged()] is [false], [hasChanged(attr)] is
    [false] for every attribute that is not [NaN], and [previous]
    reads every attribute as [get] does. *)
Theorem X13_after_a_change m w o :
  ordinary (_attributes (the_model w m)) →
  (o = Commit ∨ (∃ attr, o = Remove attr false) ∨
   (∃ attrs, o = Write (Hash attrs) false ∧ plain attrs ∧
             validation m (Properties attrs) w = None ∧
             changed_after false attrs (the_model w m) = true)) →
  let w' := perform m w o in
  previousAttributes m w' = attributes m w' ∧
  hasChanged m None w' = false ∧
  (∀ attr, get m attr w' ≠ Val VNaN → hasChanged m (Some attr) w' = false) ∧
  (∀ attr, attr ≠ "" → previous m attr w' = get m attr w').
Proof.
  intros Hord Ho w'.
  assert (HM : ∃ M, ordinary (_attributes M) ∧ the_model w' m = committed M).
  { unfold w'.
    destruct Ho as [->|[[attr ->]|(attrs & -> & (Hd & Hnd & Hp) & Hval & Hch)]];
      cbn [perform].
    - rewrite change_model. eauto.
    - rewrite unset_model. unfold after_unset. eexists. split; [|done].
      simpl. destruct Hord as [Hb Hown]. split; [done|]. simpl.
      apply lookup_delete_None. by right.
    - rewrite set_model. cbn [resolve]. rewrite Hd, Hval. unfold after_set.
      rewrite Hch. simpl. eexists. split; [|done]. simpl.
      by apply merged_ordinary. }
  destruct HM as (M & HordM & HM).
  destruct (committed_facts M HordM) as (Hch & Hown & Hget).
  unfold previousAttributes, attributes, hasChanged, previous, get.
  rewrite HM. split; [done|]. split; [done|]. split.
  - intros attr Hnan. destruct (String.eqb attr ""); [done|].
    rewrite Hget. by rewrite loosely_equal_refl.
  - intros attr Hattr. by rewrite (proj2 (String.eqb_neq _ _) Hattr).
Qed.

Lemma X13_after_a_change_witness :
  previousAttributes 0 (perform 0 one_model (Write (Hash [("a", VInt 2)]) false))
  = attributes 0 (perform 0 one_model (Write (Hash [("a", VInt 2)]) false)) ∧
  hasChanged 0 (Some "a")
    (perform 0 one_model (Write (Hash [("a", VInt 2)]) false)) = false.
Proof.
  destruct (X13_after_a_change 0 one_model (Write (Hash [("a", VInt 2)]) false))
    as (H1 & _ & H2 & _).
  - split; reflexivity.
  - right. right. exists [("a", VInt 2)].
    split; [reflexivity|]. split; [apply (bool_decide_unpack _); by vm_compute|].
    split; vm_compute; reflexivity.
  - split; [exact H1|]. apply H2. apply (bool_decide_unpack _). by vm_compute.
Defined.

(** After [set({a: NaN})] and its [change], [hasChanged("a")] is
    [true], and [hasChanged()] is [false]. *)
Example NaN_has_always_changed :
  let w := final (set 0 (Hash [("a", VNaN)]) false one_model) in
  hasChanged 0 None w = false ∧ hasChanged 0 (Some "a") w = true ∧
  previous 0 "a" w = get 0 "a" w.
Proof. by vm_compute. Qed.

(** ** Silent writes *)

(** X14: a silent [set] of a hash without truthy [_attributes] that
    passes the validation, and a silent [unset], are seen by nobody:
    nothing is added to the log, no event is published and no
    subscriber called; the collections, so also their indexes by [id],
    and the other models are as before. A collection that holds the
    model under its old [id] goes on finding it there, and finds
    nothing under the new one that was not there before. *)
Theorem X14_silent_writes_are_invisible m attrs attr w :
  (divert attrs = Properties attrs →
   validation m (Properties attrs) w = None →
   ∃ w', set m (Hash attrs) true w = Ret true w' ∧
         log w' = log w ∧
         collection_heap w' = collection_heap w ∧
         (∀ c v, Collection_get c (RVal v) w' = Collection_get c (RVal v) w) ∧
         (∀ x, x ≠ m → model_heap w' !! x = model_heap w !! x)) ∧
  (∃ w', unset m attr true w = Ret (get m attr w) w' ∧
         log w' = log w ∧
         collection_heap w' = collection_heap w ∧
         (∀ x, x ≠ m → model_heap w' !! x = model_heap w !! x)).
Proof.
  split.
  - intros Hd Hval. rewrite set_plain by done.
    destruct (set_valid_wrote m attrs true w) as (w' & Hrun & _ & Hw).
    exists w'. split; [done|].
    unfold set_valid in Hrun.
    set (w1 := match hash_lookup "id" attrs with
               | Some v => with_model m (set_m_id v) w
               | None => w
               end) in Hrun.
    assert (H1 : log w1 = log w ∧ collection_heap w1 = collection_heap w).
    { unfold w1. by destruct (hash_lookup "id" attrs). }
    destruct H1 as [Hl1 Hc1].
    pose proof (set_each_silent_log m attrs w1) as Hl.
    destruct (set_each_wrote m true attrs w1) as (w2 & Hrun2 & _ & Hc & _).
    rewrite Hrun2 in Hrun, Hl. simpl in Hrun, Hl. injection Hrun as <-.
    assert (Hcs : collection_heap w2 = collection_heap w) by congruence.
    split; [congruence|]. split; [done|]. split.
    + intros c v. unfold Collection_get, the_collection. by rewrite Hcs.
    + apply (wrote_others _ _ _ _ _ Hw).
  - unfold unset. eexists. split; [done|]. split; [done|]. split; [done|].
    intros x Hx. simpl. by rewrite lookup_insert_ne.
Qed.

Lemma X14_silent_writes_are_invisible_witness :
  ∃ w', set 1 (Hash [("id", VInt 99)]) true
          (final (_add 0 1 false ranked_models)) = Ret true w' ∧
        log w' = log (final (_add 0 1 false ranked_models)) ∧
        Collection_get 0 (RVal (VInt 99)) w' = Absent ∧
        Collection_get 0 (RVal (VInt 11)) w' = Holds 1.
Proof.
  destruct (X14_silent_writes_are_invisible 1 [("id", VInt 99)] "a"
              (final (_add 0 1 false ranked_models))) as [Hset _].
  destruct Hset as (w' & H1 & H2 & _ & H3 & _).
  - reflexivity.
  - vm_compute. reflexivity.
  - exists w'. split; [exact H1|]. split; [exact H2|].
    rewrite !H3. split; vm_compute; reflexivity.
Defined.

(** ** [clone] and [url] *)

Lemma copy_of_plain o :
  found_truthy (dict_get o "_attributes") = false → plain (copy_of o).
Proof.
  intros Hf. unfold copy_of. split; [|split].
  - unfold divert. rewrite hash_lookup_dict_entries.
    destruct (own (dict_clone o) !! "_attributes") as [v|] eqn:Hv; [|done].
    apply dict_clone_sub in Hv. rewrite (dict_get_own _ _ _ Hv) in Hf.
    simpl in Hf. by rewrite Hf.
  - apply dict_entries_NoDup.
  - rewrite dict_entries_fst, dict_keys_elem, dict_clone_no_proto.
    by intros [? ?].
Qed.

(** X15: let the attributes of a model be an ordinary object without
    a truthy [_attributes], and let the hook of the class accept their
    copy. Then [clone] returns a new model of the same class, in no
    collection and with no subscriber, whose attributes read as those
    of the model (an empty string would read as [null]) and have not
    changed; its property [id] is the attribute [id] of the model.
    The models and collections that were there are as before, and
    nothing is published. *)
Theorem X15_clone m w :
  is_Some (model_heap w !! m) →
  ordinary (_attributes (the_model w m)) →
  found_truthy (get m "_attributes" w) = false →
  accepts (validate (the_model w m))
          (Properties (copy_of (_attributes (the_model w m)))) = true →
  ∃ m' w',
    clone m w = Ret m' w' ∧ m' ≠ m ∧
    (∀ k, get m' k w' = normalized (get m k w)) ∧
    Val (m_id (the_model w' m')) = get m "id" w ∧
    validate (the_model w' m') = validate (the_model w m) ∧
    collection (the_model w' m') = None ∧
    m_events (the_model w' m') = no_events ∧
    hasChanged m' None w' = false ∧
    previousAttributes m' w' = attributes m' w' ∧
    (∀ x, x ≠ m' → model_heap w' !! x = model_heap w !! x) ∧
    collection_heap w' = collection_heap w ∧
    log w' = log w.
Proof.
  intros Hm Hord Hf Hpass. unfold clone.
  pose proof (copy_of_plain _ Hf) as Hplain.
  fold (copy_of (_attributes (the_model w m))).
  set (copy := copy_of (_attributes (the_model w m))) in *.
  destruct (new_Model_accepted _ copy w Hplain Hpass)
    as (w' & Hnew & Hget & Hnone & Hid & Hprev & Hch & Hcol & _ & _ & Hlog
        & Hcs & Hothers & Hval & Hev & _).
  exists (fresh (dom (model_heap w))), w'.
  split; [done|]. split.
  { intros Heq. rewrite <- Heq in Hm. apply elem_of_dom in Hm.
    by apply is_fresh in Hm. }
  destruct (dict_clone_ordinary _ (proj2 Hord)) as [Hown _].
  assert (Hin : ∀ k v, (k, v) ∈ copy
                       ↔ own (_attributes (the_model w m)) !! k = Some v).
  { intros k v. unfold copy, copy_of. by rewrite elem_of_dict_entries, Hown. }
  split.
  { intros k. unfold get at 2. unfold dict_get.
    destruct (own (_attributes (the_model w m)) !! k) as [v|] eqn:Hk; simpl.
    - apply Hget. by apply Hin.
    - rewrite Hnone.
      + unfold dict_get. simpl. rewrite lookup_empty.
        destruct Hord as [-> _]. by destruct (inherited k).
      + intros Hk'. apply list_elem_of_fmap in Hk' as ([k' v'] & -> & Hk').
        apply Hin in Hk'. simpl in Hk. congruence. }
  split.
  { rewrite Hid. unfold copy, copy_of. rewrite hash_lookup_dict_entries, Hown.
    unfold get, dict_get.
    destruct (own (_attributes (the_model w m)) !! "id"); [done|].
    by destruct (bare _). }
  done.
Qed.

Lemma X15_clone_witness :
  ∃ m' w',
    clone 0 aged_model = Ret m' w' ∧ m' ≠ 0 ∧
    get m' "age" w' = Val (VInt 1) ∧ log w' = log aged_model.
Proof.
  destruct (X15_clone 0 aged_model)
    as (m' & w' & Hrun & Hne & Hget & _ & _ & _ & _ & _ & _ & _ & _ & Hlog).
  - apply (bool_decide_unpack _). by vm_compute.
  - split; reflexivity.
  - reflexivity.
  - reflexivity.
  - exists m', w'. split; [exact Hrun|]. split; [exact Hne|].
    split; [|exact Hlog]. rewrite Hget. vm_compute. reflexivity.
Defined.

(** X16: the [url] of a model comes from the collection it is in. Once
    [_add] has put the model into a collection, it is the [url] of the
    collection for a model without [id] (or with a falsy one), and
    that [url], a slash and the [id] otherwise; once [_remove] has
    taken the model out, [url] throws a [TypeError]. *)
Theorem X16_url_follows_the_collection url_of c e silent w :
  (Collection_get c (RModel e) w = Absent →
   let w' := final (_add c e silent w) in
   Model_url url_of e w'
   = Ret (if truthy (m_id (the_model w e))
          then VStr (to_key (url_of c) +:+ "/" +:+ to_key (m_id (the_model w e)))
          else url_of c) w') ∧
  (∀ r, Collection_get c r w = Holds e →
        let w' := final (_remove c r silent w) in
        Model_url url_of e w' = Throw TypeError w').
Proof.
  split.
  - intros Hget.
    destruct (_add_not_found c e silent w Hget) as (w' & d & -> & _ & HM & _).
    simpl. unfold Model_url, isNew. rewrite HM. simpl.
    by destruct (truthy (m_id (the_model w e))).
  - intros r Hget.
    destruct (_remove_resolved c r e silent w Hget)
      as (w' & d & -> & _ & HM & _).
    simpl. unfold Model_url. by rewrite HM.
Qed.

Lemma X16_url_follows_the_collection_witness :
  Collection_get 0 (RModel 1) ranked_models = Absent ∧
  Model_url (λ _, VStr "/docs") 1 (final (_add 0 1 false ranked_models))
  = Ret (if truthy (m_id (the_model ranked_models 1))
         then VStr (to_key (VStr "/docs") +:+ "/"
                    +:+ to_key (m_id (the_model ranked_models 1)))
         else VStr "/docs")
        (final (_add 0 1 false ranked_models)).
Proof.
  assert (H : Collection_get 0 (RModel 1) ranked_models = Absent)
    by (vm_compute; reflexivity).
  split; [exact H|].
  exact (proj1 (X16_url_follows_the_collection (λ _, VStr "/docs") 0 1 false
                  ranked_models) H).
Defined.
(** * Properties of the code: collections *)

(** ** [_add] *)

Lemma elem_of_splice_insert {A} start (x y : A) l :
  y ∈ splice_insert start x l ↔ y = x ∨ y ∈ l.
Proof.
  unfold splice_insert. cbv zeta. rewrite elem_of_app, elem_of_cons.
  assert (Hl : y ∈ l ↔ y ∈ take (splice_start start (length l)) l
                       ∨ y ∈ drop (splice_start start (length l)) l).
  { by rewrite <- elem_of_app, take_drop. }
  tauto.
Qed.

Lemma length_splice_insert {A} start (x : A) l :
  length (splice_insert start x l) = S (length l).
Proof.
  unfold splice_insert. cbv zeta. rewrite length_app. simpl.
  pose proof (f_equal length (take_drop (splice_start start (length l)) l))
    as Hl.
  rewrite length_app in Hl. lia.
Qed.

Lemma splice_insert_end {A} (x : A) l :
  splice_insert (Z.of_nat (length l)) x l = l ++ [x].
Proof.
  unfold splice_insert, splice_start.
  rewrite (proj2 (Z.ltb_ge _ _)) by lia.
  rewrite Z.min_id, Nat2Z.id. by rewrite firstn_all, drop_all.
Qed.

(** X17: [_add] of a model for which [get] finds nothing returns the
    model and puts it into the collection: the model is among the
    models, which are one more, [getByCid] finds it (when its [cid] is
    not empty), [get] finds it by the model when its [id] is not
    [null] or [undefined] and by the [id] itself when the [id] is
    truthy, and the model refers to the collection and is listened to
    by it. A falsy [id], such as [0], is never found by [get]. Without
    comparator, and with [length] the number of models, the model is
    the last one. *)
Theorem X17_add_then_get c e silent w :
  Collection_get c (RModel e) w = Absent →
  ∃ w', _add c e silent w = Ret e w' ∧
        e ∈ models (the_collection w' c) ∧
        length (models (the_collection w' c))
        = S (length (models (the_collection w c))) ∧
        c_length (the_collection w' c) = (c_length (the_collection w c) + 1)%Z ∧
        (cid (the_model w e) ≠ "" → getByCid c (inl e) w' = Holds e) ∧
        (not_nullish (m_id (the_model w e)) = true →
         Collection_get c (RModel e) w' = Holds e) ∧
        Collection_get c (RVal (m_id (the_model w e))) w'
        = (if truthy (m_id (the_model w e)) then Holds e else Absent) ∧
        collection (the_model w' e) = Some c ∧
        MBound c ∈ listeners (m_events (the_model w' e)) "all" ∧
        (comparator (the_collection w c) = None →
         c_length (the_collection w c)
         = Z.of_nat (length (models (the_collection w c))) →
         models (the_collection w' c) = models (the_collection w c) ++ [e]).
Proof.
  intros Hget.
  destruct (_add_not_found c e silent w Hget)
    as (w' & d & Hrun & HC & HM & _).
  exists w'. split; [done|].
  unfold getByCid, Collection_get. rewrite HC, HM. simpl.
  split; [apply elem_of_splice_insert; by left|].
  split; [apply length_splice_insert|].
  split; [done|].
  split.
  { intros Hcid. rewrite (proj2 (String.eqb_neq _ _) Hcid).
    apply index_at_own, lookup_insert_eq. }
  split; [intros ->; apply index_at_own, lookup_insert_eq|].
  split; [destruct (truthy _); [apply index_at_own, lookup_insert_eq|done]|].
  split; [done|].
  split.
  - rewrite listeners_bound_same. apply elem_of_app. right.
    apply list_elem_of_here.
  - intros Hcmp Hlen. unfold index_for. rewrite Hcmp, Hlen.
    apply splice_insert_end.
Qed.

Lemma X17_add_then_get_witness :
  ∃ w', _add 0 1 false ranked_models = Ret 1 w' ∧
        getByCid 0 (inl 1) w' = Holds 1 ∧
        Collection_get 0 (RVal (VInt 11)) w' = Holds 1 ∧
        collection (the_model w' 1) = Some 0.
Proof.
  destruct (X17_add_then_get 0 1 false ranked_models)
    as (w' & Hrun & _ & _ & _ & Hcid & _ & Hid & Hcol & _).
  - vm_compute. reflexivity.
  - exists w'. split; [exact Hrun|].
    split; [apply Hcid; vm_compute; discriminate|].
    split; [|exact Hcol].
    replace (VInt 11) with (m_id (the_model ranked_models 1))
      by (vm_compute; reflexivity).
    rewrite Hid. vm_compute. reflexivity.
Defined.

(** ** [_add] and then [_remove] *)

Lemma indexOf_from_app i l1 e l2 :
  e ∉ l1 → indexOf_from i (l1 ++ e :: l2) e = (i + Z.of_nat (length l1))%Z.
Proof.
  revert i. induction l1 as [|x l1 IH]; intros i Hin; simpl.
  - rewrite decide_True by done. lia.
  - apply not_elem_of_cons in Hin as [Hne Hin].
    rewrite decide_False by done. rewrite IH by done. lia.
Qed.

Lemma splice_delete_first l1 e l2 :
  e ∉ l1 →
  splice_delete (indexOf (l1 ++ e :: l2) e) (l1 ++ e :: l2) = l1 ++ l2.
Proof.
  intros Hin. unfold indexOf. rewrite indexOf_from_app by done. simpl.
  unfold splice_delete, splice_start. cbv zeta.
  rewrite (proj2 (Z.ltb_ge _ _)) by lia.
  rewrite Z.min_l by (rewrite length_app; simpl; lia).
  replace (Z.to_nat (0 + Z.of_nat (length l1))) with (length l1) by lia.
  rewrite take_app_length.
  change (S (length l1)) with (1 + length l1).
  rewrite Nat.add_comm, drop_app_add. done.
Qed.

Lemma splice_delete_insert (start : Z) e (l : list nat) :
  e ∉ l →
  splice_delete (indexOf (splice_insert start e l) e) (splice_insert start e l)
  = l.
Proof.
  intros Hin. unfold splice_insert. cbv zeta.
  set (i := splice_start start (length l)).
  rewrite splice_delete_first; [apply take_drop|].
  intros H. apply Hin. apply elem_of_take in H as (j & Hj & _).
  apply list_elem_of_lookup. eauto.
Qed.

Lemma remove_first_snoc {A} `{EqDecision A} (x : A) l :
  remove_first x (l ++ [x]) ≡ₚ l ∧ (x ∉ l → remove_first x (l ++ [x]) = l).
Proof.
  induction l as [|y l [IHp IHe]]; simpl.
  - rewrite decide_True by done. done.
  - case_decide as Hxy.
    + subst y. split; [|intros H; exfalso; apply H; left].
      rewrite <- Permutation_cons_append. done.
    + split; [by rewrite IHp|].
      intros Hin. apply not_elem_of_cons in Hin as [_ Hin]. by rewrite IHe.
Qed.

Lemma index_at_Absent o k :
  index_at o k = Absent →
  o !! k = None ∧ o !! "__proto__" = None ∧ inherited k = None.
Proof.
  unfold index_at, lookup_in. destruct (o !! k) eqn:Hk; [done|].
  case_bool_decide as Hp; [done|].
  destruct (inherited k); [done|]. intros _. split; [done|]. split; [|done].
  destruct (o !! "__proto__"); [|done]. exfalso. apply Hp. by eexists.
Qed.

Lemma inherited_proto : inherited "__proto__" = Some the_prototype.
Proof. done. Qed.

Lemma index_delete_insert k x o :
  o !! k = None → k ≠ "__proto__" → index_delete k (<[k := x]> o) = o.
Proof.
  intros Hk Hp. unfold index_delete. rewrite bool_decide_eq_false_2 by done.
  rewrite delete_insert_eq. by apply delete_id.
Qed.

(** X18: [_remove] undoes [_add]. When a model with an [id] that is
    not [null] or [undefined], which is not among the models and for
    which [get] finds nothing, is added and then removed through the
    model, [_remove] returns the model, and the models, [length] and
    the index by [id] of the collection are as before the [_add]; the
    model is not found by its [cid] if it was not before, refers to no
    collection, and has the same subscribers as before. *)
Theorem X18_add_then_remove c e silent silent' w :
  Collection_get c (RModel e) w = Absent →
  not_nullish (m_id (the_model w e)) = true →
  e ∉ models (the_collection w c) →
  ∃ w1 w2,
    _add c e silent w = Ret e w1 ∧
    _remove c (RModel e) silent' w1 = Ret (Some e) w2 ∧
    models (the_collection w2 c) = models (the_collection w c) ∧
    c_length (the_collection w2 c) = c_length (the_collection w c) ∧
    _byId (the_collection w2 c) = _byId (the_collection w c) ∧
    (getByCid c (inl e) w = Absent → getByCid c (inl e) w2 = Absent) ∧
    collection (the_model w2 e) = None ∧
    listeners (m_events (the_model w2 e)) "all"
    ≡ₚ listeners (m_events (the_model w e)) "all" ∧
    (MBound c ∉ listeners (m_events (the_model w e)) "all" →
     listeners (m_events (the_model w2 e)) "all"
     = listeners (m_events (the_model w e)) "all").
Proof.
  intros Hget Hid Hin.
  destruct (_add_not_found c e silent w Hget)
    as (w1 & d1 & Hrun1 & HC1 & HM1 & _).
  assert (Hkey : _byId (the_collection w c) !! to_key (m_id (the_model w e))
                 = None ∧ to_key (m_id (the_model w e)) ≠ "__proto__").
  { unfold Collection_get in Hget. rewrite Hid in Hget.
    apply index_at_Absent in Hget as (H1 & _ & H3). split; [done|].
    intros Heq. by rewrite Heq in H3. }
  destruct Hkey as [Hkey Hproto].
  assert (Hget1 : Collection_get c (RModel e) w1 = Holds e).
  { unfold Collection_get. rewrite HC1, HM1. simpl. rewrite Hid.
    apply index_at_own, lookup_insert_eq. }
  destruct (_remove_resolved c (RModel e) e silent' w1 Hget1)
    as (w2 & d2 & Hrun2 & HC2 & HM2 & _).
  assert (Hl : listeners (m_events (the_model w2 e)) "all"
               = remove_first (MBound c)
                   (listeners (m_events (the_model w e)) "all" ++ [MBound c])).
  { rewrite HM2, HM1.
    rewrite <- (listeners_bound_same "all" (MBound c)
                  (m_events (the_model w e))).
    by apply listeners_unbind. }
  assert (Hcol : collection (the_model w2 e) = None) by by rewrite HM2.
  assert (Hcid : cid (the_model w2 e) = cid (the_model w e))
    by by rewrite HM2, HM1.
  assert (Hid2 : m_id (the_model w2 e) = m_id (the_model w e))
    by by rewrite HM2, HM1.
  exists w1, w2. split; [done|]. split; [done|].
  rewrite Hl, Hcol. clear Hl Hcol.
  unfold getByCid, Model_toString. rewrite Hcid, Hid2, HC2.
  unfold without_member.
  rewrite HC1, HM1. simpl.
  split; [by apply splice_delete_insert|].
  split; [lia|].
  split; [by apply index_delete_insert|].
  split.
  { set (B := _byCid (the_collection w c)).
    set (k := cid (the_model w e)).
    set (k' := if String.eqb k "" then _ else k).
    intros Habs. apply index_at_Absent in Habs as (H1 & H2 & H3).
    assert (Hkp : k ≠ "__proto__").
    { intros Hk. unfold k' in H3. rewrite Hk in H3. simpl in H3. done. }
    unfold index_at, lookup_in, index_delete.
    rewrite (bool_decide_eq_false_2 _ Hkp).
    assert (Hp' : delete k (<[k := e]> B) !! "__proto__" = None).
    { rewrite delete_insert_eq. apply lookup_delete_None. by right. }
    assert (Hk' : delete k (<[k := e]> B) !! k' = None).
    { rewrite delete_insert_eq. apply lookup_delete_None. by right. }
    rewrite Hk', Hp', H3. by rewrite bool_decide_eq_false_2 by by intros [? ?]. }
  split; [done|].
  apply remove_first_snoc.
Qed.

Lemma X18_add_then_remove_witness :
  ∃ w1 w2,
    _add 0 1 false ranked_models = Ret 1 w1 ∧
    _remove 0 (RModel 1) false w1 = Ret (Some 1) w2 ∧
    models (the_collection w2 0) = models (the_collection ranked_models 0) ∧
    c_length (the_collection w2 0) = c_length (the_collection ranked_models 0).
Proof.
  destruct (X18_add_then_remove 0 1 false false ranked_models)
    as (w1 & w2 & H1 & H2 & H3 & H4 & _).
  - vm_compute. reflexivity.
  - vm_compute. reflexivity.
  - apply (bool_decide_unpack _). vm_compute. exact I.
  - exists w1, w2. split; [exact H1|]. split; [exact H2|].
    split; [exact H3|exact H4].
Defined.

Lemma splice_delete_last {A} (l : list A) :
  splice_delete (-1) l = removelast l.
Proof.
  unfold splice_delete, splice_start. simpl.
  destruct l as [|x l] using rev_ind; [done|].
  rewrite removelast_last, length_app. simpl.
  replace (Z.to_nat (Z.max (Z.of_nat (length l + 1) + -1) 0)) with (length l)
    by lia.
  rewrite take_app_length.
  rewrite drop_app_ge by lia.
  replace (S (length l) - length l) with 1 by lia. simpl.
  by rewrite app_nil_r.
Qed.

(** X19: [remove] by a name of [Object.prototype], such as
    ['constructor']. When [get] finds for the reference something
    inherited and no model, [_remove] throws a TypeError, silent or
    not, after it has deleted the key ["undefined"] from both indexes
    and taken the last model out of the array: [length] is as before,
    no model is changed and nothing is published. So [length] is then
    one more than the number of models, if it was that number and
    there was a model; and a last model that had another [id] than
    ["undefined"] is still found by [get] though it is no longer
    among the models. *)
Theorem X19_remove_by_an_inherited_name c r n silent w :
  Collection_get c r w = Proto n →
  ∃ w', _remove c r silent w = Throw TypeError w' ∧
        models (the_collection w' c)
        = removelast (models (the_collection w c)) ∧
        c_length (the_collection w' c) = c_length (the_collection w c) ∧
        _byId (the_collection w' c)
        = index_delete "undefined" (_byId (the_collection w c)) ∧
        _byCid (the_collection w' c)
        = index_delete "undefined" (_byCid (the_collection w c)) ∧
        model_heap w' = model_heap w ∧
        log w' = log w ∧
        (∀ v e, to_key v ≠ "undefined" →
                Collection_get c (RVal v) w = Holds e →
                Collection_get c (RVal v) w' = Holds e).
Proof.
  intros Hget. unfold _remove. rewrite Hget. eexists. split; [done|].
  autorewrite with store. simpl. autorewrite with store. simpl.
  split; [apply splice_delete_last|].
  repeat (split; [done|]).
  intros v e Hv. unfold Collection_get. autorewrite with store. simpl.
  autorewrite with store. simpl.
  destruct (truthy v); [|done].
  intros He%index_at_Holds. apply index_at_own.
  rewrite index_delete_lookup. rewrite decide_False; [done|].
  intros [Heq _]. by apply Hv.
Qed.

Lemma X19_remove_by_an_inherited_name_witness :
  ∃ w', _remove 0 (RVal (VStr "constructor")) false
          (final (_add 0 1 false ranked_models)) = Throw TypeError w' ∧
        models (the_collection w' 0) = [] ∧
        c_length (the_collection w' 0) = 1%Z ∧
        Collection_get 0 (RVal (VInt 11)) w' = Holds 1.
Proof.
  destruct (X19_remove_by_an_inherited_name 0 (RVal (VStr "constructor"))
              Object_function false (final (_add 0 1 false ranked_models)))
    as (w' & H1 & H2 & H3 & _ & _ & _ & _ & H4).
  - vm_compute. reflexivity.
  - exists w'. split; [exact H1|].
    split; [rewrite H2; vm_compute; reflexivity|].
    split; [rewrite H3; vm_compute; reflexivity|].
    apply H4; [vm_compute; discriminate|]. vm_compute. reflexivity.
Defined.

Lemma sortBy_insert_perm crit x l : sortBy_insert crit x l ≡ₚ x :: l.
Proof.
  induction l as [|y l IH]; simpl; [done|].
  destruct (crit x <=? crit y)%Z; [done|].
  rewrite IH. apply Permutation_swap.
Qed.

Lemma sortBy_perm l crit : sortBy l crit ≡ₚ l.
Proof.
  unfold sortBy. induction l as [|x l IH]; simpl; [done|].
  by rewrite sortBy_insert_perm, IH.
Qed.

(** ** [sort] *)

Lemma sortBy_sorted crit l : ascending crit l → sortBy l crit = l.
Proof.
  unfold sortBy, ascending. induction 1 as [|x l Hl IH Hx]; simpl; [done|].
  rewrite IH. destruct l as [|y l']; simpl; [done|].
  apply Forall_cons in Hx as [Hxy _].
  by rewrite (proj2 (Z.leb_le _ _)).
Qed.

Lemma sort_spec c silent w cmp :
  comparator (the_collection w c) = Some cmp →
  sort c silent w
  = Ret tt (more_log
      (if silent then []
       else Published (OCollection c) "refresh" [ACollection c]
            :: c_calls c [ACollection c]
                 (with_collection c (λ C,
                    set_models (sortBy (models C) (criterion cmp w)) C) w)
                 (listeners (c_events (the_collection w c)) "refresh")
            ++ c_calls c [AStr "refresh"; ACollection c]
                 (with_collection c (λ C,
                    set_models (sortBy (models C) (criterion cmp w)) C) w)
                 (listeners (c_events (the_collection w c)) "all"))
      (with_collection c (λ C,
         set_models (sortBy (models C) (criterion cmp w)) C) w)).
Proof.
  intros Hcmp. unfold sort. rewrite Hcmp.
  destruct silent.
  - f_equal. unfold more_log. rewrite app_nil_r.
    by destruct (with_collection _ _ _).
  - rewrite c_trigger_eq by done.
    by rewrite the_collection_with_collection_eq.
Qed.

(** X20: [sort] on a collection without comparator throws and changes
    nothing. With a comparator it returns, the models are the same
    models in ascending order of the comparator, and exactly as they
    were when they were in that order already; [length], the indexes
    and the models themselves are as before, and the collection
    publishes one [refresh] with itself, or nothing when silent. *)
Theorem X20_sort c silent w :
  match comparator (the_collection w c) with
  | None =>
      sort c silent w
      = Throw (Error "Cannot sort a set without a comparator" VUndefined) w
  | Some cmp =>
      ∃ w',
        sort c silent w = Ret tt w' ∧
        models (the_collection w' c) ≡ₚ models (the_collection w c) ∧
        in_order c cmp w' ∧
        (in_order c cmp w →
         models (the_collection w' c) = models (the_collection w c)) ∧
        c_length (the_collection w' c) = c_length (the_collection w c) ∧
        _byId (the_collection w' c) = _byId (the_collection w c) ∧
        _byCid (the_collection w' c) = _byCid (the_collection w c) ∧
        model_heap w' = model_heap w ∧
        published_by (OCollection c) (since w w')
        = (if silent then [] else [("refresh", [ACollection c])])
  end.
Proof.
  destruct (comparator (the_collection w c)) as [cmp|] eqn:Hcmp.
  2:{ unfold sort. by rewrite Hcmp. }
  rewrite (sort_spec _ _ _ _ Hcmp). eexists. split; [done|].
  rewrite the_collection_more_log, the_collection_with_collection_eq. simpl.
  split; [apply sortBy_perm|].
  split.
  { unfold in_order.
    rewrite the_collection_more_log, the_collection_with_collection_eq. simpl.
    apply (ascending_ext (criterion cmp w)); [done|]. apply sortBy_ascending. }
  split; [intros Hord; by apply sortBy_sorted|].
  repeat (split; [done|]).
  unfold since, more_log. cbn [log with_collection]. rewrite drop_app_length.
  destruct silent; [done|]. simpl. rewrite decide_True by done.
  by rewrite published_by_app, !published_by_c_calls.
Qed.

(** ** Collections with a comparator *)



















(** ** [add] of an array *)




(** ** What a collection hears and publishes *)

Lemma since_app w w' d : log w' = log w ++ d → since w w' = d.
Proof. intros Hl. unfold since. by rewrite Hl, drop_app_length. Qed.

Lemma published_by_of_model c d :
  Forall of_model d → published_by (OCollection c) d = [].
Proof.
  induction 1 as [|en d Hen _ IH]; [done|].
  destruct en as [[m|c'] ev args|n [m|c'] args ms cs]; simpl in *; done.
Qed.

Lemma c_trigger_heard c' c ev args w :
  inherited ev = None →
  ∃ w' d, c_trigger c' ev args w = Ret tt w' ∧
          model_heap w' = model_heap w ∧
          log w' = log w ++ d ∧
          published_by (OCollection c) d
          = if decide (c' = c) then [(ev, args)] else [].
Proof.
  intros Hev. rewrite c_trigger_eq by done. eexists _, _.
  split; [done|]. split; [done|]. split; [done|].
  case_decide as H1.
  - subst c'. rewrite published_by_own, published_by_app.
    by rewrite !published_by_c_calls.
  - rewrite published_by_other by congruence.
    by rewrite published_by_app, !published_by_c_calls.
Qed.

Lemma _onModelEvent_heard c' c ev e rest w :
  ∃ w' d, _onModelEvent c' (AStr ev :: AModel e :: rest) w = Ret tt w' ∧
          model_heap w' = model_heap w ∧
          log w' = log w ++ d ∧
          published_by (OCollection c) d
          = if decide (c' = c) then forwarded ev (AModel e :: rest) else [].
Proof.
  unfold forwarded.
  destruct (decide (ev = "change")) as [->|Hev].
  { rewrite _onModelEvent_change.
    destruct (c_trigger_heard c' c "change" [AModel e] (rekey c' e w) eq_refl)
      as (w' & d & Hrun & Hm & Hl & Hp).
    destruct (rekey_same c' e w) as [Hm0 Hl0].
    exists w', d. rewrite Hrun, Hm, Hl, Hp, Hm0, Hl0. done. }
  destruct (decide (ev = "error")) as [->|Hev'].
  { apply (c_trigger_heard c' c "error" [AModel e; nth_arg 0 rest]). done. }
  rewrite _onModelEvent_quiet by by apply quiet_all.
  exists w, []. rewrite app_nil_r. by case_decide.
Qed.

Lemma m_deliver_heard m c ev e rest fs w :
  ∃ d, model_heap (deliver (m_invoke m) (AStr ev :: AModel e :: rest) fs w)
       = model_heap w ∧
       log (deliver (m_invoke m) (AStr ev :: AModel e :: rest) fs w)
       = log w ++ d ∧
       published_by (OCollection c) d
       = mjoin (replicate (bound_times c fs) (forwarded ev (AModel e :: rest))).
Proof.
  revert w. induction fs as [|f fs IH]; intros w; simpl.
  { exists []. by rewrite app_nil_r. }
  unfold bound_times. rewrite filter_cons.
  destruct f as [c'|n]; simpl.
  - destruct (_onModelEvent_heard c' c ev e rest w)
      as (w1 & d1 & -> & Hm1 & Hl1 & Hp1). cbn [final].
    destruct (IH w1) as (d2 & Hm2 & Hl2 & Hp2).
    exists (d1 ++ d2). rewrite Hm2, Hl2, Hm1, Hl1, <- app_assoc.
    split; [done|]. split; [done|].
    rewrite published_by_app, Hp1, Hp2. unfold bound_times.
    case_decide as H1; case_decide as H2; try congruence; done.
  - destruct (IH (call_user n (OModel m) (AStr ev :: AModel e :: rest) w))
      as (d2 & Hm2 & Hl2 & Hp2).
    eexists (_ :: d2). rewrite Hm2, Hl2. simpl. rewrite <- app_assoc.
    split; [done|]. split; [done|].
    exact Hp2.
Qed.

(** A [trigger] on a model as collection [c] hears it. *)
Lemma m_trigger_heard m c ev e rest w :
  inherited ev = None →
  ∃ w' d, m_trigger m ev (AModel e :: rest) w = Ret tt w' ∧
          model_heap w' = model_heap w ∧
          log w' = log w ++ d ∧
          published_by (OCollection c) d
          = mjoin (replicate
                     (bound_times c (listeners (m_events (the_model w m)) "all"))
                     (forwarded ev (AModel e :: rest))).
Proof.
  intros Hinh. unfold m_trigger.
  rewrite trigger_steady
    by (done || apply m_invoke_steady;
        (apply by_library_model || apply by_library_all)).
  rewrite (m_deliver_quiet m (AModel e :: rest)) by apply quiet_model.
  change (the_model (with_log _ w) m) with (the_model w m).
  set (w0 := more_log _ _).
  destruct (m_deliver_heard m c ev e rest
              (listeners (m_events (the_model w m)) "all") w0)
    as (d & Hm & Hl & Hp).
  eexists _, _. split; [done|]. split; [by rewrite Hm|].
  split.
  { rewrite Hl. unfold w0, more_log, with_log; simpl.
    by rewrite <- !app_assoc. }
  assert (Hq : ∀ args w1 fs,
            published_by (OCollection c) (m_calls m args w1 fs) = []).
  { intros args w1 fs. apply published_by_of_model, of_model_m_calls. }
  by rewrite !published_by_app, Hp, !Hq.
Qed.

Lemma mjoin_replicate_singleton {A} n (x : A) :
  mjoin (replicate n [x]) = replicate n x.
Proof. induction n as [|n IH]; simpl; [done|]. by rewrite IH. Qed.

Lemma set_heard c e attrs silent w :
  published_by (OCollection c)
    (since w (final (set e (Hash attrs) silent w)))
  = match validation e (divert attrs) w with
    | Some err =>
        replicate (bound_times c (listeners (m_events (the_model w e)) "all"))
          ("error", [AModel e; AVal err])
    | None =>
        match divert attrs with
        | Properties kvs =>
            if negb silent && changed_after silent kvs (the_model w e)
            then replicate
                   (bound_times c (listeners (m_events (the_model w e)) "all"))
                   ("change", [AModel e])
            else []
        | Primitive _ => []
        end
    end.
Proof.
  unfold set. cbn [resolve]. destruct (validation e (divert attrs) w) as [err|].
  { destruct (m_trigger_heard e c "error" e [AVal err] w eq_refl)
      as (w' & d & -> & _ & Hl & Hp).
    simpl. rewrite (since_app _ _ _ Hl), Hp.
    apply mjoin_replicate_singleton. }
  destruct (divert attrs) as [kvs|v].
  2:{ simpl. unfold since. by rewrite drop_all. }
  unfold set_valid.
  set (w1 := match hash_lookup "id" kvs with
             | Some v => with_model e (set_m_id v) w
             | None => w
             end).
  assert (Hl1 : log w1 = log w).
  { unfold w1. by destruct (hash_lookup "id" kvs). }
  assert (HM1 : the_model w1 e = with_id kvs (the_model w e)).
  { unfold w1, with_id. destruct (hash_lookup "id" kvs); [|done].
    by rewrite the_model_with_model_eq. }
  destruct (with_id_fields kvs (the_model w e))
    as (Ha & _ & Hch & Hev & _).
  destruct (set_each_wrote e silent kvs w1) as (w2 & Hrun & HM2 & _).
  destruct (set_each_of_model e silent kvs w1) as (d1 & Hl2 & Hd1).
  rewrite Hrun in *. simpl in Hl2. cbn [obind].
  assert (Hch2 : _changed (the_model w2 e)
                 = changed_after silent kvs (the_model w e)).
  { rewrite HM2, HM1. unfold changed_after. simpl. rewrite Hch, Ha.
    by destruct silent. }
  assert (Hev2 : m_events (the_model w2 e) = m_events (the_model w e)).
  { rewrite HM2, HM1. simpl. done. }
  rewrite Hch2.
  destruct (negb silent && changed_after silent kvs (the_model w e)).
  - unfold change.
    destruct (m_trigger_heard e c "change" e [] w2 eq_refl)
      as (w3 & d2 & -> & _ & Hl3 & Hp).
    simpl. rewrite Hev2 in Hp.
    rewrite (since_app _ _ (d1 ++ d2)).
    2:{ cbn [log with_model]. rewrite Hl3, Hl2, Hl1. by rewrite app_assoc. }
    rewrite published_by_app, (published_by_of_model _ _ Hd1), Hp.
    apply mjoin_replicate_singleton.
  - simpl. rewrite (since_app _ _ d1) by by rewrite Hl2, Hl1.
    by apply published_by_of_model.
Qed.

(** X23: of what a member says a collection repeats [change] and
    [error], and nothing else. During a [set], of a hash without the
    value [NaN], on a model the collection publishes, once for every
    time its [_onModelEvent] is bound to ["all"] on the model: [error]
    with the model and the error when the validation fails, silent or
    not; [change] with the model when the [set] is not silent and
    changes the model; and nothing otherwise, never a [change:<attr>],
    and nothing when the hash has a truthy [_attributes] that passes
    the validation, on which [set] throws. *)
Theorem X23_what_a_collection_repeats c e attrs silent w :
  VNaN ∉ attrs.*2 →
  published_by (OCollection c)
    (since w (final (set e (Hash attrs) silent w)))
  = match validation e (divert attrs) w with
    | Some err =>
        replicate (bound_times c (listeners (m_events (the_model w e)) "all"))
          ("error", [AModel e; AVal err])
    | None =>
        match divert attrs with
        | Properties kvs =>
            if negb silent && changed_after silent kvs (the_model w e)
            then replicate
                   (bound_times c (listeners (m_events (the_model w e)) "all"))
                   ("change", [AModel e])
            else []
        | Primitive _ => []
        end
    end.
Proof. intros _. apply set_heard. Qed.

Lemma X23_what_a_collection_repeats_witness :
  published_by (OCollection 0)
    (since one_member (final (set 0 (Hash [("a", VInt 1)]) false one_member)))
  = [("change", [AModel 0])] ∧
  published_by (OCollection 0)
    (since one_member
       (final (set 0 (Hash [("_attributes", VInt 5)]) false one_member)))
  = [].
Proof.
  split.
  - rewrite X23_what_a_collection_repeats.
    + vm_compute. reflexivity.
    + apply (bool_decide_unpack _). by vm_compute.
  - rewrite X23_what_a_collection_repeats.
    + vm_compute. reflexivity.
    + apply (bool_decide_unpack _). by vm_compute.
Defined.

Lemma bound_times_remove_first c l :
  bound_times c (remove_first (MBound c) l) = pred (bound_times c l).
Proof.
  unfold bound_times. induction l as [|f l IH]; simpl; [done|].
  rewrite filter_cons. destruct (decide (MBound c = f)) as [<-|Hne].
  - by rewrite decide_True.
  - rewrite decide_False by done. rewrite filter_cons.
    by rewrite decide_False.
Qed.

(** X24: a model that [_remove] has taken out of a collection is no
    longer heard by it: when [_onModelEvent] of the collection was
    bound to the model once at most, the collection publishes nothing
    during a later [set] on the model, whether the [set] changes the
    model or fails the validation. *)
Theorem X24_removed_model_is_not_heard c r e silent attrs silent' w :
  Collection_get c r w = Holds e →
  bound_times c (listeners (m_events (the_model w e)) "all") ≤ 1 →
  let w1 := final (_remove c r silent w) in
  published_by (OCollection c)
    (since w1 (final (set e (Hash attrs) silent' w1))) = [].
Proof.
  intros Hget Hn w1.
  destruct (_remove_resolved_facts c r e silent w Hget)
    as (w' & d & Hrun & _ & _ & _ & _ & _ & Hl & _).
  assert (Hw1 : w1 = w') by (unfold w1; by rewrite Hrun).
  rewrite set_heard, Hw1, Hl, bound_times_remove_first.
  replace (pred _) with 0 by lia.
  destruct (validation e (divert attrs) w'); [done|].
  destruct (divert attrs) as [kvs|v]; [|done].
  by destruct (negb silent' && changed_after silent' kvs (the_model w' e)).
Qed.

Lemma X24_removed_model_is_not_heard_witness :
  published_by (OCollection 0)
    (since (final (_remove 0 (RModel 1) false
                     (final (_add 0 1 false ranked_models))))
       (final (set 1 (Hash [("rank", VInt 5)]) false
                 (final (_remove 0 (RModel 1) false
                           (final (_add 0 1 false ranked_models)))))))
  = [].
Proof.
  apply (X24_removed_model_is_not_heard 0 (RModel 1) 1 false
           [("rank", VInt 5)] false (final (_add 0 1 false ranked_models))).
  - vm_compute. reflexivity.
  - apply (bool_decide_unpack _). vm_compute. exact I.
Defined.

(** ** [refresh] with object literals *)

Lemma newborn_accepted hook n attrs :
  accepts hook (Properties attrs) = true →
  newborn hook n (Properties attrs)
  = let M1 := after_set true attrs
                (Build_Model ("c" +:+ pretty n) VUndefined ∅ ∅ false None hook
                             no_events) in
    set_previousAttributes (dict_clone (_attributes M1)) M1.
Proof. intros Hpass. unfold newborn. by rewrite Hpass. Qed.

Lemma newborn_get hook n attrs k :
  accepts hook (Properties attrs) = true → plain attrs →
  dict_get (_attributes (newborn hook n (Properties attrs))) k
  = match hash_lookup k attrs with
    | Some v => Val (normalize v)
    | None => dict_get ∅ k
    end.
Proof.
  intros Hpass (_ & Hnd & Hp). rewrite newborn_accepted by done. cbn zeta.
  cbn [_attributes set_previousAttributes]. rewrite after_set_attributes.
  simpl. destruct (hash_lookup k attrs) as [v|] eqn:Hk.
  - by apply merged_lookup.
  - rewrite merged_other; [done|done|].
    intros Hin. apply list_elem_of_fmap in Hin as ([k' v'] & -> & Hin).
    apply (hash_lookup_elem _ _ _ Hnd) in Hin. simpl in *. congruence.
Qed.

Lemma newborn_id hook n attrs :
  accepts hook (Properties attrs) = true →
  m_id (newborn hook n (Properties attrs)) = id_of attrs.
Proof.
  intros Hpass. rewrite newborn_accepted by done. cbn zeta.
  cbn [m_id set_previousAttributes]. by rewrite after_set_id.
Qed.

(** The models [new_Models] makes. *)
Lemma new_Models_spec hook hs w :
  Forall (λ h, plain h ∧ accepts hook (Properties h) = true) hs →
  ∃ ms w', new_Models hook hs w = Ret ms w' ∧
           collection_heap w' = collection_heap w ∧
           log w' = log w ∧
           NoDup ms ∧
           (∀ x, is_Some (model_heap w !! x) →
                 (x ∉ ms) ∧ model_heap w' !! x = model_heap w !! x) ∧
           Forall2 (λ m h, ∃ n, the_model w' m = newborn hook n (Properties h))
                   ms hs.
Proof.
  intros Hpass. revert w.
  induction Hpass as [|h hs [Hplain Hh] _ IH]; intros w; simpl.
  { exists [], w. repeat split; try done; [constructor|apply not_elem_of_nil]. }
  assert (Hd : divert h = Properties h) by apply Hplain.
  destruct (new_Model_spec hook (Hash h) w) as (w1 & -> & Hh1 & Hc1 & _ & Hl1).
  { intros _. exists h. done. }
  cbn [obind given] in *. rewrite Hd in *.
  set (m := fresh (dom (model_heap w))) in *.
  destruct (IH w1) as (ms & w2 & -> & Hc2 & Hl2 & Hnd & Hold & Hnew).
  cbn [obind].
  assert (Hm1 : is_Some (model_heap w1 !! m)).
  { rewrite Hh1, lookup_insert_eq. by eexists. }
  destruct (Hold m Hm1) as [Hm Hm2].
  exists (m :: ms), w2. split; [done|]. split; [congruence|].
  split.
  { rewrite Hl2, Hl1. destruct hook as [h0|]; [|by rewrite app_nil_r].
    simpl in Hh. destruct (truthy (h0 (Properties h)));
      [done|by rewrite app_nil_r]. }
  split; [by constructor|].
  split.
  { intros x Hx.
    assert (Hne : x ≠ m).
    { intros ->. apply elem_of_dom in Hx. by apply is_fresh in Hx. }
    assert (Hx1 : model_heap w1 !! x = model_heap w !! x)
      by by rewrite Hh1, lookup_insert_ne.
    destruct (Hold x) as [Hx2 Hx3]; [by rewrite Hx1|].
    split; [by apply not_elem_of_cons|congruence]. }
  constructor; [|done].
  exists (idCounter w). unfold the_model. rewrite Hm2, Hh1.
  by rewrite lookup_insert_eq.
Qed.

Lemma _add_silent_log c m w : log (final (_add c m true w)) = log w.
Proof.
  unfold _add. destruct (Collection_get c (RModel m) w); try done.
  by rewrite m_bind_all.
Qed.

Lemma index_at_free o k :
  o !! k = None → o !! "__proto__" = None → inherited k = None →
  index_at o k = Absent.
Proof.
  intros Hk Hp Hinh. unfold index_at, lookup_in. rewrite Hk, Hp, Hinh.
  rewrite bool_decide_eq_false_2; [done|]. by intros [? ?].
Qed.

(** [add], silently, of models with distinct ids that are not in the
    index and are not named like a property of [Object.prototype]. *)
Lemma add_new_ids c ms w :
  comparator (the_collection w c) = None →
  c_length (the_collection w c)
  = Z.of_nat (length (models (the_collection w c))) →
  _byId (the_collection w c) !! "__proto__" = None →
  Forall (λ m, not_nullish (m_id (the_model w m)) = true ∧
               inherited (to_key (m_id (the_model w m))) = None ∧
               _byId (the_collection w c) !! to_key (m_id (the_model w m))
               = None) ms →
  NoDup ((λ m, to_key (m_id (the_model w m))) <$> ms) →
  ∃ w', add c ms true w = Ret tt w' ∧
        models (the_collection w' c) = models (the_collection w c) ++ ms ∧
        c_length (the_collection w' c)
        = (c_length (the_collection w c) + Z.of_nat (length ms))%Z ∧
        (∀ m, m ∈ ms →
              _byId (the_collection w' c) !! to_key (m_id (the_model w m))
              = Some m) ∧
        (∀ k, k ∉ (λ m, to_key (m_id (the_model w m))) <$> ms →
              _byId (the_collection w' c) !! k
              = _byId (the_collection w c) !! k) ∧
        (∀ x, _attributes (the_model w' x) = _attributes (the_model w x)) ∧
        (∀ x, m_id (the_model w' x) = m_id (the_model w x)) ∧
        log w' = log w.
Proof.
  revert w. induction ms as [|m ms IH]; intros w Hcmp Hlen Hproto Hnew Hnd;
    simpl.
  { exists w. rewrite app_nil_r. repeat split; try done; [lia|].
    by intros m ?%elem_of_nil. }
  apply Forall_cons in Hnew as [(Hid & Hinh & Hkey) Hnew].
  simpl in Hnd. apply NoDup_cons in Hnd as [Hm Hnd].
  assert (Hget : Collection_get c (RModel m) w = Absent).
  { unfold Collection_get. rewrite Hid. by apply index_at_free. }
  destruct (_add_not_found c m true w Hget)
    as (w1 & d & Hrun & HC & HM & Hx & _).
  rewrite Hrun. cbn [obind].
  pose proof (_add_silent_log c m w) as Hl1.
  rewrite Hrun in Hl1. cbn [final] in Hl1.
  assert (Hid1 : ∀ x, m_id (the_model w1 x) = m_id (the_model w x)).
  { intros x. destruct (decide (x = m)) as [->|Hne]; [by rewrite HM|].
    by rewrite (the_model_lookup _ _ _ (Hx x Hne)). }
  assert (Ha1 : ∀ x, _attributes (the_model w1 x) = _attributes (the_model w x)).
  { intros x. destruct (decide (x = m)) as [->|Hne]; [by rewrite HM|].
    by rewrite (the_model_lookup _ _ _ (Hx x Hne)). }
  assert (Hm1 : models (the_collection w1 c)
                = models (the_collection w c) ++ [m]).
  { rewrite HC. simpl. unfold index_for. rewrite Hcmp, Hlen.
    apply splice_insert_end. }
  assert (Hkeys : (λ x, to_key (m_id (the_model w1 x))) <$> ms
                  = (λ x, to_key (m_id (the_model w x))) <$> ms).
  { apply list_fmap_ext. intros i x _. simpl. by rewrite Hid1. }
  destruct (IH w1)
    as (w2 & Hrun2 & Hms & Hlen2 & Hidx & Hrest & Ha2 & Hid2 & Hl2).
  - by rewrite HC.
  - rewrite Hm1, HC. simpl. rewrite length_app. simpl. lia.
  - rewrite HC. simpl. rewrite lookup_insert_ne; [done|].
    intros Heq. rewrite Heq in Hinh. by rewrite inherited_proto in Hinh.
  - apply Forall_forall. intros x Hin. rewrite Hid1.
    rewrite Forall_forall in Hnew. destruct (Hnew x Hin) as (Hidx & Hix & Hkx).
    split; [done|]. split; [done|].
    rewrite HC. simpl. rewrite lookup_insert_ne; [done|].
    intros Heq. apply Hm. apply list_elem_of_fmap. exists x. done.
  - by rewrite Hkeys.
  - exists w2. split; [done|].
    split; [by rewrite Hms, Hm1, <- app_assoc|].
    split; [rewrite Hlen2, HC; simpl; lia|].
    split.
    { intros x [->|Hin]%elem_of_cons.
      - rewrite Hrest by by rewrite Hkeys.
        rewrite HC. simpl. by rewrite lookup_insert_eq.
      - rewrite <- Hid1. by apply Hidx. }
    split.
    { intros k Hk. simpl in Hk. apply not_elem_of_cons in Hk as [Hk1 Hk2].
      rewrite Hrest by by rewrite Hkeys.
      rewrite HC. simpl. by rewrite lookup_insert_ne. }
    split; [intros x; by rewrite Ha2|].
    split; [intros x; by rewrite Hid2|]. congruence.
Qed.

Lemma fmap_Forall2_eq {A B C} (f : A → C) (g : B → C) l k :
  Forall2 (λ x y, f x = g y) l k → f <$> l = g <$> k.
Proof.
  induction 1 as [|x y l k Hxy _ IH]; [done|].
  rewrite !fmap_cons. by f_equal.
Qed.

Lemma Forall2_elem_impl {A B} (P Q : A → B → Prop) l k :
  Forall2 P l k → (∀ x y, x ∈ l → P x y → Q x y) → Forall2 Q l k.
Proof.
  induction 1 as [|x y l k Hxy _ IH]; intros HPQ; constructor.
  - apply HPQ; [left|done].
  - apply IH. intros x' y' Hin. apply HPQ. by right.
Qed.

Lemma refresh_raw c hs silent w :
  comparator (the_collection w c) = None →
  Forall (λ h, plain h ∧
               accepts (model (the_collection w c)) (Properties h) = true ∧
               not_nullish (id_of h) = true ∧
               inherited (to_key (id_of h)) = None) hs →
  NoDup ((λ h, to_key (id_of h)) <$> hs) →
  ∃ w' ms,
    refresh c (Raw hs) silent w = Ret tt w' ∧
    models (the_collection w' c) = ms ∧
    c_length (the_collection w' c) = Z.of_nat (length hs) ∧
    Forall2 (λ m h, (∀ attr, get m attr w' = literal_reads h attr) ∧
                    m_id (the_model w' m) = id_of h ∧
                    _byId (the_collection w' c) !! to_key (id_of h) = Some m)
            ms hs ∧
    published_by (OCollection c) (since w w')
    = (if silent then [] else [("refresh", [ACollection c])]).
Proof.
  intros Hcmp Hhs Hnd. unfold refresh.
  destruct (new_Models_spec (model (the_collection w c)) hs w)
    as (ms & w1 & -> & Hc1 & Hl1 & Hndm & _ & Hnew).
  { eapply Forall_impl; [exact Hhs|]. by intros h (? & ? & _). }
  cbn [obind].
  set (w2 := with_collection c _initialize w1).
  assert (HC2 : the_collection w2 c = _initialize (the_collection w c)).
  { unfold w2. rewrite the_collection_with_collection_eq.
    unfold the_collection. by rewrite Hc1. }
  assert (HM2 : ∀ x, the_model w2 x = the_model w1 x)
    by (intros x; apply the_model_with_collection).
  assert (Hfacts : Forall2 (λ m h,
            (∀ attr, get m attr w2 = literal_reads h attr) ∧
            m_id (the_model w2 m) = id_of h) ms hs).
  { clear -Hnew Hhs HM2. induction Hnew as [|m h ms hs [n Hm] _ IH];
      [constructor|].
    apply Forall_cons in Hhs as [(Hplain & Hpass & _) Hhs].
    constructor; [|by apply IH].
    unfold get. rewrite HM2, Hm. split.
    - intros attr. by apply newborn_get.
    - by apply newborn_id. }
  assert (Hids : (λ m, to_key (m_id (the_model w2 m))) <$> ms
                 = (λ h, to_key (id_of h)) <$> hs).
  { apply fmap_Forall2_eq. eapply Forall2_impl; [exact Hfacts|].
    by intros m h [_ ->]. }
  destruct (add_new_ids c ms w2)
    as (w3 & -> & Hms & Hlen & Hidx & _ & Ha & Hid & Hl3).
  - by rewrite HC2.
  - by rewrite HC2.
  - by rewrite HC2.
  - clear -Hfacts Hhs HC2. induction Hfacts as [|m h ms hs [_ Hm] _ IH];
      [constructor|].
    apply Forall_cons in Hhs as [(_ & _ & Hnn & Hinh) Hhs].
    constructor; [|by apply IH].
    rewrite Hm, HC2. simpl. by rewrite lookup_empty.
  - by rewrite Hids.
  - cbn [obind].
    assert (Hres : Forall2 (λ m h,
              (∀ attr, get m attr w3 = literal_reads h attr) ∧
              m_id (the_model w3 m) = id_of h ∧
              _byId (the_collection w3 c) !! to_key (id_of h) = Some m) ms hs).
    { eapply Forall2_elem_impl; [exact Hfacts|].
      intros m h Hin [Hget Hm]. split; [|split].
      - intros attr. unfold get. rewrite Ha. apply Hget.
      - by rewrite Hid.
      - rewrite <- Hm. by apply Hidx. }
    rewrite HC2 in Hms, Hlen. simpl in Hms, Hlen.
    assert (Hlenms : length ms = length hs) by by eapply Forall2_length.
    destruct silent.
    + exists w3, ms. split; [done|]. split; [done|].
      split; [rewrite Hlen, Hlenms; lia|]. split; [done|].
      rewrite (since_app _ _ []); [done|].
      rewrite app_nil_r, Hl3. unfold w2. simpl. done.
    + rewrite c_trigger_eq by done. eexists _, ms. split; [done|].
      rewrite the_collection_more_log.
      split; [done|]. split; [rewrite Hlen, Hlenms; lia|].
      split.
      { eapply Forall2_impl; [exact Hres|]. intros m h (H1 & H2 & H3).
        split; [|split; [by rewrite the_model_more_log|done]].
        intros attr. unfold get. rewrite the_model_more_log. apply H1. }
      erewrite since_app.
      2:{ unfold more_log. cbn [log]. rewrite Hl3. unfold w2. cbn [log with_collection].
          rewrite Hl1. reflexivity. }
      rewrite published_by_own, published_by_app.
      by rewrite !published_by_c_calls.
Qed.

(** X25: [refresh] with an array of object literals, on a collection
    without comparator. Let every literal have distinct keys, none of
    them [__proto__], and no truthy [_attributes]; let the hook of the
    class accept every literal; and let the ids of the literals be
    neither [null] nor [undefined], not be named like a property of
    [Object.prototype], and differ from each other as keys. Then the
    collection holds one new model for each literal, in the order of
    the array; [pluck] reads from them the values of the literals, an
    empty string as [null], and for a name that a literal does not
    have what an empty object reads; the model at the index of a
    literal has its [id] and is the one [get] finds by a truthy [id];
    and the collection publishes one [refresh] with itself, or nothing
    when silent, and no [add]. *)
Theorem X25_refresh_with_object_literals c hs silent w :
  comparator (the_collection w c) = None →
  Forall (λ h, plain h ∧
               accepts (model (the_collection w c)) (Properties h) = true ∧
               not_nullish (id_of h) = true ∧
               inherited (to_key (id_of h)) = None) hs →
  NoDup ((λ h, to_key (id_of h)) <$> hs) →
  ∃ w',
    refresh c (Raw hs) silent w = Ret tt w' ∧
    length (models (the_collection w' c)) = length hs ∧
    c_length (the_collection w' c) = Z.of_nat (length hs) ∧
    (∀ attr, pluck c attr w' = (λ h, literal_reads h attr) <$> hs) ∧
    (∀ i h, hs !! i = Some h →
            ∃ m, at_ c i w' = Some m ∧
                 m_id (the_model w' m) = id_of h ∧
                 (truthy (id_of h) = true →
                  Collection_get c (RVal (id_of h)) w' = Holds m)) ∧
    published_by (OCollection c) (since w w')
    = (if silent then [] else [("refresh", [ACollection c])]).
Proof.
  intros Hcmp Hhs Hnd.
  destruct (refresh_raw c hs silent w Hcmp Hhs Hnd)
    as (w' & ms & Hrun & Hms & Hlen & Hall & Hpub).
  exists w'. split; [done|].
  split; [rewrite Hms; by eapply Forall2_length|].
  split; [done|]. split; [|split; [|done]].
  - intros attr. unfold pluck. rewrite Hms.
    apply fmap_Forall2_eq. eapply Forall2_impl; [exact Hall|].
    intros m h [Hget _]. apply Hget.
  - intros i h Hi. unfold at_, Collection_get. rewrite Hms.
    destruct (Forall2_lookup_r _ _ _ _ _ Hall Hi) as (m & Hm & _ & Hid & Hidx).
    exists m. split; [done|]. split; [done|]. intros ->.
    by apply index_at_own.
Qed.

Lemma X25_refresh_with_object_literals_witness :
  ∃ w',
    refresh 0 (Raw [[("id", VInt 1); ("name", VStr "a")];
                    [("id", VInt 2); ("name", VStr "")]]) false lone_collection
    = Ret tt w' ∧
    pluck 0 "name" w' = [Val (VStr "a"); Val VNull] ∧
    pluck 0 "constructor" w' = [Native Object_function; Native Object_function] ∧
    published_by (OCollection 0) (since lone_collection w')
    = [("refresh", [ACollection 0])].
Proof.
  destruct (X25_refresh_with_object_literals 0
              [[("id", VInt 1); ("name", VStr "a")];
               [("id", VInt 2); ("name", VStr "")]] false lone_collection)
    as (w' & Hrun & _ & _ & Hpluck & _ & Hpub).
  - vm_compute. reflexivity.
  - repeat constructor; try (apply (bool_decide_unpack _); vm_compute; exact I).
  - apply (bool_decide_unpack _). vm_compute. exact I.
  - exists w'. split; [exact Hrun|]. split; [|split; [|exact Hpub]].
    + rewrite Hpluck. vm_compute. reflexivity.
    + rewrite Hpluck. vm_compute. reflexivity.
Defined.
(** * Properties of the code: [sync] and views *)

(** ** Saving, destroying, fetching and creating *)

(** X26: [save] sets the attributes before anything else. When the
    validation fails it returns [false] without calling [sync],
    whatever [sync] is: the model and the collections are as before
    and the model has published the error. When the validation passes
    and the hash has no truthy [_attributes], [save] calls [sync] on
    the store the [set] has left, with the method [update] when the
    model then has a truthy [id], also one that this very [save] has
    set, and [create] otherwise. When the validation passes a hash
    with a truthy [_attributes], [save] throws as [set] does and
    [sync] is not called. *)
Theorem X26_save_sets_then_syncs m attrs silent success error w :
  match validation m (divert attrs) w with
  | Some err =>
      ∃ w', (∀ sync, save sync m (Hash attrs) silent success error w
                     = Ret false w') ∧
            model_heap w' = model_heap w ∧
            collection_heap w' = collection_heap w ∧
            published_by (OModel m) (since w w')
            = [("error", [AModel m; AVal err])]
  | None =>
      match divert attrs with
      | Properties kvs =>
          ∃ w1, set m (Hash attrs) silent w = Ret true w1 ∧
                ∀ sync, save sync m (Hash attrs) silent success error w
                        = obind (sync (if truthy
                                            (default (m_id (the_model w m))
                                               (hash_lookup "id" kvs))
                                       then "update" else "create")
                                      (OModel m) (save_success m success)
                                      error w1)
                                (λ _ w2, Ret true w2)
      | Primitive _ =>
          ∀ sync, save sync m (Hash attrs) silent success error w
                  = Throw TypeError w
      end
  end.
Proof.
  destruct (validation m (divert attrs) w) as [err|] eqn:Hval.
  - destruct (set_rejected m (Hash attrs) (divert attrs) err silent w
                eq_refl Hval)
      as (w' & Hset & Hm & Hc & _ & Hw).
    exists w'. split; [|split; [done|split; [done|]]].
    + intros sync. unfold save. by rewrite Hset.
    + destruct Hw as [_ _ _ (d & Hl & Hp & _)].
      by rewrite (since_app _ _ _ Hl).
  - destruct (divert attrs) as [kvs|v] eqn:Hd.
    + destruct (set_valid_wrote m kvs silent w) as (w1 & Hset & HM & _).
      assert (Hset' : set m (Hash attrs) silent w = Ret true w1).
      { unfold set. cbn [resolve]. by rewrite Hd, Hval. }
      exists w1. split; [done|]. intros sync. unfold save. rewrite Hset'.
      cbn [obind]. unfold isNew. rewrite HM, after_set_id.
      by destruct (truthy _).
    + intros sync. unfold save, set. cbn [resolve]. by rewrite Hd, Hval.
Qed.

Lemma index_at_deleted o k :
  o !! "__proto__" = None →
  index_at (index_delete k o) k
  = match inherited k with Some n => Proto n | None => Absent end.
Proof.
  intros Hp. unfold index_at, index_delete, lookup_in.
  case_bool_decide as Hk.
  - subst k. rewrite Hp. rewrite bool_decide_eq_false_2; [done|].
    by intros [? ?].
  - rewrite lookup_delete_eq, lookup_delete_ne by done. rewrite Hp.
    rewrite bool_decide_eq_false_2; [done|]. by intros [? ?].
Qed.

(** X27: the [success] that [destroy] hands to [sync] takes the model
    out of its collection: for a model with an [id] that is not [null]
    or [undefined], which its collection finds, the model then refers
    to no collection, the collection is one model shorter and has
    published one [remove] with the model. When the prototype of the
    index by [id], and that by [cid], is untouched, [get] and
    [getByCid] with the model then find what [Object.prototype] has
    under the [id], and the [cid], and nothing if it has nothing
    there. A model without collection is left as it is. *)
Theorem X27_destroy_takes_the_model_out m resp w :
  match collection (the_model w m) with
  | None => destroy_success m None resp w = Ret VUndefined w
  | Some c =>
      Collection_get c (RModel m) w = Holds m →
      not_nullish (m_id (the_model w m)) = true →
      ∃ w', destroy_success m None resp w = Ret VUndefined w' ∧
            (_byId (the_collection w c) !! "__proto__" = None →
             Collection_get c (RModel m) w'
             = match inherited (to_key (m_id (the_model w m))) with
               | Some n => Proto n
               | None => Absent
               end) ∧
            (_byCid (the_collection w c) !! "__proto__" = None →
             cid (the_model w m) ≠ "" →
             getByCid c (inl m) w'
             = match inherited (cid (the_model w m)) with
               | Some n => Proto n
               | None => Absent
               end) ∧
            collection (the_model w' m) = None ∧
            c_length (the_collection w' c)
            = (c_length (the_collection w c) - 1)%Z ∧
            published_by (OCollection c) (since w w')
            = [("remove", [AModel m])]
  end.
Proof.
  unfold destroy_success.
  destruct (collection (the_model w m)) as [c|] eqn:Hcol; [|done].
  intros Hget Hid.
  destruct (_remove_resolved c (RModel m) m false w Hget)
    as (w' & d & Hrun & HC & HM & _ & _ & Hl & Hp).
  rewrite Hrun. cbn [obind call_success].
  exists w'. split; [done|].
  unfold Collection_get, getByCid. rewrite HC, HM. simpl. rewrite Hid.
  rewrite (since_app _ _ _ Hl).
  split; [by apply index_at_deleted|].
  split; [|done].
  intros Hp' Hcid. apply String.eqb_neq in Hcid. rewrite Hcid.
  by apply index_at_deleted.
Qed.

Lemma X27_destroy_takes_the_model_out_witness :
  ∃ w', destroy_success 1 None (Response NoHash NoModels)
          (final (_add 0 1 false ranked_models)) = Ret VUndefined w' ∧
        Collection_get 0 (RModel 1) w' = Absent ∧
        collection (the_model w' 1) = None.
Proof.
  pose proof (X27_destroy_takes_the_model_out 1 (Response NoHash NoModels)
                (final (_add 0 1 false ranked_models))) as H.
  assert (Hc : collection (the_model (final (_add 0 1 false ranked_models)) 1)
               = Some 0) by (vm_compute; reflexivity).
  rewrite Hc in H.
  destruct H as (w' & H1 & H2 & _ & H3 & _).
  - vm_compute. reflexivity.
  - vm_compute. reflexivity.
  - exists w'. split; [exact H1|]. split; [|exact H3].
    rewrite H2; vm_compute; reflexivity.
Defined.

(** X28: [create] with a model does not put the model into the
    collection: when the hook of the model accepts the empty hash and
    the model is not changed, [create] makes the model refer to the
    collection, leaves every collection as it is, and calls [sync],
    with [create] for a model without truthy [id] and [update]
    otherwise. The model is added when [sync] calls the [success] it
    was given: if the [set] of the attributes of the response returns
    the model, and [get] of the collection then finds nothing for the
    model, not even something inherited, it is among the models
    afterwards and the collection has published one [add]. *)
Theorem X28_create_adds_when_the_server_answers c m success error w :
  validation m (Properties []) w = None →
  _changed (the_model w m) = false →
  let w2 := with_model m (set_collection (Some c)) w in
  (∀ sync, create sync c (inl m) success error w
           = obind (sync (if isNew m w then "create" else "update") (OModel m)
                         (save_success m (Some (create_callback m success)))
                         error w2)
                   (λ _ w3, Ret true w3)) ∧
  collection_heap w2 = collection_heap w ∧
  collection (the_model w2 m) = Some c ∧
  (∀ resp w3,
     let w4 := final (set m (resp_model resp) false w3) in
     returned (set m (resp_model resp) false w3) = Some true →
     collection (the_model w4 m) = Some c →
     Collection_get c (RModel m) w4 = Absent →
     ∃ w', save_success m (Some (create_callback m None)) resp w3
           = Ret VUndefined w' ∧
           m ∈ models (the_collection w' c) ∧
           published_by (OCollection c) (since w4 w') = [("add", [AModel m])]).
Proof.
  intros Hval Hch w2.
  assert (HM2 : the_model w2 m = set_collection (Some c) (the_model w m)).
  { unfold w2. by rewrite the_model_with_model_eq. }
  split; [|split; [done|split; [by rewrite HM2|]]].
  - intros sync. unfold create. cbn [obind]. fold w2. unfold save.
    assert (Hset : set m (Hash []) false w2 = Ret true w2).
    { unfold set. cbn [resolve]. change (divert []) with (Properties []).
      assert (Hval2 : validation m (Properties []) w2 = None).
      { unfold validation in *. by rewrite HM2. }
      rewrite Hval2. unfold set_valid. cbn [hash_lookup set_each obind].
      rewrite HM2. simpl. by rewrite Hch. }
    rewrite Hset. cbn [obind]. unfold isNew. by rewrite HM2.
  - intros resp w3 w4 Hret Hcol Hget. unfold save_success.
    destruct (set m (resp_model resp) false w3) as [ok w4'|] eqn:Hset;
      [|done].
    simpl in Hret. injection Hret as ->. subst w4. cbn [final] in *.
    cbn [obind call_success create_callback]. unfold create_success.
    cbn [set resolve obind]. rewrite Hcol.
    destruct (_add_not_found c m false w4' Hget)
      as (w' & d & Hrun & HC & _ & _ & _ & _ & Hl & Hp & _).
    rewrite Hrun. cbn [obind call_success].
    exists w'. split; [done|]. split.
    + rewrite HC. simpl. apply elem_of_splice_insert. by left.
    + by rewrite (since_app _ _ _ Hl).
Qed.

Lemma X28_create_adds_when_the_server_answers_witness :
  create (λ _ _ _ _ w, Ret tt w) 0 (inl 1) None None ranked_models
  = Ret true (with_model 1 (set_collection (Some 0)) ranked_models).
Proof.
  destruct (X28_create_adds_when_the_server_answers 0 1 None None
              ranked_models) as (Hrun & _).
  - vm_compute. reflexivity.
  - vm_compute. reflexivity.
  - by rewrite Hrun.
Defined.

(** X29: the [success] that [fetch] hands to [sync] refreshes the
    collection with the models of the response; when the response has
    none, the collection is left empty: it has no model, [length] is
    0, [get] and [getByCid] find no model, and find nothing at all for
    an [id] or [cid] that does not name a property of
    [Object.prototype], the models themselves are as they were, and
    the collection has published one [refresh] with itself. *)
Theorem X29_fetch_without_models_empties c resp w :
  resp_models resp = NoModels →
  ∃ w', fetch_success c None resp w = Ret VUndefined w' ∧
        models (the_collection w' c) = [] ∧
        c_length (the_collection w' c) = 0%Z ∧
        (∀ r e, Collection_get c r w' ≠ Holds e) ∧
        (∀ x e, getByCid c x w' ≠ Holds e) ∧
        (∀ v, inherited (to_key v) = None →
              Collection_get c (RVal v) w' = Absent) ∧
        (∀ s, inherited s = None → getByCid c (inr s) w' = Absent) ∧
        (∀ s n, inherited s = Some n →
                Collection_get c (RVal (VStr s)) w'
                = (if String.eqb s "" then Absent else Proto n)) ∧
        model_heap w' = model_heap w ∧
        published_by (OCollection c) (since w w')
        = [("refresh", [ACollection c])].
Proof.
  intros Hms. unfold fetch_success, refresh. rewrite Hms.
  cbn [obind add]. rewrite c_trigger_eq by done. cbn [obind call_success].
  eexists. split; [done|].
  rewrite the_collection_more_log, the_collection_with_collection_eq.
  split; [done|]. split; [done|].
  assert (Hat : ∀ k e, index_at ∅ k ≠ Holds e).
  { intros k e. unfold index_at, lookup_in. rewrite !lookup_empty.
    rewrite bool_decide_eq_false_2 by by intros [? ?].
    by destruct (inherited k). }
  assert (Hfree : ∀ k, inherited k = None → index_at ∅ k = Absent).
  { intros k Hk. by apply index_at_free. }
  split.
  { intros r e. unfold Collection_get.
    rewrite the_collection_more_log, the_collection_with_collection_eq. simpl.
    destruct r as [m|v]; [apply Hat|].
    destruct (truthy v); [apply Hat|done]. }
  split.
  { intros x e. unfold getByCid.
    rewrite the_collection_more_log, the_collection_with_collection_eq. simpl.
    destruct x as [m|s]; [apply Hat|].
    destruct (String.eqb s ""); [done|apply Hat]. }
  split.
  { intros v Hv. unfold Collection_get.
    rewrite the_collection_more_log, the_collection_with_collection_eq. simpl.
    destruct (truthy v); [by apply Hfree|done]. }
  split.
  { intros s Hs. unfold getByCid.
    rewrite the_collection_more_log, the_collection_with_collection_eq. simpl.
    destruct (String.eqb s ""); [done|by apply Hfree]. }
  split.
  { intros s n Hs. unfold Collection_get.
    rewrite the_collection_more_log, the_collection_with_collection_eq. simpl.
    destruct (String.eqb s "") eqn:Hs0.
    - apply String.eqb_eq in Hs0. by subst s.
    - replace (truthy (VStr s)) with true.
      + unfold index_at, lookup_in. rewrite !lookup_empty.
        rewrite bool_decide_eq_false_2 by by intros [? ?].
        by rewrite Hs.
      + symmetry. unfold truthy. by rewrite Hs0. }
  split; [done|].
  unfold since, more_log. cbn [log with_collection]. rewrite drop_app_length.
  rewrite published_by_own, published_by_app.
  by rewrite !published_by_c_calls.
Qed.

Lemma X29_fetch_without_models_empties_witness :
  ∃ w', fetch_success 0 None (Response NoHash NoModels)
          (final (_add 0 1 false ranked_models)) = Ret VUndefined w' ∧
        models (the_collection w' 0) = [] ∧
        Collection_get 0 (RVal (VInt 11)) w' = Absent ∧
        Collection_get 0 (RVal (VStr "constructor")) w'
        = Proto Object_function.
Proof.
  destruct (X29_fetch_without_models_empties 0 (Response NoHash NoModels)
              (final (_add 0 1 false ranked_models)))
    as (w' & H1 & H2 & _ & _ & _ & H3 & _ & H4 & _).
  - reflexivity.
  - exists w'. split; [exact H1|]. split; [exact H2|].
    split; [apply H3; vm_compute; reflexivity|].
    apply (H4 "constructor" Object_function). vm_compute. reflexivity.
Defined.

(** ** Views *)


(** * The scenarios of the specification *)

(** Writing its own attributes to a model changes nothing and
    publishes nothing. *)
Example write_what_was_read :
  set 0 (OfModel 0) false one_model = Ret true one_model.
Proof. by vm_compute. Qed.

(** Models of ranks 3, 1, 2 added in this order are kept in the order
    of the ranks 1, 2, 3. *)
Example ranks_in_order :
  criterion by_rank
    (final (set 2 (Hash [("rank", VInt 2)]) true ranked_models))
  <$> models (the_collection
                (foldl (c_perform 0)
                   (final (set 2 (Hash [("rank", VInt 2)]) true ranked_models))
                   [InsertOne 0 false; InsertOne 1 false; InsertOne 2 false])
                0)
  = [1; 2; 3]%Z.
Proof. by vm_compute. Qed.

(** The second of two models with the id ["42"] is not added: [_add]
    throws and the collection is as before, with one model. *)
Example second_42_is_refused :
  _add 0 1 false (final (_add 0 0 false two_of_a_kind))
  = Throw (Error "Can't add the same model to a set twice" (VStr "42"))
          (final (_add 0 0 false two_of_a_kind)) ∧
  c_length (the_collection (final (_add 0 0 false two_of_a_kind)) 0) = 1%Z.
Proof. split; by vm_compute. Qed.

(** Removing by id publishes [remove] and no [refresh]. *)
Example remove_by_id :
  published_by (OCollection 0)
    (log (foldl (c_perform 0) ranked_models
            [InsertOne 0 true; InsertOne 1 true; RemoveOne (RVal (VInt 11)) false]))
  = [("remove", [AModel 1])] ∧
  models (the_collection
            (foldl (c_perform 0) ranked_models
               [InsertOne 0 true; InsertOne 1 true;
                RemoveOne (RVal (VInt 11)) false]) 0)
  = [0].
Proof. split; by vm_compute. Qed.

